(** * ATCA-DMOEA: archive, transfer seeding and environment-change loop

    A shallow embedding of [main_code.ipynb]: the crowding ranker, the spread
    and spacing metrics, the repair, the hand-written benchmark problem,
    the subset selector, the elite archive, the kernel subspace alignment
    (TCA) and the driver loop, with the properties of its specification
    and further properties of the code.

    Numbers.  Python floats are idealised as exact rationals ([Q]), kept in
    lowest terms by the matrix operations; the one place where the source
    stores [np.inf] (the crowding distances) uses rationals extended by
    the two infinities, and [np.sqrt] is the real square root; the
    distances of [compute_sp] and the whole of [Problem1], which takes its
    parameters from [sin] and [cos], are real numbers.  Rounding
    is outside the model, and so is NaN, but for the result of [compute_ms]
    on a front without objectives.

    Arrays.  A two-dimensional [ndarray] is its list of rows together with
    its column count (so that an array with no row still has a shape, as in
    numpy); a one-dimensional one is a list.

    Effects.  An exception is a value of [exn] returned through [result];
    [np.random.choice] is the finite list of its equally likely outcomes;
    the driver threads the state of the random generator.  What the
    libraries compute in floating point (the exponential, the inverse, the
    eigen-decomposition), the benchmark problem, the optimiser and the
    metric [IGD] are the fields of a record [Externals], over which the
    properties are stated.

    Sorting.  [np.argsort] with its default kind is not stable, and the
    order in which it returns the indices of equal keys depends on the
    platform: it is a parameter ([Argsort]) of the functions that call it,
    and the properties hold for every [np.argsort] that returns the indices
    in an ascending order of their keys ([ArgsortSorts]).  The stable sort
    is one such, and serves in the examples. *)

From Stdlib Require Import List Arith ZArith QArith Qabs Qminmax Qround.
From Stdlib Require Import Lia Lra Psatz Bool.
From Stdlib Require Import Permutation Sorted.
From Stdlib Require Import Reals Qreals.
Import ListNotations.

Set Implicit Arguments.

(* ================================================================== *)
(** ** Exceptions *)

(** The numpy operation that raised a [ValueError]. *)
Inductive np_op :=
| Broadcast       (* operands could not be broadcast together *)
| Concatenate     (* vstack: column counts differ *)
| Inhomogeneous   (* np.array on rows of different lengths *)
| Choice          (* np.random.choice: sample larger than population *)
| NegativeDim     (* negative dimensions are not allowed *)
| Matmul          (* matmul, rbf_kernel: inner dimensions differ *)
| EmptyReduce     (* min or max of an empty array *)
| EmptyArray.     (* sklearn's check_array: no sample, or no feature *)

Inductive exn :=
| IndexError
| ZeroDivisionError
| LinAlgError
| AttributeError
| ValueError (op : np_op).

Inductive result (A : Type) :=
| Ok (a : A)
| Raise (e : exn).
Arguments Ok {A} a.
Arguments Raise {A} e.

Definition rbind {A B} (c : result A) (k : A -> result B) : result B :=
  match c with
  | Ok a => k a
  | Raise e => Raise e
  end.

Declare Scope result_scope.
Delimit Scope result_scope with result.
Notation "x <- c ;; k" := (rbind c (fun x => k))
  (at level 61, c at next level, right associativity) : result_scope.
Notation "' pat <- c ;; k" :=
  (rbind c (fun x => match x with pat => k end))
  (at level 61, pat pattern, c at next level, right associativity)
  : result_scope.
Local Open Scope result_scope.

(** A [for] loop with a mutable accumulator, stopping at the first
    exception. *)
Fixpoint foldM {A B} (body : A -> B -> result A) (acc : A) (l : list B)
  : result A :=
  match l with
  | [] => Ok acc
  | b :: l' => acc' <- body acc b ;; foldM body acc' l'
  end.

(** [l[i]], [l[-1]] and [l[i] = a] of Python. *)
Definition getitem {A} (l : list A) (i : nat) : result A :=
  match nth_error l i with
  | Some a => Ok a
  | None => Raise IndexError
  end.

Definition getitem_last {A} (l : list A) : result A :=
  getitem l (length l - 1).

Fixpoint replace_nth {A} (l : list A) (i : nat) (a : A) : list A :=
  match l, i with
  | [], _ => []
  | _ :: l', O => a :: l'
  | x :: l', S i' => x :: replace_nth l' i' a
  end.

Definition setitem {A} (l : list A) (i : nat) (a : A) : result (list A) :=
  if i <? length l then Ok (replace_nth l i a) else Raise IndexError.

(* ================================================================== *)
(** ** Numbers *)

(** A float that may be infinite: the values of the crowding distances. *)
Inductive ext :=
| NInf
| Fin (q : Q)
| PInf.

(** [d + q] for a finite [q]. *)
Definition ext_add_fin (d : ext) (q : Q) : ext :=
  match d with
  | Fin x => Fin (x + q)
  | inf => inf
  end.

Definition ext_opp (d : ext) : ext :=
  match d with
  | NInf => PInf
  | Fin x => Fin (- x)
  | PInf => NInf
  end.

Definition ext_leb (a b : ext) : bool :=
  match a, b with
  | NInf, _ => true
  | _, PInf => true
  | Fin x, Fin y => Qle_bool x y
  | _, _ => false
  end.

Definition Qsum (l : list Q) : Q := fold_left Qplus l 0.

(* ================================================================== *)
(** ** np.argsort *)

Section Argsort.
Variable A : Type.
Variable leb : A -> A -> bool.

(** One way to sort: indices are inserted from the last to the first, each
    before the first index whose key is not smaller, so that equal keys
    stay in index order. *)
Fixpoint insert_index (key : nat -> A) (i : nat) (l : list nat) : list nat :=
  match l with
  | [] => [i]
  | j :: l' =>
      if leb (key i) (key j) then i :: l else j :: insert_index key i l'
  end.

(** Index [i] comes no later than [j] in the order of the keys. *)
Definition key_le (key : nat -> A) (i j : nat) : Prop :=
  leb (key i) (key j) = true.

Definition argsort_key (key : nat -> A) (n : nat) : list nat :=
  fold_right (insert_index key) [] (seq 0 n).

Definition argsort_by (d : A) (v : list A) : list nat :=
  argsort_key (fun i => nth i v d) (length v).
End Argsort.

Definition stable_argsort (v : list Q) : list nat :=
  argsort_by Qle_bool 0 v.
Definition stable_argsort_ext (v : list ext) : list nat :=
  argsort_by ext_leb (Fin 0) v.

(** [np.argsort(v)], on floats and on possibly infinite floats.  numpy
    returns the indices in an order that sorts the keys; its default sort
    is not stable, so the order it gives to equal keys is its own choice.
    The function is a parameter of the model, of which [ArgsortSorts] is
    all that is known. *)
Class Argsort := mkArgsort {
  argsort : list Q -> list nat;
  argsort_ext : list ext -> list nat
}.

(** [s] lists the indices of [v], each once, in an order in which the keys
    do not decrease. *)
Definition sorts {A} (leb : A -> A -> bool) (d : A) (v : list A)
    (s : list nat) : Prop :=
  Permutation s (seq 0 (length v))
  /\ StronglySorted (fun i j => leb (nth i v d) (nth j v d) = true) s.

Class ArgsortSorts (np : Argsort) : Prop := mkArgsortSorts {
  argsort_sorts : forall v, sorts Qle_bool 0 v (argsort v);
  argsort_ext_sorts : forall v, sorts ext_leb (Fin 0) v (argsort_ext v)
}.

(** The stable sort is one of the functions that [np.argsort] may be. *)
Definition stable : Argsort := mkArgsort stable_argsort stable_argsort_ext.

(* ================================================================== *)
(** ** Arrays *)

(** A 2-d array of shape [(length rows, ncols)]. *)
Record matrix := mkMatrix {
  ncols : nat;
  rows : list (list Q)
}.

Definition nrows (M : matrix) : nat := length (rows M).

(** Every row has [ncols] entries. *)
Definition wf (M : matrix) : Prop :=
  Forall (fun r => length r = ncols M) (rows M).

(** [M[:, m]] *)
Definition column (M : matrix) (m : nat) : list Q :=
  map (fun r => nth m r 0) (rows M).

(** [M[i, m]] *)
Definition entry (M : matrix) (i m : nat) : result Q :=
  r <- getitem (rows M) i ;; getitem r m.

(** [M[idx]] for an index array [idx]. *)
Definition take_rows (M : matrix) (idx : list nat) : result matrix :=
  rs <- foldM (fun acc i => r <- getitem (rows M) i ;; Ok (acc ++ [r]))
              [] idx ;;
  Ok (mkMatrix (ncols M) rs).

(* ================================================================== *)
(** ** crowding_distance *)

(** The body of the inner loop, [for i in range(1, n_points - 1)], for
    objective [m]. *)
Definition crowding_inner (F : matrix) (m : nat) (sorted_indices : list nat)
    (f_min f_max : Q) (distance : list ext) (i : nat) : result (list ext) :=
  if Qeq_bool (f_max - f_min) 0 then Ok distance
  else
    si <- getitem sorted_indices i ;;
    d <- getitem distance si ;;
    sn <- getitem sorted_indices (i + 1) ;;
    a <- entry F sn m ;;
    sp <- getitem sorted_indices (i - 1) ;;
    b <- entry F sp m ;;
    setitem distance si (ext_add_fin d ((a - b) / (f_max - f_min))).

(** [l.index(p)]: the place of point [p] in a sort order. *)
Fixpoint index_of (p : nat) (l : list nat) : nat :=
  match l with
  | [] => 0%nat
  | x :: l' => if (x =? p)%nat then 0%nat else S (index_of p l')
  end.

Section CrowdingDistance.
Context {np : Argsort}.

(** The body of the outer loop, [for m in range(n_obj)]. *)
Definition crowding_outer (F : matrix) (distance : list ext) (m : nat)
  : result (list ext) :=
  let n_points := nrows F in
  let sorted_indices := argsort (column F m) in
  s0 <- getitem sorted_indices 0 ;;
  f_min <- entry F s0 m ;;
  sl <- getitem_last sorted_indices ;;
  f_max <- entry F sl m ;;
  distance <- setitem distance s0 PInf ;;
  distance <- setitem distance sl PInf ;;
  foldM (crowding_inner F m sorted_indices f_min f_max) distance
        (seq 1 (n_points - 2)).

Definition crowding_distance (F : matrix) : result (list ext) :=
  let n_points := nrows F in
  let n_obj := ncols F in
  foldM (crowding_outer F) (repeat (Fin 0) n_points) (seq 0 n_obj).

(** *** The ranking in the words of the specification *)

(** Point [p] is one of the two extreme points of objective [m]. *)
Definition is_extreme (F : matrix) (m p : nat) : bool :=
  let s := argsort (column F m) in
  (index_of p s =? 0) || (index_of p s =? length s - 1).

(** [max - min] of objective [m]. *)
Definition obj_range (F : matrix) (m : nat) : Q :=
  let s := argsort (column F m) in
  let c := column F m in
  nth (nth (length s - 1) s 0%nat) c 0 - nth (nth 0 s 0%nat) c 0.

(** [next_value - previous_value] around point [p] in the sort order of
    objective [m]. *)
Definition neighbour_gap (F : matrix) (m p : nat) : Q :=
  let s := argsort (column F m) in
  let c := column F m in
  let i := index_of p s in
  nth (nth (i + 1) s 0%nat) c 0 - nth (nth (i - 1) s 0%nat) c 0.

(** What objective [m] adds to the distance of an interior point [p]:
    [(next_value - previous_value) / (max - min)], and nothing when the
    range is zero. *)
Definition contribution (F : matrix) (m p : nat) : Q :=
  if Qeq_bool (obj_range F m) 0 then 0
  else neighbour_gap F m p / obj_range F m.

Definition crowding_spec (F : matrix) (p : nat) : ext :=
  if existsb (fun m => is_extreme F m p) (seq 0 (ncols F)) then PInf
  else Fin (Qsum (map (fun m => contribution F m p) (seq 0 (ncols F)))).

(** What one turn of the outer loop does to the distance [x] of point
    [p]. *)
Definition step_pt (F : matrix) (m p : nat) (x : ext) : ext :=
  if is_extreme F m p then PInf
  else if Qeq_bool (obj_range F m) 0 then x
  else ext_add_fin x (neighbour_gap F m p / obj_range F m).

End CrowdingDistance.

(** Equality of distances, up to the value of the fraction. *)
Definition ext_eq (a b : ext) : Prop :=
  match a, b with
  | NInf, NInf => True
  | PInf, PInf => True
  | Fin x, Fin y => x == y
  | _, _ => False
  end.

(** The front of the specification's example: objective values [0,1,5] and
    [5,1,0]. *)
Definition front3 : matrix := mkMatrix 2 [[0; 5]; [1; 1]; [5; 0]].

(* ================================================================== *)
(** ** compute_ms *)

(** A float result that may be [nan]. *)
Inductive fval :=
| Num (x : R)
| NaN.

Fixpoint zip_with {A B C} (f : A -> B -> C) (l1 : list A) (l2 : list B)
  : list C :=
  match l1, l2 with
  | a :: l1', b :: l2' => f a b :: zip_with f l1' l2'
  | _, _ => []
  end.

(** [np.min(M, axis=0)] and [np.max(M, axis=0)]: numpy refuses to reduce
    along an axis of length zero. *)
Definition np_min_axis0 (M : matrix) : result (list Q) :=
  match rows M with
  | [] => Raise (ValueError EmptyReduce)
  | r :: rs => Ok (fold_left (zip_with Qmin) rs r)
  end.

Definition np_max_axis0 (M : matrix) : result (list Q) :=
  match rows M with
  | [] => Raise (ValueError EmptyReduce)
  | r :: rs => Ok (fold_left (zip_with Qmax) rs r)
  end.

Definition Qlt_bool (a b : Q) : bool := negb (Qle_bool b a).

(** The loop [for k in range(F.shape[1])] with its list
    [ms_components]. *)
Definition ms_components (F : matrix) (F_min F_max true_min true_max : list Q)
  : result (list Q) :=
  foldM (fun acc k =>
           tmax <- getitem true_max k ;;
           fmax <- getitem F_max k ;;
           tmin <- getitem true_min k ;;
           fmin <- getitem F_min k ;;
           let numerator := Qmin tmax fmax - Qmax tmin fmin in
           let denominator := tmax - tmin in
           if Qlt_bool (Qabs denominator) (1 # 1000000)
           then Ok (acc ++ [0])
           else Ok (acc ++ [(numerator / denominator) ^ 2]))
        [] (seq 0 (ncols F)).

(** One entry of [ms_components]. *)
Definition ms_component (tmax fmax tmin fmin : Q) : Q :=
  if Qlt_bool (Qabs (tmax - tmin)) (1 # 1000000) then 0
  else ((Qmin tmax fmax - Qmax tmin fmin) / (tmax - tmin)) ^ 2.

Definition compute_ms (F true_pf : matrix) : result fval :=
  F_min <- np_min_axis0 F ;;
  F_max <- np_max_axis0 F ;;
  true_min <- np_min_axis0 true_pf ;;
  true_max <- np_max_axis0 true_pf ;;
  comps <- ms_components F F_min F_max true_min true_max ;;
  if (ncols F =? 0)%nat then Ok NaN
  else Ok (Num (sqrt (Q2R (Qsum comps / inject_Z (Z.of_nat (ncols F)))))).

(** A true front spanning [0, 1] in both objectives, and an achieved set
    spanning [3, 4] in both. *)
Definition unit_front : matrix := mkMatrix 2 [[0; 0]; [1; 1]].
Definition far_set : matrix := mkMatrix 2 [[3; 3]; [4; 4]].

(* ================================================================== *)
(** ** Arrays of one or two dimensions, and the problem *)

Inductive ndarray :=
| Arr1 (v : list Q)
| Arr2 (M : matrix).

(** [len(a)] *)
Definition len (a : ndarray) : nat :=
  match a with
  | Arr1 v => length v
  | Arr2 M => nrows M
  end.

(** [np.array(l)] for a list of lists of floats: the empty list gives the
    one-dimensional empty array, rows of different lengths are refused. *)
Definition np_array (l : list (list Q)) : result ndarray :=
  match l with
  | [] => Ok (Arr1 [])
  | r :: _ =>
      if forallb (fun r' => length r' =? length r)%nat l
      then Ok (Arr2 (mkMatrix (length r) l))
      else Raise (ValueError Inhomogeneous)
  end.

(** The items of [for ind in a], each as the row that [np.array([ind])]
    hands to the evaluation. *)
Definition items (a : ndarray) : list (list Q) :=
  match a with
  | Arr1 v => map (fun x => [x]) v
  | Arr2 M => rows M
  end.

(** [a[idx]] for an index array [idx]. *)
Definition fancy_index (a : ndarray) (idx : list nat) : result ndarray :=
  match a with
  | Arr1 v =>
      v' <- foldM (fun acc i => x <- getitem v i ;; Ok (acc ++ [x])) [] idx ;;
      Ok (Arr1 v')
  | Arr2 M => M' <- take_rows M idx ;; Ok (Arr2 M')
  end.

(** The time-dependent problem (the environment): what the driver reads of
    a pymoo [Problem]. *)
Record Problem := mkProblem {
  n_var : nat;
  n_obj : nat;
  xl : list Q;
  xu : list Q;
  (** the objective values [out["F"][0]] of one decision vector *)
  _evaluate : list Q -> result (list Q);
  pareto_front : matrix
}.

(** [F_saved[i] = f]: a row of [n_obj] values, or one value broadcast. *)
Definition assign_row (width : nat) (f : list Q) : result (list Q) :=
  if (length f =? width)%nat then Ok f
  else match f with
       | [x] => Ok (repeat x width)
       | _ => Raise (ValueError Broadcast)
       end.

(** [F_saved = np.zeros((len(source), problem.n_obj))] filled by the loop
    [for i, ind in enumerate(source)]. *)
Definition evaluate_saved (problem : Problem) (source : list (list Q))
  : result matrix :=
  let zeros := repeat (repeat 0 (n_obj problem)) (length source) in
  F_rows <- foldM (fun acc '(i, ind) =>
                     f <- _evaluate problem ind ;;
                     row <- assign_row (n_obj problem) f ;;
                     setitem acc i row)
                  zeros (combine (seq 0 (length source)) source) ;;
  Ok (mkMatrix (n_obj problem) F_rows).

(* ================================================================== *)
(** ** select_subset *)

Definition select_subset {np : Argsort} (saved : list (list Q))
    (problem : Problem) (max_elements : nat) : result ndarray :=
  source <- np_array saved ;;
  let n := len source in
  if (n =? 0)%nat then Ok (Arr1 [])
  else if (n <=? max_elements)%nat then Ok source
  else
    F_saved <- evaluate_saved problem (items source) ;;
    let best_indices :=
      firstn max_elements (argsort (map Qsum (rows F_saved))) in
    fancy_index source best_indices.

(** The objective values of an archive member, when it evaluates. *)
Definition objective_values (problem : Problem) (x : list Q) : list Q :=
  match _evaluate problem x with
  | Ok f => f
  | Raise _ => []
  end.

(** The sum of the objective values of a decision vector. *)
Definition objective_sum (problem : Problem) (x : list Q) : Q :=
  Qsum (objective_values problem x).

(** The problem evaluates every vector of [l] to [n_obj] values. *)
Definition evaluates (problem : Problem) (l : list (list Q)) : Prop :=
  forall x, In x l ->
    exists f, _evaluate problem x = Ok f /\ length f = n_obj problem.

(** The objective values of the vectors of an archive, as
    [problem.evaluate] returns them. *)
Definition objectives_of (problem : Problem) (saved : list (list Q)) : matrix :=
  mkMatrix (n_obj problem) (map (objective_values problem) saved).

(** All vectors have [d] components. *)
Definition rectangular (d : nat) (l : list (list Q)) : Prop :=
  Forall (fun r => length r = d) l.

(* ================================================================== *)
(** ** Random draws *)

(** A finite distribution: the list of its equally likely outcomes. *)
Definition dist (A : Type) : Type := list A.

Definition dret {A} (a : A) : dist A := [a].

Definition dbind {A B} (d : dist A) (k : A -> dist B) : dist B :=
  flat_map k d.

(** [l] without the index [x]. *)
Definition without (x : nat) (l : list nat) : list nat :=
  filter (fun y => negb (y =? x)%nat) l.

(** All the ways to draw [k] different elements of [l], one after the
    other. *)
Fixpoint arrangements (k : nat) (l : list nat) : list (list nat) :=
  match k with
  | O => [[]]
  | S k' =>
      flat_map (fun x => map (cons x) (arrangements k' (without x l))) l
  end.

(** [np.random.choice(n, size=size, replace=False)] with no weights: a
    uniform sample without replacement of [range(n)].  A sample larger than
    the population has no outcome (numpy raises [ValueError]); the
    source never asks for one. *)
Definition np_random_choice (n size : nat) : dist (list nat) :=
  arrangements size (seq 0 n).

(** [[l[i] for i in idx]] *)
Definition pick {A} (d : A) (l : list A) (idx : list nat) : list A :=
  map (fun i => nth i l d) idx.

(* ================================================================== *)
(** ** save_elite_solutions *)

(** The archive [solutions] is a Python list of lists; the function
    mutates it in place ([solutions[:] = combined]) and the model returns
    its new content. *)
Definition save_elite_solutions (problem : Problem) (var obj : matrix)
    (max_save : nat) (solutions : list (list Q)) (max_per_problem : nat)
  : dist (list (list Q)) :=
  let current_solutions := rows var in
  dbind
    (if (max_per_problem <? length current_solutions)%nat
     then dbind (np_random_choice (length current_solutions) max_per_problem)
                (fun random_indices =>
                   dret (pick [] current_solutions random_indices))
     else dret current_solutions)
    (fun current_elites =>
       let combined := solutions ++ current_elites in
       if (max_save <? length combined)%nat
       then dbind (np_random_choice (length combined) max_save)
                  (fun random_indices =>
                     dret (pick [] combined random_indices))
       else dret combined).

(** The archives that a sequence of calls can produce, from the empty
    archive of the start of a run. *)
Inductive reachable (max_save max_per_problem : nat)
  : list (list Q) -> Prop :=
| reachable_start : reachable max_save max_per_problem []
| reachable_update problem var obj solutions solutions' :
    reachable max_save max_per_problem solutions ->
    In solutions'
       (save_elite_solutions problem var obj max_save solutions
                             max_per_problem) ->
    reachable max_save max_per_problem solutions'.

(** The two samplings of [save_elite_solutions] have one shape: a list
    longer than [cap] is replaced by the elements at [cap] drawn
    indices. *)
Definition subsample (cap : nat) (l : list (list Q)) : dist (list (list Q)) :=
  if (cap <? length l)%nat
  then map (pick [] l) (np_random_choice (length l) cap)
  else [l].

(** The indices of [a] all belong to [S], and back. *)
Definition subsetb (a S : list nat) : bool :=
  forallb (fun x => existsb (Nat.eqb x) S) a.

Definition same_set (a S : list nat) : bool :=
  subsetb a S && subsetb S a.

(** The number of outcomes with a property. *)
Definition count {A} (f : A -> bool) (d : dist A) : nat :=
  length (filter f d).

(** A set of [k] positions of a list of length [n]. *)
Definition positions (n k : nat) (S : list nat) : Prop :=
  NoDup S /\ length S = k /\ forall i, In i S -> (i < n)%nat.

(** The positions that a sampling down to [cap] keeps of a list of [n]
    elements: one draw of [np.random.choice] when the list is longer than
    [cap], all of them, in order, otherwise. *)
Definition kept_positions (n cap : nat) : dist (list nat) :=
  if (cap <? n)%nat then np_random_choice n cap else [seq 0 n].

(** [draws] are equally likely ways to keep [cap] of [n] positions: each
    is a list of different positions, [cap] of them, or all [n] when there
    are no more; when [cap < n] there are [n! / (n - cap)!] draws and each
    set of [cap] positions is drawn by [cap!] of them; otherwise the one
    draw keeps every position, in order. *)
Definition uniform_draws (n cap : nat) (draws : list (list nat)) : Prop :=
  draws <> []
  /\ (forall idx, In idx draws ->
        NoDup idx /\ length idx = Nat.min cap n
        /\ forall i, In i idx -> (i < n)%nat)
  /\ ((cap < n)%nat ->
      (length draws * fact (n - cap) = fact n)%nat
      /\ forall S, positions n cap S ->
           count (fun a => same_set a S) draws = fact cap)
  /\ ((n <= cap)%nat -> draws = [seq 0 n]).

(** The population of the specification's example: ten decision
    vectors. *)
Definition ten_vectors : matrix :=
  mkMatrix 1 (map (fun i => [inject_Z (Z.of_nat i)]) (seq 0 10)).

(** An archive of two vectors, and a population of three. *)
Definition two_saved : list (list Q) := [[1]; [2]].
Definition three_new : matrix := mkMatrix 1 [[3]; [4]; [5]].

(** A problem with one variable and one objective, the variable itself. *)
Definition identity_problem : Problem :=
  mkProblem 1 1 [0] [9] (fun x => Ok x) (mkMatrix 1 [[0]]).

(** A problem with two variables and one objective, the first
    variable. *)
Definition first_variable : Problem :=
  mkProblem 2 1 [0; 0] [5; 5] (fun x => Ok [hd 0 x]) (mkMatrix 1 []).

(* ================================================================== *)
(** ** Dense linear algebra *)

(** The array of shape [(r, c)] with entry [f i j] at [(i, j)]. *)
Definition tabulate (r c : nat) (f : nat -> nat -> Q) : matrix :=
  mkMatrix c (map (fun i => map (f i) (seq 0 c)) (seq 0 r)).

Definition get (M : matrix) (i j : nat) : Q :=
  nth j (nth i (rows M) []) 0.

(** [np.atleast_2d] *)
Definition atleast_2d (a : ndarray) : matrix :=
  match a with
  | Arr1 v => mkMatrix (length v) [v]
  | Arr2 M => M
  end.

(** [np.vstack]: the arrays, seen as 2-d, must agree on their number of
    columns, also those without rows. *)
Fixpoint vstack_from (M : matrix) (l : list matrix) : result matrix :=
  match l with
  | [] => Ok M
  | N :: l' =>
      if (ncols N =? ncols M)%nat
      then vstack_from (mkMatrix (ncols M) (rows M ++ rows N)) l'
      else Raise (ValueError Concatenate)
  end.

Definition np_vstack (l : list ndarray) : result matrix :=
  match map atleast_2d l with
  | [] => Raise (ValueError Concatenate)
  | M :: l' => vstack_from M l'
  end.

(** [A @ B]; the entries are kept in lowest terms. *)
Definition matmul (A B : matrix) : result matrix :=
  if (ncols A =? nrows B)%nat
  then Ok (tabulate (nrows A) (ncols B)
             (fun i j =>
                fold_left (fun acc k => Qred (acc + get A i k * get B k j))
                          (seq 0 (ncols A)) 0))
  else Raise (ValueError Matmul).

(** [A + B] for two arrays of one shape. *)
Definition madd (A B : matrix) : result matrix :=
  if ((nrows A =? nrows B) && (ncols A =? ncols B))%nat
  then Ok (tabulate (nrows A) (ncols A)
             (fun i j => Qred (get A i j + get B i j)))
  else Raise (ValueError Broadcast).

(** [c * M] *)
Definition scale (c : Q) (M : matrix) : matrix :=
  tabulate (nrows M) (ncols M) (fun i j => Qred (c * get M i j)).

(** [np.eye(n)] *)
Definition eye (n : nat) : matrix :=
  tabulate n n (fun i j => if (i =? j)%nat then 1 else 0).

(** [M.T] *)
Definition transpose (M : matrix) : matrix :=
  tabulate (ncols M) (nrows M) (fun i j => get M j i).

(** [M[:, idx]] for an index array [idx]. *)
Definition take_columns (M : matrix) (idx : list nat) : result matrix :=
  if forallb (fun j => j <? ncols M)%nat idx
  then Ok (mkMatrix (length idx)
             (map (fun r => map (fun j => nth j r 0) idx) (rows M)))
  else Raise IndexError.

(** The squared distance of two vectors. *)
Definition sqdist (x y : list Q) : Q :=
  Qsum (zip_with (fun a b => (a - b) * (a - b)) x y).

(* ================================================================== *)
(** ** What the program takes from its libraries *)

(** How pymoo is asked for the first population. *)
Inductive Sampling :=
| LHS
| InitialPopulation (X : matrix).

(** The result of [minimize]: [res.X] and [res.F]. *)
Record Result := mkResult {
  res_X : matrix;
  res_F : matrix
}.

(** The values that come from outside the program: the random generator,
    the floating-point routines whose results are not rational functions
    of their arguments, the benchmark problem and the optimiser.  Shapes
    are fixed by the wrappers below, as numpy fixes them; only the values
    are left open. *)
Record Externals := mkExternals {
  (** the state of numpy's global random generator *)
  rng : Type;
  (** a raw draw *)
  rand_nat : rng -> nat * rng;
  (** a table of draws in [0, 1) *)
  rand_units : rng -> (nat -> nat -> Q) * rng;
  (** [np.exp] *)
  np_exp : Q -> Q;
  (** the entries of [np.linalg.inv(M)], or none when numpy raises
      [LinAlgError] (singular matrix) *)
  inv_entries : matrix -> option (nat -> nat -> Q);
  (** the eigenvalues and the eigenvectors of [np.linalg.eigh(M)], or none
      when the iteration does not converge *)
  eigh_entries : matrix -> option ((nat -> Q) * (nat -> nat -> Q));
  (** [DF14(time=t)] *)
  DF14 : Q -> Problem;
  (** [minimize(problem, algorithm, termination, seed=None)] with an
      NSGA2 of the given sampling and the given number of generations *)
  minimize : Problem -> Sampling -> nat -> rng -> result (Result * rng);
  (** [IGD(true_pf).do(F)] of pymoo *)
  IGD : matrix -> matrix -> result R
}.

(** The configuration of a [TCA] object. *)
Inductive kernel :=
| linear
| rbf.

Record TCA := mkTCA {
  dim : nat;
  kernel_type : kernel;
  lamb : Q;
  gamma : Q
}.

(** The [TCA] object of [transfer_solutions]. *)
Definition transfer_tca : TCA := mkTCA 10 rbf 1 (4 # 10).

Section WithExternals.
Variable E : Externals.
Context {np : Argsort}.

(** [np.linalg.inv] *)
Definition np_linalg_inv (M : matrix) : result matrix :=
  if (nrows M =? ncols M)%nat
  then match inv_entries E M with
       | Some entries => Ok (tabulate (nrows M) (nrows M) entries)
       | None => Raise LinAlgError
       end
  else Raise LinAlgError.

(** [np.linalg.eigh] *)
Definition np_linalg_eigh (M : matrix) : result (list Q * matrix) :=
  if (nrows M =? ncols M)%nat
  then match eigh_entries E M with
       | Some (eigvals, eigvecs) =>
           Ok (map eigvals (seq 0 (nrows M)),
               tabulate (nrows M) (nrows M) eigvecs)
       | None => Raise LinAlgError
       end
  else Raise LinAlgError.

(** [sklearn.metrics.pairwise.rbf_kernel(X, Y, gamma)]: both arrays are
    validated ([check_array] refuses an array without samples or without
    features), then their widths are compared. *)
Definition rbf_kernel (X Y : matrix) (gamma : Q) : result matrix :=
  if ((nrows X =? 0) || (ncols X =? 0) || (nrows Y =? 0) || (ncols Y =? 0))%nat
  then Raise (ValueError EmptyArray)
  else if (ncols X =? ncols Y)%nat
  then Ok (tabulate (nrows X) (nrows Y)
             (fun i j =>
                np_exp E (- gamma * sqdist (nth i (rows X) [])
                                           (nth j (rows Y) []))))
  else Raise (ValueError Matmul).

(* ---------------------------------------------------------------- *)
(** ** TCA *)

Definition _kernel (self : TCA) (X1 : matrix) (X2 : option matrix)
  : result matrix :=
  match kernel_type self with
  | linear =>
      match X2 with
      | Some X2 => matmul X1 (transpose X2)
      | None => Raise AttributeError
      end
  | rbf =>
      let X2 := match X2 with Some X2 => X2 | None => X1 end in
      rbf_kernel X1 X2 (gamma self)
  end.

(** The block matrix [L]; [1.0 / (ns**2)] and [1.0 / (nt**2)] divide by a
    Python integer. *)
Definition L_matrix (ns nt : nat) : result matrix :=
  if (ns =? 0)%nat then Raise ZeroDivisionError
  else if (nt =? 0)%nat then Raise ZeroDivisionError
  else
    let qs := inject_Z (Z.of_nat ns) in
    let qt := inject_Z (Z.of_nat nt) in
    Ok (tabulate (ns + nt) (ns + nt)
          (fun i j =>
             if (i <? ns)%nat
             then if (j <? ns)%nat then 1 / (qs * qs) else - (1) / (qs * qt)
             else if (j <? ns)%nat then - (1) / (qs * qt) else 1 / (qt * qt))).

(** The centering matrix [H] of the source is computed and never used; its
    division [1.0 / (ns + nt)] cannot fail once [L] is built. *)
Definition fit_transform (self : TCA) (Xs Xt : ndarray) : result matrix :=
  X_all <- np_vstack [Xs; Xt] ;;
  let ns := len Xs in
  let nt := len Xt in
  K <- _kernel self X_all None ;;
  L <- L_matrix ns nt ;;
  K_reg <- madd K (scale (lamb self) (eye (ns + nt))) ;;
  K_inv <- np_linalg_inv K_reg ;;
  Kc <- matmul K_inv K ;;
  KcL <- matmul Kc L ;;
  KcLKc <- matmul KcL Kc ;;
  '(eigvals, eigvecs) <- np_linalg_eigh KcLKc ;;
  let idx := firstn (dim self) (argsort (map Qopp eigvals)) in
  W <- take_columns eigvecs idx ;;
  Z <- matmul K W ;;
  Ok (mkMatrix (ncols Z) (firstn ns (rows Z))).

(** The matrix that [fit_transform] hands to [np.linalg.inv],
    [K + self.lamb * np.eye(ns + nt)]: what the function has computed when
    it reaches the inversion. *)
Definition inv_argument (self : TCA) (Xs Xt : ndarray) : result matrix :=
  X_all <- np_vstack [Xs; Xt] ;;
  let ns := len Xs in
  let nt := len Xt in
  K <- _kernel self X_all None ;;
  L <- L_matrix ns nt ;;
  madd K (scale (lamb self) (eye (ns + nt))).

(** The matrix that it hands to [np.linalg.eigh], [Kc @ L @ Kc]. *)
Definition eigh_argument (self : TCA) (Xs Xt : ndarray) : result matrix :=
  X_all <- np_vstack [Xs; Xt] ;;
  let ns := len Xs in
  let nt := len Xt in
  K <- _kernel self X_all None ;;
  L <- L_matrix ns nt ;;
  K_reg <- madd K (scale (lamb self) (eye (ns + nt))) ;;
  K_inv <- np_linalg_inv K_reg ;;
  Kc <- matmul K_inv K ;;
  KcL <- matmul Kc L ;;
  matmul KcL Kc.

(** The inversion, and the eigen-decomposition, of a call of
    [fit_transform] succeed: numpy does not raise on the matrix that this
    call hands to it. *)
Definition inversion_succeeds (self : TCA) (Xs Xt : ndarray) : Prop :=
  forall M, inv_argument self Xs Xt = Ok M -> inv_entries E M <> None.

Definition decomposition_succeeds (self : TCA) (Xs Xt : ndarray) : Prop :=
  forall M, eigh_argument self Xs Xt = Ok M -> eigh_entries E M <> None.

(** [transfer_solutions] *)
Definition transfer_solutions (source_data target_data : ndarray)
  : result matrix :=
  let tca := mkTCA 10 rbf 1 (4 # 10) in
  fit_transform tca source_data target_data.

(* ---------------------------------------------------------------- *)
(** ** The driver *)

(** A computation that draws random numbers and may raise. *)
Definition Run (A : Type) : Type := rng E -> result (A * rng E).

Definition ret {A} (a : A) : Run A := fun s => Ok (a, s).

Definition bind {A B} (c : Run A) (k : A -> Run B) : Run B :=
  fun s =>
    match c s with
    | Ok (a, s') => k a s'
    | Raise e => Raise e
    end.

Definition lift {A} (c : result A) : Run A :=
  fun s =>
    match c with
    | Ok a => Ok (a, s)
    | Raise e => Raise e
    end.

(** One outcome of a finite distribution. *)
Definition sample {A} (d : dist A) : Run A :=
  fun s =>
    let (k, s') := rand_nat E s in
    match nth_error d (k mod length d) with
    | Some a => Ok (a, s')
    | None => Raise (ValueError Choice)
    end.

(** A bound array of [k] values fits [c] columns when [k] is [c] or 1. *)
Definition broadcastable (k c : nat) : bool :=
  ((k =? c) || (k =? 1))%nat.

Definition broadcast_get (v : list Q) (j : nat) : Q :=
  if (length v =? 1)%nat then hd 0 v else nth j v 0.

(** [np.random.uniform(low, high, (r, c))] for two arrays of bounds. *)
Definition np_random_uniform (low high : list Q) (r : Z) (c : nat)
  : Run matrix :=
  fun s =>
    if (r <? 0)%Z then Raise (ValueError NegativeDim)
    else if broadcastable (length low) c && broadcastable (length high) c
    then
      let (u, s') := rand_units E s in
      Ok (tabulate (Z.to_nat r) c
            (fun i j =>
               Qred (broadcast_get low j
                     + (broadcast_get high j - broadcast_get low j) * u i j)),
          s')
    else Raise (ValueError Broadcast).

End WithExternals.

Declare Scope run_scope.
Delimit Scope run_scope with run.
Notation "x <- c ;; k" := (bind c (fun x => k))
  (at level 61, c at next level, right associativity) : run_scope.

(** [a] dominates [b]: no worse in every objective, better in one. *)
Definition dominates (a b : list Q) : bool :=
  forallb (fun '(x, y) => Qle_bool x y) (combine a b)
  && existsb (fun '(x, y) => Qlt_bool x y) (combine a b).

(** [NonDominatedSorting().do(F, only_non_dominated_front=True)]: the
    indices of the rows that no row dominates. *)
Definition non_dominated_front (F : matrix) : list nat :=
  filter (fun i =>
            negb (existsb (fun j => dominates (nth j (rows F) [])
                                              (nth i (rows F) []))
                          (seq 0 (nrows F))))
         (seq 0 (nrows F)).

(** The configuration of the driver. *)
Definition frequency_of_change : nat := 10.
Definition severity : nat := 10.
Definition num_changes : nat := 9.
Definition population_size : nat := 100.
Definition max_save : nat := 1000.
Definition save_each_prob : nat := 50.

(** [range(start, stop, step)] *)
Definition range (start stop step : nat) : list nat :=
  map (fun k => start + k * step)%nat
      (seq 0 ((stop - start + step - 1) / step)).

Definition Qnat (n : nat) : Q := inject_Z (Z.of_nat n).

Definition time_steps : list Q :=
  map (fun i =>
         inject_Z (Qfloor (Qnat i / Qnat frequency_of_change)) / Qnat severity)
      (range 0 201 10).

(** [get_termination("n_gen", frequency_of_change)] *)
Definition termination : nat := frequency_of_change.

(* ================================================================== *)
(** ** compute_sp *)

(** A distance, or [np.inf]. *)
Inductive xreal :=
| XFin (x : R)
| XInf.

Definition xmin (a b : xreal) : xreal :=
  match a, b with
  | XInf, _ => b
  | _, XInf => a
  | XFin x, XFin y => XFin (Rmin x y)
  end.

Definition is_inf (a : xreal) : bool :=
  match a with
  | XInf => true
  | XFin _ => false
  end.

Definition xvalue (a : xreal) : R :=
  match a with
  | XFin x => x
  | XInf => 0%R
  end.

(** [scipy.spatial.distance.cdist(F, G)]: the Euclidean distances of the
    rows. *)
Definition cdist (F G : matrix) : list (list xreal) :=
  map (fun r => map (fun r' => XFin (sqrt (Q2R (sqdist r r')))) (rows G))
      (rows F).

(** [np.fill_diagonal(distances, np.inf)] *)
Definition fill_diagonal (distances : list (list xreal))
  : list (list xreal) :=
  map (fun '(i, row) => replace_nth row i XInf)
      (combine (seq 0 (length distances)) distances).

Definition Rsum (l : list R) : R := fold_right Rplus 0%R l.

(** [D = np.min(distances, axis=1)] after the diagonal is filled: the
    distance of each point to its nearest other point. *)
Definition nearest_distances (F : matrix) : list xreal :=
  map (fold_right xmin XInf) (fill_diagonal (cdist F F)).

Definition compute_sp (F : matrix) : R :=
  if (nrows F <? 2)%nat then 0%R
  else
    let D := nearest_distances F in
    if existsb is_inf D then 0%R
    else
      let D := map xvalue D in
      let mean_D := (Rsum D / INR (length D))%R in
      sqrt (Rsum (map (fun d => ((d - mean_D) * (d - mean_D))%R) D)
            / INR (length D - 1)).

(** [n] points at equal steps along a line: [origin + k * direction] for
    [k] in [range(n)]. *)
Definition line_points (origin direction : list Q) (n : nat) : matrix :=
  mkMatrix (length origin)
    (map (fun k => zip_with (fun a v => a + Qnat k * v) origin direction)
         (seq 0 n)).

(* ================================================================== *)
(** ** The driver loop *)

(** [get_true_pf(problem, t, n_points)]: the sampled front of its body is
    commented out, what is left returns [problem.pareto_front()]. *)
Definition get_true_pf (problem : Problem) (t : Q) (n_points : nat)
  : matrix :=
  pareto_front problem.

Section Driver.
Variable E : Externals.
Context {np : Argsort}.
Local Open Scope run_scope.

(** The seed of a non-initial step before the fill: up to 40 transferred
    vectors, 20 random points and up to 40 elites of the archive. *)
Definition final_initial_population (saved : list (list Q))
    (problem : Problem) : Run E matrix :=
  let xl := xl problem in
  let xu := xu problem in
  random_target_population <- np_random_uniform E xl xu 50 10 ;;
  subset <- lift E (select_subset saved problem 100) ;;
  transferred_population <-
    lift E (transfer_solutions E subset (Arr2 random_target_population)) ;;
  F_saved <- lift E (evaluate_saved problem saved) ;;
  let nds := non_dominated_front F_saved in
  saved_array <- lift E (np_array saved) ;;
  nd_front <- lift E (fancy_index saved_array nds) ;;
  F_nd_front <- lift E (take_rows F_saved nds) ;;
  cd <- lift E (crowding_distance F_nd_front) ;;
  let selected_indices := firstn 40 (argsort_ext (map ext_opp cd)) in
  best_40_population <- lift E (fancy_index nd_front selected_indices) ;;
  selected_indices <-
    sample E (np_random_choice (nrows transferred_population)
                (Nat.min 40 (nrows transferred_population))) ;;
  selected_transferred <-
    lift E (take_rows transferred_population selected_indices) ;;
  random_target_population <- np_random_uniform E xl xu 20 10 ;;
  lift E (np_vstack [Arr2 selected_transferred;
                     Arr2 random_target_population;
                     best_40_population]).

(** The seed handed to the optimiser: [full_sampling]. *)
Definition seed_population (saved : list (list Q)) (problem : Problem)
  : Run E matrix :=
  final <- final_initial_population saved problem ;;
  let n_needed :=
    (Z.of_nat population_size - Z.of_nat (nrows final))%Z in
  random_fill <-
    np_random_uniform E (xl problem) (xu problem) n_needed (n_var problem) ;;
  lift E (np_vstack [Arr2 final; Arr2 random_fill]).

(** The inversion and the eigen-decomposition of the transfer succeed, in
    the construction of the seed from [saved] under [problem] with the
    random generator in state [s]: numpy raises on neither of the two
    matrices that this call of [transfer_solutions] hands to it. *)
Definition transfer_succeeds (saved : list (list Q)) (problem : Problem)
    (s : rng E) : Prop :=
  forall target s1 subset,
    np_random_uniform E (xl problem) (xu problem) 50 10 s = Ok (target, s1) ->
    select_subset saved problem 100 = Ok subset ->
    inversion_succeeds E transfer_tca subset (Arr2 target)
    /\ decomposition_succeeds E transfer_tca subset (Arr2 target).

(** The metrics of a turn, from [true_pf = get_true_pf(...)] to
    [ms_vals.append(ms)].  The values go to report lists that the loop
    does not read; their computation comes before the archive is updated,
    and it can raise. *)
Definition metrics (problem : Problem) (t : Q) (res : Result)
  : Run E (R * R * fval) :=
  let true_pf := get_true_pf problem t 1000 in
  migd <- lift E (IGD E true_pf (res_F res)) ;;
  let sp := compute_sp (res_F res) in
  ms <- lift E (compute_ms (res_F res) true_pf) ;;
  ret E (migd, sp, ms).

(** One turn of [for idx, t_unit in enumerate(time_steps)]: the new
    archive and the front [res.F] that is appended to
    [fronts_this_run]. *)
Definition environment_step (idx : nat) (t : Q) (saved : list (list Q))
  : Run E (list (list Q) * matrix) :=
  if (idx =? 0)%nat then
    let problem := DF14 E t in
    res <- minimize E problem LHS termination ;;
    report <- metrics problem t res ;;
    saved <- sample E (save_elite_solutions problem (res_X res) (res_F res)
                         max_save saved save_each_prob) ;;
    ret E (saved, res_F res)
  else
    let problem := DF14 E t in
    full_sampling <- seed_population saved problem ;;
    res <- minimize E problem (InitialPopulation full_sampling) termination ;;
    report <- metrics problem t res ;;
    saved <- sample E (save_elite_solutions problem (res_X res) (res_F res)
                         max_save saved save_each_prob) ;;
    ret E (saved, res_F res).

(** The loop over the time steps, from the archive and the list of fronts
    reached so far. *)
Fixpoint environment_loop (steps : list (nat * Q))
    (saved : list (list Q)) (fronts_this_run : list matrix)
  : Run E (list (list Q) * list matrix) :=
  match steps with
  | [] => ret E (saved, fronts_this_run)
  | (idx, t) :: steps' =>
      out <- environment_step idx t saved ;;
      environment_loop steps' (fst out) (fronts_this_run ++ [snd out])
  end.

(** One run: [saved = []], then the loop. *)
Definition run : Run E (list (list Q) * list matrix) :=
  environment_loop (combine (seq 0 (length time_steps)) time_steps) [] [].

End Driver.

(* ================================================================== *)
(** ** ClipRepair *)

(** The common width of broadcast operands: widths are equal or 1. *)
Definition broadcast_widths (ws : list nat) : result nat :=
  foldM (fun acc w =>
           if (w =? 1)%nat then Ok acc
           else if (acc =? 1)%nat then Ok w
           else if (acc =? w)%nat then Ok acc
           else Raise (ValueError Broadcast))
        1%nat ws.

(** [np.clip(x, lo, hi)], that is [minimum(hi, maximum(x, lo))]. *)
Definition clip_value (x lo hi : Q) : Q := Qmin hi (Qmax x lo).

(** [ClipRepair._do]: [np.clip(X, problem.xl, problem.xu)]. *)
Definition ClipRepair_do (problem : Problem) (X : matrix) : result matrix :=
  W <- broadcast_widths [ncols X; length (xl problem); length (xu problem)] ;;
  Ok (mkMatrix W
        (map (fun r =>
                map (fun j => clip_value (broadcast_get r j)
                                         (broadcast_get (xl problem) j)
                                         (broadcast_get (xu problem) j))
                    (seq 0 W))
             (rows X))).

(* ================================================================== *)
(** ** Problem1 *)

(** The hand-written benchmark problem.  Its parameters come from [sin]
    and [cos] and its objectives from a real power: it is modelled over
    the real numbers. *)
Module Problem1.
Local Open Scope R_scope.

(** [self.a], [self.b], [self.c] and [self.H] for the time [t]. *)
Definition a (t : R) : R := sin (1 / 2 * PI * t).
Definition b (t : R) : R := 1 + Rabs (cos (1 / 2 * PI * t)).
Definition c (t : R) : R := Rmax (Rabs (a t)) (a t + b t).
Definition H (t : R) : R := 3 / 2 + a t.

Definition xl (n_var : nat) : list R := repeat (-2) n_var.
Definition xu (n_var : nat) : list R := repeat 2 n_var.

(** [x ** y] for a base that is not negative and a positive exponent. *)
Definition power (x y : R) : R :=
  if Req_dec_T x 0 then 0 else Rpower x y.

(** [g] for one row [x] of [X]: the columns from the second on are taken
    with the numbers of [np.arange(2, n + 1)]. *)
Definition g (t : R) (x : list R) : R :=
  let x1 := hd 0 x in
  1 + Rsum (map (fun '(k, xk) =>
                   (xk - a t * (x1 * x1) / (INR k * (c t * c t)))
                   * (xk - a t * (x1 * x1) / (INR k * (c t * c t))))
                (combine (seq 2 (length x - 1)) (tl x))).

Definition f1 (t : R) (x : list R) : R :=
  g t x * power (Rabs (hd 0 x - a t)) (H t).

Definition f2 (t : R) (x : list R) : R :=
  g t x * power (Rabs (hd 0 x - a t - b t)) (H t).

(** [_evaluate] on an array [X] of [n] columns: [out["F"]], one row
    [[f1, f2]] per row of [X]; [X[:, 0]] needs a column. *)
Definition _evaluate (t : R) (n : nat) (X : list (list R))
  : result (list (list R)) :=
  if (n =? 0)%nat then Raise IndexError
  else Ok (map (fun x => [f1 t x; f2 t x]) X).

End Problem1.

(* ================================================================== *)
(** ** Sample externals *)

(** A problem of ten variables in [0, 1] and two objectives. *)
Definition toy_problem (t : Q) : Problem :=
  mkProblem 10 2 (repeat 0 10) (repeat 1 10)
    (fun x => Ok [hd 0 x + t; 1 - hd 0 x])
    (mkMatrix 2 [[0; 1]; [1; 0]]).

(** An optimiser that returns two fixed points. *)
Definition toy_minimize (problem : Problem) (sampling : Sampling)
    (n_gen : nat) (s : nat) : result (Result * nat) :=
  let X := mkMatrix 10 [repeat (1 # 4) 10; repeat (3 # 4) 10] in
  let F := mkMatrix 2 [objective_values problem (repeat (1 # 4) 10);
                       objective_values problem (repeat (3 # 4) 10)] in
  Ok (mkResult X F, S s).

(** Externals whose numerical routines always answer: the inverse and the
    eigenvectors are the identity, every draw is one half. *)
Definition toy_externals : Externals :=
  mkExternals
    (fun s : nat => (s, S s))
    (fun s : nat => (fun _ _ => 1 # 2, S s))
    (fun x => 1)
    (fun M => Some (fun i j => if (i =? j)%nat then 1 else 0))
    (fun M => Some (fun i => 0, fun i j => if (i =? j)%nat then 1 else 0))
    toy_problem
    toy_minimize
    (fun true_pf F => Ok 0%R).





(** The externals of the start with an eigen-decomposition that does not
    converge. *)
Definition no_eigen_externals : Externals :=
  mkExternals
    (fun s : nat => (s, S s))
    (fun s : nat => (fun _ _ => 1 # 2, S s))
    (fun x => 1)
    (fun M => Some (fun i j => if (i =? j)%nat then 1 else 0))
    (fun M => None)
    toy_problem
    toy_minimize
    (fun true_pf F => Ok 0%R).

(** One source vector and one target vector of three components. *)
Definition one_source : matrix := mkMatrix 3 [[0; 0; 0]].
Definition one_target : matrix := mkMatrix 3 [[1; 1; 1]].

(** Two source and nine target vectors of three components. *)
Definition two_sources : matrix := mkMatrix 3 [[0; 0; 0]; [1; 0; 0]].
Definition nine_targets : matrix :=
  mkMatrix 3 (map (fun i => [inject_Z (Z.of_nat i); 1; 1]) (seq 0 9)).

(** An archive of two vectors of ten components. *)
Definition two_vectors : list (list Q) :=
  [repeat (1 # 4) 10; repeat (3 # 4) 10].

(** A problem of three variables in [0, 1], and one of a single
    variable. *)
Definition three_variables : Problem :=
  mkProblem 3 2 (repeat 0 3) (repeat 1 3)
    (fun x => Ok [hd 0 x; 1 - hd 0 x])
    (mkMatrix 2 [[0; 1]; [1; 0]]).

Definition one_variable : Problem :=
  mkProblem 1 2 [0] [1]
    (fun x => Ok [hd 0 x; 1 - hd 0 x])
    (mkMatrix 2 [[0; 1]; [1; 0]]).

(** Libraries with which no step raises: [np.argsort] sorts; the problems
    have ten variables, evaluate every vector and have a true front of
    [n_obj] objectives with a point; the optimiser returns at least one
    vector of ten variables and a front of [n_obj] objectives with a
    point; the metric [IGD] returns; the inversion and the
    eigen-decomposition succeed on the matrices that the transfer hands to
    them. *)
Record well_behaved (E : Externals) (np : Argsort) : Prop := mkWellBehaved {
  wb_argsort : ArgsortSorts np;
  wb_bounds : forall t,
    n_var (DF14 E t) = 10%nat
    /\ length (xl (DF14 E t)) = 10%nat
    /\ length (xu (DF14 E t)) = 10%nat;
  wb_evaluate : forall t x,
    exists f, _evaluate (DF14 E t) x = Ok f
              /\ length f = n_obj (DF14 E t);
  wb_front : forall t,
    wf (pareto_front (DF14 E t))
    /\ (0 < nrows (pareto_front (DF14 E t)))%nat
    /\ ncols (pareto_front (DF14 E t)) = n_obj (DF14 E t);
  wb_minimize : forall t sampling s,
    exists res s',
      minimize E (DF14 E t) sampling termination s = Ok (res, s')
      /\ (0 < nrows (res_X res))%nat
      /\ rectangular 10 (rows (res_X res))
      /\ wf (res_F res)
      /\ (0 < nrows (res_F res))%nat
      /\ ncols (res_F res) = n_obj (DF14 E t);
  wb_IGD : forall true_pf F, exists migd, IGD E true_pf F = Ok migd;
  wb_inv : forall Xs Xt, inversion_succeeds E transfer_tca Xs Xt;
  wb_eigh : forall Xs Xt, decomposition_succeeds E transfer_tca Xs Xt
}.

(* ================================================================== *)
(** * Properties *)

Local Close Scope Q_scope.

(** ** Lists and the exception monad *)

Lemma length_replace_nth {A} (l : list A) i a :
  length (replace_nth l i a) = length l.
Proof.
  revert i; induction l as [|x l IH]; intros [|i]; simpl; auto.
Qed.

Lemma nth_replace_nth {A} (l : list A) i j a d :
  nth j (replace_nth l i a) d =
  if (j =? i) && (i <? length l) then a else nth j l d.
Proof.
  revert i j; induction l as [|x l IH]; intros [|i] [|j]; simpl; auto;
    try (destruct (j =? i); reflexivity).
Qed.

Lemma getitem_nth {A} (l : list A) i d :
  i < length l -> getitem l i = Ok (nth i l d).
Proof.
  intros H. unfold getitem.
  rewrite (nth_error_nth' l d H). reflexivity.
Qed.

Lemma setitem_Ok {A} (l : list A) i a :
  i < length l -> setitem l i a = Ok (replace_nth l i a).
Proof.
  intros H. unfold setitem.
  destruct (Nat.ltb_spec i (length l)); [reflexivity | lia].
Qed.

(** ** np.argsort returns a sorted permutation of the indices *)

Section ArgsortFacts.
Variable A : Type.
Variable leb : A -> A -> bool.
Variable key : nat -> A.

Lemma insert_index_perm i l :
  Permutation (insert_index leb key i l) (i :: l).
Proof.
  induction l as [|j l IH]; simpl; auto.
  destruct (leb (key i) (key j)); auto.
  rewrite IH. apply perm_swap.
Qed.

Lemma argsort_key_perm n :
  Permutation (argsort_key leb key n) (seq 0 n).
Proof.
  unfold argsort_key. generalize 0%nat.
  induction n as [|n IH]; intros k; simpl; auto.
  rewrite insert_index_perm. constructor. apply IH.
Qed.

Lemma argsort_key_length n : length (argsort_key leb key n) = n.
Proof.
  rewrite (Permutation_length (argsort_key_perm n)). apply length_seq.
Qed.

Lemma argsort_key_NoDup n : NoDup (argsort_key leb key n).
Proof.
  apply (Permutation_NoDup (Permutation_sym (argsort_key_perm n))).
  apply seq_NoDup.
Qed.

Lemma argsort_key_In n i : In i (argsort_key leb key n) <-> i < n.
Proof.
  split; intros H.
  - apply (Permutation_in _ (argsort_key_perm n)) in H.
    apply in_seq in H. lia.
  - apply (Permutation_in _ (Permutation_sym (argsort_key_perm n))).
    apply in_seq. lia.
Qed.

Hypothesis leb_total : forall a b, leb a b = true \/ leb b a = true.
Hypothesis leb_trans :
  forall a b c, leb a b = true -> leb b c = true -> leb a c = true.

Lemma insert_index_sorted i l :
  StronglySorted (key_le leb key) l -> StronglySorted (key_le leb key) (insert_index leb key i l).
Proof.
  induction 1 as [|j l Hs IH Hall]; simpl.
  - constructor; constructor.
  - destruct (leb (key i) (key j)) eqn:E.
    + constructor; [constructor; assumption|].
      constructor; [exact E|].
      eapply Forall_impl; [|exact Hall].
      intros k Hk. unfold key_le in *. eapply leb_trans; eauto.
    + constructor; [exact IH|].
      assert (Hji : key_le leb key j i).
      { destruct (leb_total (key i) (key j)) as [H|H]; [congruence|exact H]. }
      apply Forall_forall. intros k Hk.
      apply (Permutation_in _ (insert_index_perm i l)) in Hk.
      destruct Hk as [<-|Hk]; [exact Hji|].
      rewrite Forall_forall in Hall. auto.
Qed.

Lemma argsort_key_sorted n : StronglySorted (key_le leb key) (argsort_key leb key n).
Proof.
  unfold argsort_key. generalize 0%nat.
  induction n as [|n IH]; intros k; simpl.
  - constructor.
  - apply insert_index_sorted, IH.
Qed.
End ArgsortFacts.

Lemma Qle_bool_total a b : Qle_bool a b = true \/ Qle_bool b a = true.
Proof.
  rewrite !Qle_bool_iff. destruct (Qlt_le_dec a b) as [H|H]; auto.
  left. apply Qlt_le_weak, H.
Qed.

Lemma Qle_bool_trans a b c :
  Qle_bool a b = true -> Qle_bool b c = true -> Qle_bool a c = true.
Proof. rewrite !Qle_bool_iff. apply Qle_trans. Qed.

Lemma ext_leb_total a b : ext_leb a b = true \/ ext_leb b a = true.
Proof.
  destruct a as [|x|], b as [|y|]; simpl; auto. apply Qle_bool_total.
Qed.

Lemma ext_leb_trans a b c :
  ext_leb a b = true -> ext_leb b c = true -> ext_leb a c = true.
Proof.
  destruct a as [|x|], b as [|y|], c as [|z|]; simpl; auto;
    try discriminate.
  apply Qle_bool_trans.
Qed.

(** The stable sort sorts. *)
Lemma stable_sorts : ArgsortSorts stable.
Proof.
  constructor; intros v; split.
  - apply argsort_key_perm.
  - apply (argsort_key_sorted Qle_bool (fun i => nth i v 0%Q)
             Qle_bool_total Qle_bool_trans (length v)).
  - apply argsort_key_perm.
  - apply (argsort_key_sorted ext_leb (fun i => nth i v (Fin 0))
             ext_leb_total ext_leb_trans (length v)).
Qed.

(** A sorted permutation of the indices is the only one when no two keys
    are equal. *)
Lemma sorted_permutation_unique (R : nat -> nat -> Prop) : forall s s',
  (forall i j, In i s -> In j s -> R i j -> R j i -> i = j) ->
  StronglySorted R s -> StronglySorted R s' -> Permutation s s' -> s = s'.
Proof.
  induction s as [|a s IH]; intros s' Hanti Hs Hs' Hp.
  - apply Permutation_nil in Hp. congruence.
  - destruct s' as [|a' s'];
      [apply Permutation_sym, Permutation_nil in Hp; discriminate|].
    inversion Hs as [|? ? Hs1 Ha]; subst.
    inversion Hs' as [|? ? Hs1' Ha']; subst.
    rewrite Forall_forall in Ha, Ha'.
    assert (E : a = a').
    { assert (H1 : In a (a' :: s'))
        by (apply (Permutation_in _ Hp); left; reflexivity).
      assert (H2 : In a' (a :: s))
        by (apply (Permutation_in _ (Permutation_sym Hp)); left; reflexivity).
      destruct H1 as [H1|H1]; [congruence|].
      destruct H2 as [H2|H2]; [congruence|].
      apply Hanti; [left; reflexivity | right; exact H2 | apply Ha, H2
                   | apply Ha', H1]. }
    subst a'. f_equal. apply IH; auto.
    + intros i j Hi Hj. apply Hanti; right; assumption.
    + eapply Permutation_cons_inv. exact Hp.
Qed.

(** ** What is known of np.argsort *)

Section ArgsortSortsFacts.
Context {np : Argsort} {np_sorts : ArgsortSorts np}.

Lemma argsort_perm v : Permutation (argsort v) (seq 0 (length v)).
Proof. apply argsort_sorts. Qed.

Lemma argsort_length v : length (argsort v) = length v.
Proof.
  rewrite (Permutation_length (argsort_perm v)). apply length_seq.
Qed.

Lemma argsort_NoDup v : NoDup (argsort v).
Proof.
  apply (Permutation_NoDup (Permutation_sym (argsort_perm v))).
  apply seq_NoDup.
Qed.

Lemma argsort_In v i : In i (argsort v) <-> i < length v.
Proof.
  split; intros H.
  - apply (Permutation_in _ (argsort_perm v)) in H.
    apply in_seq in H. lia.
  - apply (Permutation_in _ (Permutation_sym (argsort_perm v))).
    apply in_seq. lia.
Qed.

Lemma argsort_sorted v :
  StronglySorted (fun i j => (nth i v 0 <= nth j v 0)%Q) (argsort v).
Proof.
  destruct (argsort_sorts v) as [_ H].
  eapply StronglySorted_ind with (P := StronglySorted _); [| |exact H].
  - constructor.
  - intros a l _ IH Hall. constructor; [exact IH|].
    eapply Forall_impl; [|exact Hall].
    intros j Hj. apply Qle_bool_iff. exact Hj.
Qed.

Lemma argsort_nth_lt v i : i < length v -> nth i (argsort v) 0 < length v.
Proof.
  intros H. apply argsort_In. apply nth_In. rewrite argsort_length. exact H.
Qed.

Lemma argsort_ext_perm v :
  Permutation (argsort_ext v) (seq 0 (length v)).
Proof. apply argsort_ext_sorts. Qed.

Lemma argsort_ext_In v i : In i (argsort_ext v) <-> i < length v.
Proof.
  split; intros H.
  - apply (Permutation_in _ (argsort_ext_perm v)) in H.
    apply in_seq in H. lia.
  - apply (Permutation_in _ (Permutation_sym (argsort_ext_perm v))).
    apply in_seq. lia.
Qed.

Lemma argsort_ext_length v : length (argsort_ext v) = length v.
Proof.
  rewrite (Permutation_length (argsort_ext_perm v)). apply length_seq.
Qed.

Lemma argsort_ext_NoDup v : NoDup (argsort_ext v).
Proof.
  apply (Permutation_NoDup (Permutation_sym (argsort_ext_perm v))).
  apply seq_NoDup.
Qed.

(** Where no two keys are equal, [np.argsort] has no choice: it returns
    what the stable sort returns. *)
Lemma argsort_distinct_keys v :
  (forall i j, i < length v -> j < length v ->
     (nth i v 0 <= nth j v 0)%Q -> (nth j v 0 <= nth i v 0)%Q -> i = j) ->
  argsort v = stable_argsort v.
Proof.
  intros Hd.
  apply sorted_permutation_unique
    with (R := fun i j => Qle_bool (nth i v 0%Q) (nth j v 0%Q) = true).
  - intros i j Hi Hj H1 H2. apply argsort_In in Hi, Hj.
    apply Qle_bool_iff in H1, H2. apply Hd; assumption.
  - apply argsort_sorts.
  - apply (@argsort_sorts stable stable_sorts).
  - rewrite argsort_perm. symmetry.
    apply (@argsort_sorts stable stable_sorts).
Qed.

End ArgsortSortsFacts.

(** ** crowding_distance *)

Section CrowdingFacts.
Context {np : Argsort} {np_sorts : ArgsortSorts np}.

Lemma entry_column F i m :
  wf F -> i < nrows F -> m < ncols F ->
  entry F i m = Ok (nth i (column F m) 0%Q).
Proof.
  intros Hwf Hi Hm. unfold entry, column.
  rewrite (getitem_nth _ [] Hi). simpl.
  assert (Hlen : length (nth i (rows F) []) = ncols F).
  { unfold wf in Hwf. rewrite Forall_forall in Hwf.
    apply Hwf, nth_In, Hi. }
  rewrite (getitem_nth _ 0%Q); [|lia].
  f_equal.
  symmetry.
  rewrite (nth_indep (map (fun r => nth m r 0%Q) (rows F)) 0%Q (nth m [] 0%Q))
    by (rewrite length_map; exact Hi).
  apply (map_nth (fun r => nth m r 0%Q)).
Qed.

Lemma length_column F m : length (column F m) = nrows F.
Proof. apply length_map. Qed.

Lemma index_of_nth s i :
  NoDup s -> i < length s -> index_of (nth i s 0) s = i.
Proof.
  intros Hnd. revert i. induction Hnd as [|x s Hx Hnd IH]; intros i Hi.
  - simpl in Hi. lia.
  - destruct i as [|i]; simpl.
    + rewrite Nat.eqb_refl. reflexivity.
    + simpl in Hi.
      destruct (Nat.eqb_spec x (nth i s 0)) as [E|E].
      * exfalso. apply Hx. rewrite E. apply nth_In. lia.
      * rewrite IH by lia. reflexivity.
Qed.

Lemma index_of_In s p :
  In p s -> index_of p s < length s /\ nth (index_of p s) s 0 = p.
Proof.
  induction s as [|x s IH]; simpl; [tauto|].
  intros H. destruct (Nat.eqb_spec x p) as [E|E].
  - split; [lia | exact E].
  - destruct H as [H|H]; [contradiction|].
    destruct (IH H). split; [lia | assumption].
Qed.

Lemma existsb_eqb_In i ps : existsb (Nat.eqb i) ps = true <-> In i ps.
Proof.
  rewrite existsb_exists. split.
  - intros [x [Hx E]]. apply Nat.eqb_eq in E. subst. exact Hx.
  - intros H. exists i. split; [exact H | apply Nat.eqb_refl].
Qed.

Lemma crowding_inner_zero F m s f_min f_max ps d :
  Qeq_bool (f_max - f_min) 0 = true ->
  foldM (crowding_inner F m s f_min f_max) d ps = Ok d.
Proof.
  intros E. induction ps as [|i ps IH]; simpl; [reflexivity|].
  unfold crowding_inner at 1. rewrite E. simpl. exact IH.
Qed.

Lemma argsort_column_lt F m j :
  j < nrows F -> nth j (argsort (column F m)) 0 < nrows F.
Proof.
  intros H. rewrite <- (length_column F m).
  apply argsort_nth_lt. rewrite length_column. exact H.
Qed.

Lemma crowding_inner_loop F m f_min f_max ps d :
  wf F -> m < ncols F -> length d = nrows F ->
  Qeq_bool (f_max - f_min) 0 = false ->
  NoDup ps -> (forall i, In i ps -> 1 <= i /\ i + 1 < nrows F) ->
  exists d',
    foldM (crowding_inner F m (argsort (column F m)) f_min f_max) d ps = Ok d'
    /\ length d' = nrows F
    /\ forall p, p < nrows F ->
       nth p d' (Fin 0) =
       if existsb (Nat.eqb (index_of p (argsort (column F m)))) ps
       then ext_add_fin (nth p d (Fin 0))
              (neighbour_gap F m p / (f_max - f_min))
       else nth p d (Fin 0).
Proof.
  intros Hwf Hm Hd E Hnd Hps. revert d Hd.
  induction ps as [|i ps IH]; intros d Hd.
  - exists d. simpl. auto.
  - simpl foldM. unfold crowding_inner at 1. rewrite E.
    set (s := argsort (column F m)).
    assert (Hs : length s = nrows F)
      by (unfold s; rewrite argsort_length, length_column; reflexivity).
    destruct (Hps i (or_introl eq_refl)) as [Hi1 Hi2].
    assert (Hsi : nth i s 0 < nrows F) by (apply argsort_column_lt; lia).
    rewrite (getitem_nth s 0) by lia. cbn [rbind].
    rewrite (getitem_nth d (Fin 0)) by lia. cbn [rbind].
    rewrite (getitem_nth s 0) by lia. cbn [rbind].
    rewrite entry_column by (auto; apply argsort_column_lt; lia).
    cbn [rbind].
    rewrite (getitem_nth s 0) by lia. cbn [rbind].
    rewrite entry_column by (auto; apply argsort_column_lt; lia).
    cbn [rbind].
    rewrite setitem_Ok by lia. cbn [rbind].
    inversion Hnd as [|? ? Hni Hnd']; subst.
    match goal with
    | |- context [foldM _ ?d1 ps] =>
        destruct (IH Hnd' (fun j Hj => Hps j (or_intror Hj)) d1)
          as [d' [Hrun [Hlen Hval]]];
        [rewrite length_replace_nth; exact Hd|]
    end.
    exists d'. split; [exact Hrun|]. split; [exact Hlen|].
    intros p Hp. rewrite (Hval p Hp). unfold neighbour_gap. cbn zeta. fold s.
    rewrite nth_replace_nth.
    assert (Hin : In p s) by (apply argsort_In; rewrite length_column; exact Hp).
    destruct (index_of_In _ _ Hin) as [Hlt Hnth].
    simpl existsb.
    destruct (Nat.eqb_spec p (nth i s 0)) as [Ep|Ep].
    + assert (Ei : index_of p s = i).
      { rewrite Ep. apply index_of_nth; [apply argsort_NoDup | lia]. }
      rewrite Ei, Nat.eqb_refl. 
      destruct (existsb (Nat.eqb i) ps) eqn:Ex.
      { apply existsb_eqb_In in Ex. contradiction. }
      simpl. destruct (Nat.ltb_spec (nth i s 0) (length d)); [|lia].
      rewrite Ep. reflexivity.
    + simpl andb.
      destruct (Nat.eqb_spec (index_of p s) i) as [Ei|Ei].
      { exfalso. apply Ep. rewrite <- Ei. symmetry. exact Hnth. }
      reflexivity.
Qed.

Lemma crowding_outer_spec F m d :
  wf F -> m < ncols F -> 0 < nrows F -> length d = nrows F ->
  exists d',
    crowding_outer F d m = Ok d'
    /\ length d' = nrows F
    /\ forall p, p < nrows F ->
       nth p d' (Fin 0) = step_pt F m p (nth p d (Fin 0)).
Proof.
  intros Hwf Hm Hn Hd. unfold crowding_outer.
  set (s := argsort (column F m)).
  assert (Hs : length s = nrows F)
    by (unfold s; rewrite argsort_length, length_column; reflexivity).
  assert (Hlt : forall j, j < nrows F -> nth j s 0 < nrows F)
    by (intros; apply argsort_column_lt; assumption).
  rewrite (getitem_nth s 0) by lia. cbn [rbind].
  rewrite entry_column by (auto; apply Hlt; lia). cbn [rbind].
  unfold getitem_last. rewrite (getitem_nth s 0) by lia. cbn [rbind].
  rewrite entry_column by (auto; apply Hlt; lia). cbn [rbind].
  rewrite setitem_Ok by (rewrite Hd; apply Hlt; lia). cbn [rbind].
  rewrite setitem_Ok
    by (rewrite length_replace_nth, Hd; apply Hlt; lia).
  cbn [rbind].
  set (f_min := nth (nth 0 s 0) (column F m) 0%Q).
  set (f_max := nth (nth (length s - 1) s 0) (column F m) 0%Q).
  set (d2 := replace_nth (replace_nth d (nth 0 s 0) PInf)
                         (nth (length s - 1) s 0) PInf).
  assert (Hd2 : length d2 = nrows F)
    by (unfold d2; rewrite !length_replace_nth; exact Hd).
  assert (Hval2 : forall p, p < nrows F ->
            nth p d2 (Fin 0) =
            if (index_of p s =? 0) || (index_of p s =? length s - 1)
            then PInf else nth p d (Fin 0)).
  { intros p Hp. unfold d2. rewrite !nth_replace_nth.
    rewrite length_replace_nth.
    assert (Hin : In p s)
      by (apply argsort_In; rewrite length_column; exact Hp).
    destruct (index_of_In _ _ Hin) as [Hi Hnth].
    assert (Hnd : NoDup s) by apply argsort_NoDup.
    destruct (Nat.ltb_spec (nth (length s - 1) s 0) (length d));
      [|specialize (Hlt (length s - 1)); lia].
    destruct (Nat.ltb_spec (nth 0 s 0) (length d));
      [|specialize (Hlt 0); lia].
    rewrite !andb_true_r.
    destruct (Nat.eqb_spec p (nth (length s - 1) s 0)) as [E1|E1].
    - rewrite E1, index_of_nth by (auto; lia).
      rewrite Nat.eqb_refl, orb_true_r. reflexivity.
    - destruct (Nat.eqb_spec (index_of p s) (length s - 1)) as [E2|E2];
        [rewrite E2 in Hnth; congruence|].
      rewrite orb_false_r.
      destruct (Nat.eqb_spec p (nth 0 s 0)) as [E3|E3].
      + rewrite E3, index_of_nth by (auto; lia). reflexivity.
      + destruct (Nat.eqb_spec (index_of p s) 0) as [E4|E4];
          [rewrite E4 in Hnth; congruence|]. reflexivity. }
  destruct (Qeq_bool (f_max - f_min) 0) eqn:E.
  - rewrite crowding_inner_zero by exact E.
    exists d2. split; [reflexivity|]. split; [exact Hd2|].
    intros p Hp. rewrite (Hval2 p Hp). unfold step_pt, is_extreme, obj_range.
    fold s. fold f_min. fold f_max. rewrite E.
    destruct ((index_of p s =? 0) || (index_of p s =? length s - 1));
      reflexivity.
  - destruct (@crowding_inner_loop F m f_min f_max (seq 1 (nrows F - 2)) d2)
      as [d' [Hrun [Hlen Hval]]]; auto.
    { apply seq_NoDup. }
    { intros i Hi. apply in_seq in Hi. lia. }
    exists d'. fold s in Hrun. split; [exact Hrun|]. split; [exact Hlen|].
    intros p Hp. rewrite (Hval p Hp). rewrite (Hval2 p Hp).
    unfold step_pt, is_extreme, obj_range.
    fold s. fold f_min. fold f_max. rewrite E.
    assert (Hin : In p s)
      by (apply argsort_In; rewrite length_column; exact Hp).
    destruct (index_of_In _ _ Hin) as [Hi Hnth].
    destruct (Nat.eqb_spec (index_of p s) 0) as [E0|E0].
    + simpl orb.
      destruct (existsb (Nat.eqb (index_of p s)) (seq 1 (nrows F - 2)));
        reflexivity.
    + destruct (Nat.eqb_spec (index_of p s) (length s - 1)) as [E1|E1].
      * simpl orb.
        destruct (existsb (Nat.eqb (index_of p s)) (seq 1 (nrows F - 2)));
          reflexivity.
      * simpl orb.
        destruct (existsb (Nat.eqb (index_of p s)) (seq 1 (nrows F - 2)))
          eqn:Ex; [reflexivity|].
        exfalso.
        assert (In (index_of p s) (seq 1 (nrows F - 2)))
          by (apply in_seq; lia).
        apply existsb_eqb_In in H. congruence.
Qed.

Lemma crowding_outer_loop F ms d :
  wf F -> 0 < nrows F -> (forall m, In m ms -> m < ncols F) ->
  length d = nrows F ->
  exists d',
    foldM (crowding_outer F) d ms = Ok d'
    /\ length d' = nrows F
    /\ forall p, p < nrows F ->
       nth p d' (Fin 0) =
       fold_left (fun x m => step_pt F m p x) ms (nth p d (Fin 0)).
Proof.
  intros Hwf Hn. revert d.
  induction ms as [|m ms IH]; intros d Hms Hd.
  - exists d. simpl. auto.
  - destruct (@crowding_outer_spec F m d) as [d1 [H1 [L1 V1]]]; auto.
    { apply Hms. left. reflexivity. }
    destruct (IH d1) as [d' [H2 [L2 V2]]]; auto.
    { intros k Hk. apply Hms. right. exact Hk. }
    exists d'. simpl. rewrite H1. cbn [rbind].
    split; [exact H2|]. split; [exact L2|].
    intros p Hp. rewrite (V2 p Hp), (V1 p Hp). reflexivity.
Qed.

Lemma Qsum_from l a : (fold_left Qplus l a == a + Qsum l)%Q.
Proof.
  unfold Qsum. revert a. induction l as [|x l IH]; intros a; simpl.
  - ring.
  - rewrite IH. rewrite (IH (0 + x)%Q). ring.
Qed.

Lemma step_pt_fold_inf F p ms :
  fold_left (fun x m => step_pt F m p x) ms PInf = PInf.
Proof.
  induction ms as [|m ms IH]; simpl; [reflexivity|].
  unfold step_pt at 2.
  destruct (is_extreme F m p); [exact IH|].
  destruct (Qeq_bool (obj_range F m) 0); exact IH.
Qed.

Lemma step_pt_fold_fin F p ms q :
  ext_eq (fold_left (fun x m => step_pt F m p x) ms (Fin q))
         (if existsb (fun m => is_extreme F m p) ms then PInf
          else Fin (q + Qsum (map (fun m => contribution F m p) ms))).
Proof.
  revert q. induction ms as [|m ms IH]; intros q; simpl.
  - unfold Qsum. simpl. ring.
  - unfold step_pt at 2. destruct (is_extreme F m p); simpl.
    + rewrite step_pt_fold_inf. exact I.
    + unfold contribution at 1.
      destruct (Qeq_bool (obj_range F m) 0).
      * specialize (IH q).
        destruct (existsb (fun m0 => is_extreme F m0 p) ms); [exact IH|].
        destruct (fold_left _ ms (Fin q)); simpl in *; try contradiction.
        rewrite IH. unfold Qsum at 2. simpl.
        rewrite Qsum_from. ring.
      * simpl ext_add_fin. specialize (IH (q + neighbour_gap F m p / obj_range F m)%Q).
        destruct (existsb (fun m0 => is_extreme F m0 p) ms); [exact IH|].
        destruct (fold_left _ ms (Fin _)); simpl in *; try contradiction.
        rewrite IH. unfold Qsum at 2. simpl.
        rewrite Qsum_from. ring.
Qed.

Lemma nth_repeat_Fin0 n p : nth p (repeat (Fin 0) n) (Fin 0) = Fin 0.
Proof.
  revert p. induction n as [|n IH]; intros [|p]; simpl; auto.
Qed.

(** The loops of [crowding_distance] compute, point by point, the ranking
    of the specification. *)
Lemma crowding_distance_spec F :
  wf F -> 0 < nrows F ->
  exists distance,
    crowding_distance F = Ok distance
    /\ length distance = nrows F
    /\ forall p, p < nrows F ->
       ext_eq (nth p distance (Fin 0)) (crowding_spec F p).
Proof.
  intros Hwf Hn. unfold crowding_distance.
  destruct (@crowding_outer_loop F (seq 0 (ncols F)) (repeat (Fin 0) (nrows F)))
    as [d [Hrun [Hlen Hval]]]; auto.
  { intros m Hm. apply in_seq in Hm. lia. }
  { apply repeat_length. }
  exists d. split; [exact Hrun|]. split; [exact Hlen|].
  intros p Hp. rewrite (Hval p Hp), nth_repeat_Fin0.
  unfold crowding_spec.
  pose proof (step_pt_fold_fin F p (seq 0 (ncols F)) 0) as H.
  destruct (existsb _ (seq 0 (ncols F))); [exact H|].
  destruct (fold_left _ _ (Fin 0)); simpl in *; try contradiction.
  rewrite H. ring.
Qed.

(** The first point of a sort order has the least value of the objective,
    the last one the greatest. *)
Lemma argsort_extremes v j :
  j < length v ->
  (nth (nth 0 (argsort v) 0%nat) v 0 <= nth j v 0)%Q /\
  (nth j v 0 <= nth (nth (length v - 1) (argsort v) 0%nat) v 0)%Q.
Proof.
  intros Hj.
  pose proof (argsort_sorted v) as Hs.
  pose proof (argsort_length v) as Hl.
  assert (Hin : In j (argsort v)) by (apply argsort_In; exact Hj).
  destruct (index_of_In _ _ Hin) as [Hi Hnth].
  set (i := index_of j (argsort v)) in *.
  assert (Hpair : forall a b, a <= b -> b < length (argsort v) ->
            (nth (nth a (argsort v) 0%nat) v 0
             <= nth (nth b (argsort v) 0%nat) v 0)%Q).
  { clear - Hs. induction Hs as [|x l Hs IH Hall]; intros a b Hab Hb.
    - simpl in Hb. lia.
    - destruct a as [|a], b as [|b]; simpl in *.
      + apply Qle_refl.
      + rewrite Forall_forall in Hall. apply Hall, nth_In. lia.
      + lia.
      + apply IH; lia. }
  split.
  - rewrite <- Hnth at 1. apply Hpair; lia.
  - rewrite <- Hnth at 1. apply Hpair; lia.
Qed.

(** The two sort orders of the example front: its values differ, so they
    are the same for every [np.argsort]. *)
Lemma argsort_front3 :
  argsort (column front3 0) = [0; 1; 2]
  /\ argsort (column front3 1) = [2; 1; 0].
Proof.
  split; (rewrite argsort_distinct_keys; [reflexivity|]);
    intros i j Hi Hj H1 H2; simpl in Hi, Hj;
    destruct i as [|[|[|i]]]; try lia;
    destruct j as [|[|[|j]]]; try lia; try reflexivity;
    vm_compute in H1, H2; exfalso;
    first [apply H1; reflexivity | apply H2; reflexivity].
Qed.

(** C8.  [crowding_distance] on a front with at least one point, for
    the sort order of [np.argsort] whatever order it gives to equal
    values: in every objective the first and the last point of that
    order (which hold the least and the greatest value) get an infinite
    distance; a point that is neither first nor last in the order of any
    objective gets the finite sum, over the objectives, of
    [(next_value - previous_value) / (max - min)], an objective of zero
    range adding nothing.  On the front with objective values [0,1,5] and
    [5,1,0] the end points get infinity and the middle point a finite,
    strictly positive distance (it is 2). *)
Theorem crowding_distance_extremes_and_interior :
  (forall F, wf F -> 0 < nrows F ->
     exists distance,
       crowding_distance F = Ok distance
       /\ length distance = nrows F
       /\ (forall m, m < ncols F ->
             let s := argsort (column F m) in
             nth (nth 0 s 0) distance (Fin 0) = PInf
             /\ nth (nth (nrows F - 1) s 0) distance (Fin 0) = PInf
             /\ forall j, j < nrows F ->
                  (nth (nth 0 s 0%nat) (column F m) 0
                   <= nth j (column F m) 0)%Q
                  /\ (nth j (column F m) 0
                      <= nth (nth (nrows F - 1) s 0%nat) (column F m) 0)%Q)
       /\ (forall p, p < nrows F ->
             (forall m, m < ncols F -> is_extreme F m p = false) ->
             exists q,
               nth p distance (Fin 0) = Fin q
               /\ (q == Qsum (map (fun m => contribution F m p)
                                  (seq 0 (ncols F))))%Q)
       /\ (forall m p, (obj_range F m == 0)%Q ->
             (contribution F m p == 0)%Q))
  /\ exists mid,
       crowding_distance front3 = Ok [PInf; Fin mid; PInf]
       /\ (0 < mid)%Q /\ (mid == 2)%Q.
Proof.
  split.
  - intros F Hwf Hn.
    destruct (crowding_distance_spec Hwf Hn) as [d [Hrun [Hlen Hval]]].
    exists d. split; [exact Hrun|]. split; [exact Hlen|].
    assert (Hext : forall m p, m < ncols F -> p < nrows F ->
              is_extreme F m p = true -> nth p d (Fin 0) = PInf).
    { intros m p Hm Hp He. specialize (Hval p Hp). unfold crowding_spec in Hval.
      assert (Hex : existsb (fun m0 => is_extreme F m0 p) (seq 0 (ncols F))
                    = true).
      { apply existsb_exists. exists m. split; [apply in_seq; lia | exact He]. }
      rewrite Hex in Hval.
      destruct (nth p d (Fin 0)); simpl in Hval; try contradiction.
      reflexivity. }
    split; [|split].
    + intros m Hm s.
      assert (Hs : length s = nrows F)
        by (unfold s; rewrite argsort_length, length_column; reflexivity).
      assert (Hnd : NoDup s) by apply argsort_NoDup.
      split; [|split].
      * apply (Hext m); auto.
        { apply argsort_column_lt. exact Hn. }
        unfold is_extreme. fold s. rewrite index_of_nth by (auto; lia).
        reflexivity.
      * apply (Hext m); auto.
        { apply argsort_column_lt. lia. }
        unfold is_extreme. fold s. rewrite index_of_nth by (auto; lia).
        rewrite Hs, Nat.eqb_refl, orb_true_r. reflexivity.
      * intros j Hj.
        pose proof (@argsort_extremes (column F m) j) as Hx.
        rewrite length_column in Hx. apply Hx, Hj.
    + intros p Hp Hint. specialize (Hval p Hp). unfold crowding_spec in Hval.
      assert (Hex : existsb (fun m0 => is_extreme F m0 p) (seq 0 (ncols F))
                    = false).
      { destruct (existsb _ _) eqn:Ex; [|reflexivity].
        apply existsb_exists in Ex. destruct Ex as [m [Hm He]].
        apply in_seq in Hm. rewrite Hint in He by lia. discriminate. }
      rewrite Hex in Hval.
      destruct (nth p d (Fin 0)) as [|q|]; simpl in Hval; try contradiction.
      exists q. split; [reflexivity | exact Hval].
    + intros m p Hz. unfold contribution.
      apply Qeq_bool_iff in Hz. rewrite Hz. reflexivity.
  - destruct argsort_front3 as [E0 E1].
    eexists. split.
    + unfold crowding_distance. change (ncols front3) with 2.
      cbn [seq foldM]. unfold crowding_outer. rewrite E0, E1.
      vm_compute. reflexivity.
    + split; reflexivity.
Qed.

End CrowdingFacts.

(** ** compute_ms *)

(** C9.  [compute_ms] is not bounded by 1: for the achieved set [far_set]
    and the true front [unit_front], whose ranges are disjoint in each
    objective (the least achieved value 3 is above the greatest true value
    1, so the overlap term is negative), the metric is 2. *)
Theorem compute_ms_exceeds_one :
  exists F_min true_max x,
    wf far_set /\ wf unit_front
    /\ np_min_axis0 far_set = Ok F_min
    /\ np_max_axis0 unit_front = Ok true_max
    /\ Forall2 (fun t f => (t < f)%Q) true_max F_min
    /\ compute_ms far_set unit_front = Ok (Num x)
    /\ x = 2%R /\ (1 < x)%R.
Proof.
  exists [3%Q; 3%Q], [1%Q; 1%Q], 2%R.
  split; [repeat constructor|]. split; [repeat constructor|].
  split; [reflexivity|]. split; [reflexivity|].
  split; [repeat constructor|].
  split; [|split; [reflexivity | lra]].
  unfold compute_ms.
  change (np_min_axis0 far_set) with (Ok [3%Q; 3%Q]).
  change (np_max_axis0 far_set) with (Ok [4%Q; 4%Q]).
  change (np_min_axis0 unit_front) with (Ok [0%Q; 0%Q]).
  change (np_max_axis0 unit_front) with (Ok [1%Q; 1%Q]).
  cbn [rbind].
  assert (Hc : exists comps,
             ms_components far_set [3%Q; 3%Q] [4%Q; 4%Q] [0%Q; 0%Q] [1%Q; 1%Q]
             = Ok comps
             /\ (Qsum comps / inject_Z (Z.of_nat (ncols far_set)) == 4)%Q).
  { eexists. split; [vm_compute; reflexivity|]. vm_compute. reflexivity. }
  destruct Hc as [comps [Hc Hq]]. rewrite Hc. cbn [rbind].
  change (ncols far_set =? 0) with false. cbv iota.
  do 2 f_equal. rewrite (Qeq_eqR _ _ Hq).
  replace (Q2R 4) with (2 * 2)%R by (unfold Q2R; simpl; lra).
  apply sqrt_square. lra.
Qed.

(** ** select_subset *)

Lemma np_array_rectangular d r saved :
  rectangular d (r :: saved) ->
  np_array (r :: saved) = Ok (Arr2 (mkMatrix d (r :: saved))).
Proof.
  intros H. unfold np_array.
  assert (Hr : length r = d) by (inversion H; assumption).
  assert (Hall : forallb (fun r' => length r' =? length r) (r :: saved) = true).
  { apply forallb_forall. intros x Hx. apply Nat.eqb_eq.
    unfold rectangular in H. rewrite Forall_forall in H.
    rewrite (H x Hx). symmetry. exact Hr. }
  rewrite Hall, Hr. reflexivity.
Qed.

Lemma firstn_replace_nth_S {A} (l : list A) k a :
  k < length l -> firstn (S k) (replace_nth l k a) = firstn k l ++ [a].
Proof.
  revert k. induction l as [|x l IH]; intros [|k] H; simpl in *; try lia.
  - reflexivity.
  - f_equal. apply IH. lia.
Qed.

Lemma skipn_replace_nth_gt {A} (l : list A) k j a :
  k < j -> skipn j (replace_nth l k a) = skipn j l.
Proof.
  revert k j. induction l as [|x l IH]; intros [|k] [|j] H; simpl; try lia;
    try reflexivity.
  apply IH. lia.
Qed.

(** A loop that fills the places [k, k+1, ...] of an array. *)
Lemma fill_loop {A B} (body : B -> result A) (g : B -> A) (l : list B) :
  (forall x, In x l -> body x = Ok (g x)) ->
  forall acc k, k + length l <= length acc ->
    foldM (fun acc '(i, x) => row <- body x ;; setitem acc i row)
          acc (combine (seq k (length l)) l)
    = Ok (firstn k acc ++ map g l ++ skipn (k + length l) acc).
Proof.
  induction l as [|x l IH]; intros Hb acc k Hk.
  - simpl. rewrite Nat.add_0_r, firstn_skipn. reflexivity.
  - simpl. rewrite (Hb x) by (left; reflexivity). cbn [rbind].
    simpl in Hk. rewrite setitem_Ok by lia. cbn [rbind].
    rewrite IH.
    + rewrite firstn_replace_nth_S by lia.
      rewrite skipn_replace_nth_gt by lia.
      rewrite <- app_assoc.
      replace (S k + length l) with (k + S (length l)) by lia. reflexivity.
    + intros y Hy. apply Hb. right. exact Hy.
    + rewrite length_replace_nth. lia.
Qed.

Lemma foldM_ext {A B} (f g : A -> B -> result A) l :
  (forall acc b, f acc b = g acc b) ->
  forall acc, foldM f acc l = foldM g acc l.
Proof.
  intros H. induction l as [|b l IH]; intros acc; simpl; [reflexivity|].
  rewrite H. destruct (g acc b); simpl; auto.
Qed.

Lemma evaluate_saved_Ok problem source :
  evaluates problem source ->
  evaluate_saved problem source
  = Ok (mkMatrix (n_obj problem) (map (objective_values problem) source)).
Proof.
  intros He. unfold evaluate_saved.
  rewrite (@foldM_ext _ _ _
             (fun acc '(i, x) =>
                row <- (f <- _evaluate problem x ;;
                        assign_row (n_obj problem) f) ;;
                setitem acc i row))
    by (intros acc [i x]; destruct (_evaluate problem x); reflexivity).
  rewrite (@fill_loop _ _
             (fun ind => f <- _evaluate problem ind ;;
                         assign_row (n_obj problem) f)
             (objective_values problem)).
  - cbn [rbind]. rewrite Nat.add_0_l.
    rewrite skipn_all2 by (rewrite repeat_length; lia).
    simpl. rewrite app_nil_r. reflexivity.
  - intros x Hx. destruct (He x Hx) as [f [Hf Hl]].
    unfold objective_values. rewrite Hf. cbn [rbind].
    unfold assign_row. rewrite Hl, Nat.eqb_refl. reflexivity.
  - rewrite repeat_length. lia.
Qed.

Lemma take_rows_Ok M idx :
  (forall i, In i idx -> i < nrows M) ->
  take_rows M idx
  = Ok (mkMatrix (ncols M) (map (fun i => nth i (rows M) []) idx)).
Proof.
  intros H. unfold take_rows.
  assert (G : forall acc,
             foldM (fun acc i => r <- getitem (rows M) i ;; Ok (acc ++ [r]))
                   acc idx
             = Ok (acc ++ map (fun i => nth i (rows M) []) idx)).
  { induction idx as [|i idx IH]; intros acc; simpl.
    - rewrite app_nil_r. reflexivity.
    - rewrite (getitem_nth _ []) by (apply H; left; reflexivity).
      cbn [rbind]. rewrite IH.
      + rewrite <- app_assoc. reflexivity.
      + intros j Hj. apply H. right. exact Hj. }
  rewrite G. reflexivity.
Qed.

Lemma StronglySorted_app_le {A} (R : A -> A -> Prop) l1 l2 :
  StronglySorted R (l1 ++ l2) ->
  forall a b, In a l1 -> In b l2 -> R a b.
Proof.
  induction l1 as [|x l1 IH]; simpl; intros Hs a b Ha Hb; [contradiction|].
  inversion Hs as [|? ? Hs' Hall]; subst.
  destruct Ha as [<-|Ha].
  - rewrite Forall_forall in Hall. apply Hall, in_or_app. right. exact Hb.
  - apply IH; assumption.
Qed.

Lemma firstn_In {A} k (l : list A) x : In x (firstn k l) -> In x l.
Proof.
  intros H. rewrite <- (firstn_skipn k l). apply in_or_app. left. exact H.
Qed.

Lemma StronglySorted_firstn {A} (R : A -> A -> Prop) k l :
  StronglySorted R l -> StronglySorted R (firstn k l).
Proof.
  intros Hs. revert k. induction Hs as [|x l Hs IH Hall]; intros [|k]; simpl;
    try constructor.
  - apply IH.
  - rewrite Forall_forall in *. intros y Hy. apply Hall.
    eapply firstn_In. exact Hy.
Qed.

Lemma NoDup_firstn {A} k (l : list A) : NoDup l -> NoDup (firstn k l).
Proof.
  intros H. revert k. induction H as [|x l Hx H IH]; intros [|k]; simpl;
    try constructor.
  - intros Hin. apply Hx. eapply firstn_In. exact Hin.
  - apply IH.
Qed.

Section SelectFacts.
Context {np : Argsort} {np_sorts : ArgsortSorts np}.

Lemma select_subset_small (problem : Problem) (max_elements d : nat) saved :
  rectangular d saved -> 0 < length saved <= max_elements ->
  select_subset saved problem max_elements = Ok (Arr2 (mkMatrix d saved)).
Proof.
  intros Hrect [Hpos Hle].
  destruct saved as [|r saved]; [simpl in Hpos; lia|].
  unfold select_subset. rewrite (np_array_rectangular Hrect).
  cbn [rbind]. unfold len, nrows. cbn [rows].
  destruct (Nat.eqb_spec (length (r :: saved)) 0) as [E|_];
    [simpl in E; lia|].
  destruct (Nat.leb_spec (length (r :: saved)) max_elements); [|lia].
  reflexivity.
Qed.

Lemma select_subset_large (problem : Problem) (max_elements d : nat) saved :
  rectangular d saved -> max_elements < length saved ->
  evaluates problem saved ->
  let sums := map (objective_sum problem) saved in
  exists best_indices,
    select_subset saved problem max_elements
    = Ok (Arr2 (mkMatrix d (map (fun i => nth i saved []) best_indices)))
    /\ length best_indices = max_elements
    /\ NoDup best_indices
    /\ (forall i, In i best_indices -> i < length saved)
    /\ StronglySorted
         (fun i j => (nth i sums 0 <= nth j sums 0)%Q) best_indices
    /\ (forall i j,
          In i best_indices -> j < length saved ->
          ~ In j best_indices ->
          (nth i sums 0 <= nth j sums 0)%Q).
Proof.
  intros Hrect Hgt Hev sums.
  destruct saved as [|r saved']; [simpl in Hgt; lia|].
  remember (r :: saved') as saved eqn:Es.
  exists (firstn max_elements (argsort sums)).
  assert (Hls : length sums = length saved) by apply length_map.
  split; [|split; [|split; [|split; [|split]]]].
  + unfold select_subset.
    assert (Hnp : np_array saved = Ok (Arr2 (mkMatrix d saved)))
      by (rewrite Es in *; apply np_array_rectangular; exact Hrect).
    rewrite Hnp.
    cbn [rbind]. unfold len, nrows, items. cbn [rows].
    destruct (Nat.eqb_spec (length saved) 0) as [E|_]; [lia|].
    destruct (Nat.leb_spec (length saved) max_elements); [lia|].
    rewrite (evaluate_saved_Ok Hev). cbn [rbind rows].
    rewrite map_map. fold (objective_sum problem).
    change (map (fun x => Qsum (objective_values problem x)) saved)
      with sums.
    unfold fancy_index. rewrite take_rows_Ok.
    * reflexivity.
    * intros i Hi. apply firstn_In in Hi. apply argsort_In in Hi.
      unfold nrows. cbn [rows]. rewrite length_map in Hi. exact Hi.
  + rewrite length_firstn, argsort_length. lia.
  + apply NoDup_firstn, argsort_NoDup.
  + intros i Hi. apply firstn_In in Hi. apply argsort_In in Hi. lia.
  + apply StronglySorted_firstn, argsort_sorted.
  + intros i j Hi Hj Hnj.
    pose proof (argsort_sorted sums) as Hs.
    rewrite <- (firstn_skipn max_elements (argsort sums)) in Hs.
    apply (@StronglySorted_app_le _ _ _ _ Hs i j Hi).
    assert (Hin : In j (argsort sums)) by (apply argsort_In; lia).
    rewrite <- (firstn_skipn max_elements (argsort sums)) in Hin.
    apply in_app_or in Hin. destruct Hin; [contradiction | assumption].
Qed.

(** C6.  [select_subset] returns the empty array for an empty archive; it
    returns the archive itself, row for row (so the same multiset of
    vectors), when the archive has at most [max_elements] members; and
    otherwise, every member being evaluated under the problem at hand, it
    returns the [max_elements] members at the head of the ascending order
    of the sums of objective values: distinct members, in ascending order
    of their sums, none of them with a greater sum than a member left
    out. *)
Theorem select_subset_correct (problem : Problem) (max_elements : nat) :
  select_subset [] problem max_elements = Ok (Arr1 [])
  /\ (forall d saved,
        rectangular d saved -> 0 < length saved <= max_elements ->
        select_subset saved problem max_elements
        = Ok (Arr2 (mkMatrix d saved)))
  /\ (forall d saved,
        rectangular d saved -> max_elements < length saved ->
        evaluates problem saved ->
        let sums := map (objective_sum problem) saved in
        exists best_indices,
          select_subset saved problem max_elements
          = Ok (Arr2 (mkMatrix d (map (fun i => nth i saved []) best_indices)))
          /\ length best_indices = max_elements
          /\ NoDup best_indices
          /\ (forall i, In i best_indices -> i < length saved)
          /\ StronglySorted
               (fun i j => (nth i sums 0 <= nth j sums 0)%Q) best_indices
          /\ (forall i j,
                In i best_indices -> j < length saved ->
                ~ In j best_indices ->
                (nth i sums 0 <= nth j sums 0)%Q)).
Proof.
  split; [reflexivity|]. split.
  - intros d saved. apply select_subset_small.
  - intros d saved. apply select_subset_large.
Qed.

End SelectFacts.

(** A run of [select_subset] on an archive of three vectors whose single
    objective is the first component: the two smallest are kept. *)
Example select_subset_example :
  select_subset (np := stable) [[3; 0]; [1; 0]; [2; 0]]%Q first_variable 2
  = Ok (Arr2 (mkMatrix 2 [[1; 0]; [2; 0]]%Q)).
Proof. reflexivity. Qed.

(** ** save_elite_solutions *)

(** Three new vectors, one kept per update, one place in the archive: each
    of the six outcomes keeps either the old vector or a new one. *)
Example save_elite_small :
  save_elite_solutions (mkProblem 1 1 [] [] (fun _ => Ok []) (mkMatrix 0 []))
    (mkMatrix 1 [[1]; [2]; [3]]%Q) (mkMatrix 1 []) 1 [[0%Q]] 1
  = [ [[0]]; [[1]]; [[0]]; [[2]]; [[0]]; [[3]] ]%Q.
Proof. reflexivity. Qed.

Lemma flat_map_singleton {A B} (f : A -> B) (l : list A) :
  flat_map (fun x => [f x]) l = map f l.
Proof. induction l as [|x l IH]; simpl; congruence. Qed.

Lemma save_elite_solutions_subsample problem var obj max_save solutions
      max_per_problem :
  save_elite_solutions problem var obj max_save solutions max_per_problem
  = dbind (subsample max_per_problem (rows var))
          (fun current_elites =>
             subsample max_save (solutions ++ current_elites)).
Proof.
  unfold save_elite_solutions, subsample, dbind, dret.
  rewrite flat_map_singleton.
  apply flat_map_ext. intros ce.
  rewrite flat_map_singleton. reflexivity.
Qed.

Lemma without_In x y l : In y (without x l) <-> In y l /\ y <> x.
Proof.
  unfold without. rewrite filter_In.
  destruct (Nat.eqb_spec y x); simpl; intuition congruence.
Qed.

Lemma without_NoDup x l : NoDup l -> NoDup (without x l).
Proof. apply NoDup_filter. Qed.

Lemma without_notin x l : ~ In x l -> without x l = l.
Proof.
  induction l as [|y l IH]; simpl; intros H; [reflexivity|].
  destruct (Nat.eqb_spec y x); simpl.
  - exfalso. apply H. left. assumption.
  - f_equal. apply IH. tauto.
Qed.

Lemma length_without_In x l :
  NoDup l -> In x l -> S (length (without x l)) = length l.
Proof.
  induction 1 as [|y l Hy Hnd IH]; simpl; intros Hin; [contradiction|].
  destruct (Nat.eqb_spec y x) as [E|E]; simpl.
  - subst. rewrite without_notin by assumption. reflexivity.
  - destruct Hin as [Hin|Hin]; [contradiction|].
    rewrite IH by assumption. reflexivity.
Qed.

(** Every outcome of a draw is a list of [k] different elements of [l]. *)
Lemma arrangements_spec k : forall l a,
  In a (arrangements k l) ->
  NoDup a /\ length a = k /\ forall i, In i a -> In i l.
Proof.
  induction k as [|k IH]; intros l a Ha; simpl in Ha.
  - destruct Ha as [<-|[]]. repeat split; [constructor | contradiction].
  - apply in_flat_map in Ha. destruct Ha as [x [Hx Ha]].
    apply in_map_iff in Ha. destruct Ha as [a' [<- Ha']].
    destruct (IH _ _ Ha') as [Hnd [Hlen Hin]].
    repeat split.
    + constructor; [|exact Hnd].
      intros Hxa. apply Hin, without_In in Hxa. tauto.
    + simpl. congruence.
    + intros i [<-|Hi]; [exact Hx|].
      apply Hin, without_In in Hi. tauto.
Qed.

(** A draw of at most [length l] elements has an outcome. *)
Lemma arrangements_nonempty k : forall l,
  NoDup l -> k <= length l -> arrangements k l <> [].
Proof.
  induction k as [|k IH]; intros l Hnd Hk; simpl; [discriminate|].
  destruct l as [|x l]; [simpl in Hk; lia|].
  cbn [flat_map]. intros E. apply app_eq_nil in E. destruct E as [E _].
  apply map_eq_nil in E. revert E. apply IH.
  - apply without_NoDup, Hnd.
  - pose proof (@length_without_In x (x :: l) Hnd (or_introl eq_refl)).
    simpl length in *. lia.
Qed.

Lemma count_flat_map {A B} (f : B -> bool) (g : A -> list B) l :
  count f (flat_map g l) = list_sum (map (fun x => count f (g x)) l).
Proof.
  unfold count. induction l as [|x l IH]; simpl; [reflexivity|].
  rewrite filter_app, length_app, IH. reflexivity.
Qed.

Lemma count_map {A B} (f : B -> bool) (g : A -> B) l :
  count f (map g l) = count (fun x => f (g x)) l.
Proof.
  unfold count. induction l as [|x l IH]; simpl; [reflexivity|].
  destruct (f (g x)); simpl; congruence.
Qed.

Lemma count_ext_in {A} (f g : A -> bool) l :
  (forall x, In x l -> f x = g x) -> count f l = count g l.
Proof.
  intros H. unfold count. rewrite (filter_ext_in f g l H). reflexivity.
Qed.

Lemma count_false {A} (l : list A) : count (fun _ => false) l = 0.
Proof. unfold count. induction l; simpl; auto. Qed.

Lemma subsetb_incl a S : subsetb a S = true <-> (forall i, In i a -> In i S).
Proof.
  unfold subsetb. rewrite forallb_forall.
  split; intros H i Hi; apply existsb_eqb_In, H, Hi.
Qed.

Lemma forallb_ext_in {A} (f g : A -> bool) l :
  (forall x, In x l -> f x = g x) -> forallb f l = forallb g l.
Proof.
  induction l as [|x l IH]; simpl; intros H; [reflexivity|].
  rewrite H by (left; reflexivity). rewrite IH; [reflexivity|].
  intros y Hy. apply H. right. exact Hy.
Qed.

Lemma subsetb_without x a S :
  ~ In x a -> subsetb a S = subsetb a (without x S).
Proof.
  intros Hx. unfold subsetb. apply forallb_ext_in.
  intros y Hy.
  destruct (existsb (Nat.eqb y) S) eqn:E1;
    destruct (existsb (Nat.eqb y) (without x S)) eqn:E2; try reflexivity.
  - apply existsb_eqb_In in E1.
    assert (In y (without x S)) by (apply without_In; split; congruence).
    apply existsb_eqb_In in H. congruence.
  - apply existsb_eqb_In, without_In in E2. destruct E2 as [E2 _].
    apply existsb_eqb_In in E2. congruence.
Qed.

(** Summing [c] over the elements of [l] that belong to [S]. *)
Lemma list_sum_members c : forall l S,
  NoDup l -> NoDup S -> (forall i, In i S -> In i l) ->
  list_sum (map (fun x => if existsb (Nat.eqb x) S then c else 0) l)
  = length S * c.
Proof.
  induction l as [|y l IH]; intros S Hl HS Hincl.
  - destruct S as [|z S]; [reflexivity|].
    exfalso. apply (Hincl z). left. reflexivity.
  - inversion Hl as [|? ? Hy Hl']; subst. simpl.
    destruct (existsb (Nat.eqb y) S) eqn:E.
    + apply existsb_eqb_In in E.
      rewrite <- (length_without_In y HS E). simpl.
      rewrite <- (IH (without y S)); auto.
      * do 2 f_equal. apply map_ext_in. intros x Hx.
        assert (Hxy : x <> y) by congruence.
        destruct (existsb (Nat.eqb x) S) eqn:E1;
          destruct (existsb (Nat.eqb x) (without y S)) eqn:E2;
          try reflexivity; exfalso.
        -- apply existsb_eqb_In in E1.
           assert (In x (without y S)) by (apply without_In; tauto).
           apply existsb_eqb_In in H. congruence.
        -- apply existsb_eqb_In, without_In in E2. destruct E2 as [E2 _].
           apply existsb_eqb_In in E2. congruence.
      * apply without_NoDup, HS.
      * intros i Hi. apply without_In in Hi. destruct Hi as [Hi Hne].
        destruct (Hincl i Hi); [congruence | assumption].
    + simpl. apply IH; auto.
      intros i Hi. destruct (Hincl i Hi) as [<-|H]; [|exact H].
      apply existsb_eqb_In in Hi. congruence.
Qed.

(** Among the draws of [k] elements of [l], those made of the elements of
    a given set [S] of size [k] are the [k!] orders of [S]. *)
Lemma arrangements_count k : forall l S,
  NoDup l -> NoDup S -> (forall i, In i S -> In i l) -> length S = k ->
  count (fun a => subsetb a S) (arrangements k l) = fact k.
Proof.
  induction k as [|k IH]; intros l S Hl HS Hincl Hlen.
  - reflexivity.
  - cbn [arrangements]. rewrite count_flat_map.
    rewrite (map_ext_in _ (fun x => if existsb (Nat.eqb x) S
                                    then fact k else 0)).
    + rewrite list_sum_members by assumption. rewrite Hlen. reflexivity.
    + intros x Hx. rewrite count_map. cbn [subsetb forallb].
      destruct (existsb (Nat.eqb x) S) eqn:E; cbn [andb].
      * apply existsb_eqb_In in E.
        rewrite (@count_ext_in _ _ (fun a => subsetb a (without x S))).
        -- apply IH.
           ++ apply without_NoDup, Hl.
           ++ apply without_NoDup, HS.
           ++ intros i Hi. apply without_In in Hi. apply without_In.
              split; [apply Hincl|]; tauto.
           ++ pose proof (length_without_In x HS E). lia.
        -- intros a Ha. apply subsetb_without.
           intros Hxa. apply arrangements_spec in Ha.
           destruct Ha as [_ [_ Ha]]. apply Ha, without_In in Hxa. tauto.
      * apply count_false.
Qed.

(** [np.random.choice(n, size=k, replace=False)] is uniform on the sets of
    [k] positions: each of them is drawn by [k!] of the outcomes. *)
Lemma np_random_choice_uniform n k S :
  positions n k S ->
  count (fun a => same_set a S) (np_random_choice n k) = fact k.
Proof.
  intros [HS [Hlen Hlt]]. unfold np_random_choice.
  rewrite (@count_ext_in _ _ (fun a => subsetb a S)).
  - apply arrangements_count; auto.
    + apply seq_NoDup.
    + intros i Hi. apply in_seq. specialize (Hlt i Hi). lia.
  - intros a Ha. apply arrangements_spec in Ha.
    destruct Ha as [Hnd [Hla _]]. unfold same_set.
    destruct (subsetb a S) eqn:E; [|reflexivity]. simpl.
    apply subsetb_incl.
    pose proof (proj1 (subsetb_incl a S) E) as E'.
    apply NoDup_length_incl; [exact Hnd | lia | exact E'].
Qed.

Lemma list_sum_const {A} (g : A -> nat) c l :
  (forall x, In x l -> g x = c) -> list_sum (map g l) = length l * c.
Proof.
  induction l as [|x l IH]; intros H; simpl; [reflexivity|].
  rewrite H by (left; reflexivity). rewrite IH; [reflexivity|].
  intros y Hy. apply H. right. exact Hy.
Qed.

Lemma list_sum_scale {A} (g : A -> nat) c l :
  list_sum (map g l) * c = list_sum (map (fun x => g x * c) l).
Proof.
  induction l as [|x l IH]; simpl; [reflexivity|].
  rewrite Nat.mul_add_distr_r, IH. reflexivity.
Qed.

(** There are [n! / (n - k)!] draws of [k] elements among [n]. *)
Lemma arrangements_length k : forall l,
  NoDup l -> k <= length l ->
  length (arrangements k l) * fact (length l - k) = fact (length l).
Proof.
  induction k as [|k IH]; intros l Hl Hk.
  - simpl. rewrite Nat.sub_0_r. lia.
  - cbn [arrangements]. rewrite length_flat_map, list_sum_scale.
    rewrite (@list_sum_const _ _ (fact (length l - 1))).
    + destruct (length l) as [|n] eqn:En; [lia|].
      simpl. rewrite Nat.sub_0_r. lia.
    + intros x Hx. rewrite length_map.
      pose proof (length_without_In x Hl Hx) as Hw.
      replace (length l - S k) with (length (without x l) - k) by lia.
      rewrite IH; [f_equal; lia | apply without_NoDup, Hl | lia].
Qed.

Lemma np_random_choice_length n k :
  k <= n -> length (np_random_choice n k) * fact (n - k) = fact n.
Proof.
  intros H. unfold np_random_choice.
  pose proof (@arrangements_length k (seq 0 n) (seq_NoDup n 0)) as Hl.
  rewrite length_seq in Hl. apply Hl, H.
Qed.

Lemma subsample_length cap l r :
  In r (subsample cap l) -> length r <= cap.
Proof.
  unfold subsample. destruct (Nat.ltb_spec cap (length l)) as [H|H].
  - intros Hr. apply in_map_iff in Hr. destruct Hr as [a [<- Ha]].
    apply arrangements_spec in Ha. destruct Ha as [_ [Hlen _]].
    unfold pick. rewrite length_map. lia.
  - intros [<-|[]]. exact H.
Qed.

Lemma subsample_members cap l r :
  In r (subsample cap l) -> forall x, In x r -> In x l.
Proof.
  unfold subsample. destruct (Nat.ltb_spec cap (length l)) as [H|H].
  - intros Hr x Hx. apply in_map_iff in Hr. destruct Hr as [a [<- Ha]].
    apply arrangements_spec in Ha. destruct Ha as [_ [_ Hin]].
    unfold pick in Hx. apply in_map_iff in Hx. destruct Hx as [i [<- Hi]].
    apply nth_In. specialize (Hin i Hi). apply in_seq in Hin. lia.
  - intros [<-|[]] x Hx. exact Hx.
Qed.

Lemma subsample_nonempty cap l : subsample cap l <> [].
Proof.
  unfold subsample. destruct (Nat.ltb_spec cap (length l)) as [H|H];
    [|discriminate].
  intros E. apply map_eq_nil in E. revert E.
  apply arrangements_nonempty; [apply seq_NoDup | rewrite length_seq; lia].
Qed.

Lemma save_elite_solutions_In problem var obj max_save solutions
      max_per_problem solutions' :
  In solutions'
     (save_elite_solutions problem var obj max_save solutions max_per_problem)
  <-> exists current_elites,
        In current_elites (subsample max_per_problem (rows var))
        /\ In solutions' (subsample max_save (solutions ++ current_elites)).
Proof.
  rewrite save_elite_solutions_subsample. unfold dbind. apply in_flat_map.
Qed.

(** C5.  A population of at most [max_per_problem] vectors that fits in the
    archive is appended to it, and nothing is drawn or evicted: the one
    outcome of the call is the old archive followed by the new vectors. *)
Theorem save_elite_solutions_no_eviction
    problem var obj max_save solutions max_per_problem :
  nrows var <= max_per_problem ->
  nrows var + length solutions <= max_save ->
  save_elite_solutions problem var obj max_save solutions max_per_problem
  = [solutions ++ rows var].
Proof.
  intros Hper Hcap. unfold save_elite_solutions, nrows in *.
  destruct (Nat.ltb_spec max_per_problem (length (rows var))); [lia|].
  unfold dbind, dret. cbn [flat_map]. rewrite app_nil_r.
  destruct (Nat.ltb_spec max_save (length (solutions ++ rows var)))
    as [H'|H']; [rewrite length_app in H'; lia|].
  reflexivity.
Qed.

(** The example of C5: from the empty archive, ten new vectors and the
    caps 1000 and 40 leave exactly those ten vectors. *)
Lemma save_elite_solutions_ten_vectors :
  nrows ten_vectors <= 40
  /\ nrows ten_vectors + length (@nil (list Q)) <= 1000
  /\ save_elite_solutions identity_problem ten_vectors ten_vectors
       1000 [] 40
     = [rows ten_vectors].
Proof.
  split; [|split].
  - vm_compute. lia.
  - vm_compute. lia.
  - apply (@save_elite_solutions_no_eviction identity_problem ten_vectors
             ten_vectors 1000 [] 40); vm_compute; lia.
Defined.

Lemma subsample_length_exact cap l r :
  In r (subsample cap l) -> length r = Nat.min cap (length l).
Proof.
  unfold subsample. destruct (Nat.ltb_spec cap (length l)) as [H|H].
  - intros Hr. apply in_map_iff in Hr. destruct Hr as [a [<- Ha]].
    apply arrangements_spec in Ha. destruct Ha as [_ [Hlen _]].
    unfold pick. rewrite length_map. lia.
  - intros [<-|[]]. lia.
Qed.

(** An outcome of a call: at most [max_save] vectors, each of the old
    archive or of the new population. *)
Lemma save_elite_solutions_outcome problem var obj max_save solutions
      max_per_problem solutions' :
  In solutions'
     (save_elite_solutions problem var obj max_save solutions
                           max_per_problem) ->
  length solutions' <= max_save
  /\ forall x, In x solutions' -> In x solutions \/ In x (rows var).
Proof.
  intros H.
  apply save_elite_solutions_In in H. destruct H as [ce [H1 H2]].
  split; [eapply subsample_length; exact H2|].
  intros x Hx. apply (@subsample_members _ _ _ H2) in Hx.
  apply in_app_or in Hx. destruct Hx as [Hx|Hx]; [left; exact Hx|].
  right. eapply subsample_members; eassumption.
Qed.

(** Every call has an outcome. *)
Lemma save_elite_solutions_nonempty problem var obj max_save solutions
      max_per_problem :
  save_elite_solutions problem var obj max_save solutions max_per_problem
  <> [].
Proof.
  rewrite save_elite_solutions_subsample. unfold dbind.
  destruct (subsample max_per_problem (rows var)) as [|ce d] eqn:E.
  - exfalso. exact (@subsample_nonempty _ _ E).
  - cbn [flat_map]. intros E'. apply app_eq_nil in E'.
    destruct E' as [E' _]. exact (@subsample_nonempty _ _ E').
Qed.

Lemma pick_seq {A} (d : A) l : pick d l (seq 0 (length l)) = l.
Proof.
  unfold pick. induction l as [|x l IH]; [reflexivity|].
  cbn [length seq map nth].
  rewrite <- seq_shift, map_map. cbn [nth]. rewrite IH. reflexivity.
Qed.

Lemma flat_map_ext_in {A B} (f g : A -> list B) l :
  (forall x, In x l -> f x = g x) -> flat_map f l = flat_map g l.
Proof.
  induction l as [|x l IH]; intros H; simpl; [reflexivity|].
  rewrite (H x) by (left; reflexivity). f_equal.
  apply IH. intros y Hy. apply H. right. exact Hy.
Qed.

Lemma flat_map_map {A B C} (f : B -> list C) (g : A -> B) l :
  flat_map f (map g l) = flat_map (fun x => f (g x)) l.
Proof. induction l as [|x l IH]; simpl; congruence. Qed.

(** The positions kept by a sampling are drawn uniformly. *)
Lemma kept_positions_uniform n cap :
  uniform_draws n cap (kept_positions n cap).
Proof.
  unfold uniform_draws, kept_positions.
  destruct (Nat.ltb_spec cap n) as [H|H].
  - split; [|split; [|split]].
    + apply arrangements_nonempty; [apply seq_NoDup | rewrite length_seq; lia].
    + intros idx Hidx. apply arrangements_spec in Hidx.
      destruct Hidx as [Hnd [Hlen Hin]].
      split; [exact Hnd|]. split; [lia|].
      intros i Hi. specialize (Hin i Hi). apply in_seq in Hin. lia.
    + intros _. split.
      * apply np_random_choice_length. lia.
      * intros S HS. apply np_random_choice_uniform, HS.
    + intros Hle. lia.
  - split; [discriminate|]. split; [|split].
    + intros idx [<-|[]]. split; [apply seq_NoDup|].
      split; [rewrite length_seq; lia|].
      intros i Hi. apply in_seq in Hi. lia.
    + intros Hlt. lia.
    + intros _. reflexivity.
Qed.

(** A sampling keeps the elements at the kept positions. *)
Lemma subsample_kept_positions cap l :
  subsample cap l
  = map (fun idx => map (fun i => nth i l []) idx)
        (kept_positions (length l) cap).
Proof.
  unfold subsample, kept_positions.
  destruct (cap <? length l); [reflexivity|].
  cbn [map]. fold (pick [] l (seq 0 (length l))). rewrite pick_seq.
  reflexivity.
Qed.

(** C1.  Whatever the populations of a sequence of calls from the empty
    archive, the archive never has more than [max_save] vectors, and every
    call has an outcome, made of vectors of the old archive and of the
    new population.  A call samples the new population down to
    [max_per_problem] vectors and then the combined list, old vectors
    followed by the new ones kept, down to [max_save]: its equally likely
    outcomes are the vectors of the combined list at the positions
    [idx2], for every draw [idx1] of the first sampling and every draw
    [idx2] of the second.  The draws of a sampling are uniform: when the
    list of [n] vectors is longer than the cap, each draw is a list of
    [cap] different positions, there are [n! / (n - cap)!] draws and each
    set of [cap] positions, old and new alike, is drawn by the same
    number of them, [cap!]; when it is not, every vector is kept, in
    order. *)
Theorem archive_never_exceeds_cap (max_save max_per_problem : nat) :
  (forall solutions,
     reachable max_save max_per_problem solutions ->
     length solutions <= max_save)
  /\ (forall problem var obj solutions,
        save_elite_solutions problem var obj max_save solutions
                             max_per_problem <> []
        /\ forall solutions',
             In solutions'
                (save_elite_solutions problem var obj max_save solutions
                                      max_per_problem) ->
             length solutions' <= max_save
             /\ forall x, In x solutions' ->
                          In x solutions \/ In x (rows var))
  /\ (forall problem var obj solutions,
        exists draws1 draws2,
          uniform_draws (nrows var) max_per_problem draws1
          /\ uniform_draws
               (length solutions + Nat.min max_per_problem (nrows var))
               max_save draws2
          /\ save_elite_solutions problem var obj max_save solutions
                                  max_per_problem
             = flat_map
                 (fun idx1 =>
                    let current_elites :=
                      map (fun i => nth i (rows var) []) idx1 in
                    let combined := solutions ++ current_elites in
                    map (fun idx2 => map (fun i => nth i combined []) idx2)
                        draws2)
                 draws1).
Proof.
  split; [|split].
  - induction 1 as [|problem var obj solutions solutions' _ _ Hin].
    + simpl. lia.
    + eapply save_elite_solutions_outcome. exact Hin.
  - intros problem var obj solutions.
    split; [apply save_elite_solutions_nonempty|].
    intros solutions'. apply save_elite_solutions_outcome.
  - intros problem var obj solutions.
    exists (kept_positions (nrows var) max_per_problem).
    exists (kept_positions
              (length solutions + Nat.min max_per_problem (nrows var))
              max_save).
    split; [apply kept_positions_uniform|].
    split; [apply kept_positions_uniform|].
    rewrite save_elite_solutions_subsample. unfold dbind.
    rewrite subsample_kept_positions, flat_map_map.
    apply flat_map_ext_in. intros idx1 Hidx1. cbv zeta.
    rewrite subsample_kept_positions. f_equal. f_equal.
    rewrite length_app, length_map.
    destruct (kept_positions_uniform (nrows var) max_per_problem)
      as [_ [Hlen _]].
    destruct (Hlen idx1 Hidx1) as [_ [Hl _]]. rewrite Hl. reflexivity.
Qed.

(** ** Shapes of the linear algebra *)

Lemma nrows_tabulate r c f : nrows (tabulate r c f) = r.
Proof. unfold nrows, tabulate. simpl. rewrite length_map. apply length_seq. Qed.

Lemma ncols_tabulate r c f : ncols (tabulate r c f) = c.
Proof. reflexivity. Qed.

Lemma wf_tabulate r c f : wf (tabulate r c f).
Proof.
  unfold wf, tabulate. simpl. apply Forall_forall. intros x Hx.
  apply in_map_iff in Hx. destruct Hx as [i [<- _]].
  rewrite length_map. apply length_seq.
Qed.

Lemma matmul_Ok A B :
  ncols A = nrows B ->
  exists f, matmul A B = Ok (tabulate (nrows A) (ncols B) f).
Proof.
  intros H. unfold matmul. rewrite H, Nat.eqb_refl. eexists. reflexivity.
Qed.

Lemma madd_Ok A B :
  nrows A = nrows B -> ncols A = ncols B ->
  exists f, madd A B = Ok (tabulate (nrows A) (ncols A) f).
Proof.
  intros H1 H2. unfold madd. rewrite H1, H2, !Nat.eqb_refl.
  eexists. reflexivity.
Qed.

Lemma wf_firstn_rows M k : wf M -> wf (mkMatrix (ncols M) (firstn k (rows M))).
Proof.
  unfold wf. simpl. rewrite !Forall_forall. intros H x Hx.
  apply H. eapply firstn_In. exact Hx.
Qed.

Lemma take_columns_Ok M idx :
  (forall j, In j idx -> j < ncols M) ->
  take_columns M idx
  = Ok (mkMatrix (length idx)
          (map (fun r => map (fun j => nth j r 0%Q) idx) (rows M))).
Proof.
  intros H. unfold take_columns.
  assert (Hb : forallb (fun j => j <? ncols M) idx = true).
  { apply forallb_forall. intros j Hj. apply Nat.ltb_lt, H, Hj. }
  rewrite Hb. reflexivity.
Qed.

Lemma np_vstack_two A B :
  ncols B = ncols A ->
  np_vstack [Arr2 A; Arr2 B] = Ok (mkMatrix (ncols A) (rows A ++ rows B)).
Proof.
  intros H. unfold np_vstack. simpl. rewrite H, Nat.eqb_refl. reflexivity.
Qed.


(** ** TCA.fit_transform *)

Section TransferFacts.
Variable E : Externals.
Context {np : Argsort} {np_sorts : ArgsortSorts np}.

(** The stages of [fit_transform] on two non-empty sets of vectors of one
    width, with the radial-basis kernel: the stacking, the kernel matrix
    [K], the matrix [L] and the regularised matrix always succeed; then
    the inversion raises or returns, and so does the
    eigen-decomposition, after which the projection is formed. *)
Lemma fit_transform_stages (self : TCA) (Xs Xt : matrix) :
  kernel_type self = rbf ->
  0 < nrows Xs -> 0 < nrows Xt -> ncols Xt = ncols Xs -> 0 < ncols Xs ->
  let n := nrows Xs + nrows Xt in
  exists X_all K L K_reg,
    np_vstack [Arr2 Xs; Arr2 Xt] = Ok X_all
    /\ rbf_kernel E X_all X_all (gamma self) = Ok K
    /\ nrows K = n /\ ncols K = n
    /\ L_matrix (nrows Xs) (nrows Xt) = Ok L
    /\ madd K (scale (lamb self) (eye n)) = Ok K_reg
    /\ inv_argument E self (Arr2 Xs) (Arr2 Xt) = Ok K_reg
    /\ match inv_entries E K_reg with
       | None =>
           np_linalg_inv E K_reg = Raise LinAlgError
           /\ eigh_argument E self (Arr2 Xs) (Arr2 Xt) = Raise LinAlgError
           /\ fit_transform E self (Arr2 Xs) (Arr2 Xt) = Raise LinAlgError
       | Some inv =>
           exists K_inv Kc KcL M,
             np_linalg_inv E K_reg = Ok K_inv
             /\ K_inv = tabulate n n inv
             /\ matmul K_inv K = Ok Kc
             /\ matmul Kc L = Ok KcL
             /\ matmul KcL Kc = Ok M
             /\ eigh_argument E self (Arr2 Xs) (Arr2 Xt) = Ok M
             /\ match eigh_entries E M with
                | None =>
                    np_linalg_eigh E M = Raise LinAlgError
                    /\ fit_transform E self (Arr2 Xs) (Arr2 Xt)
                       = Raise LinAlgError
                | Some (vals, vecs) =>
                    exists eigvals eigvecs W Z,
                      np_linalg_eigh E M = Ok (eigvals, eigvecs)
                      /\ eigvals = map vals (seq 0 n)
                      /\ eigvecs = tabulate n n vecs
                      /\ take_columns eigvecs
                           (firstn (dim self) (argsort (map Qopp eigvals)))
                         = Ok W
                      /\ matmul K W = Ok Z
                      /\ nrows Z = n
                      /\ ncols Z = Nat.min (dim self) n
                      /\ wf Z
                      /\ fit_transform E self (Arr2 Xs) (Arr2 Xt)
                         = Ok (mkMatrix (ncols Z)
                                 (firstn (nrows Xs) (rows Z)))
                end
       end.
Proof.
  intros Hk Hs Ht Hc Hw n.
  set (X_all := mkMatrix (ncols Xs) (rows Xs ++ rows Xt)).
  assert (Hv : np_vstack [Arr2 Xs; Arr2 Xt] = Ok X_all)
    by (apply np_vstack_two, Hc).
  assert (Hn : nrows X_all = n)
    by (unfold nrows, X_all; simpl; rewrite length_app; reflexivity).
  assert (Hkern : exists K, rbf_kernel E X_all X_all (gamma self) = Ok K
                            /\ nrows K = n /\ ncols K = n).
  { unfold rbf_kernel. rewrite Hn. change (ncols X_all) with (ncols Xs).
    destruct (Nat.eqb_spec n 0); [unfold n in *; lia|].
    destruct (Nat.eqb_spec (ncols Xs) 0); [lia|].
    cbn [orb]. rewrite Nat.eqb_refl.
    eexists. split; [reflexivity|].
    split; [apply nrows_tabulate | reflexivity]. }
  destruct Hkern as [K [HK [HKr HKc]]].
  assert (HK' : _kernel E self X_all None = Ok K)
    by (unfold _kernel; rewrite Hk; exact HK).
  assert (HLm : exists L, L_matrix (nrows Xs) (nrows Xt) = Ok L
                          /\ nrows L = n /\ ncols L = n).
  { unfold L_matrix.
    destruct (Nat.eqb_spec (nrows Xs) 0); [lia|].
    destruct (Nat.eqb_spec (nrows Xt) 0); [lia|].
    eexists. split; [reflexivity|].
    split; [apply nrows_tabulate | reflexivity]. }
  destruct HLm as [L [HL [HLr HLc]]].
  destruct (@madd_Ok K (scale (lamb self) (eye n))) as [fr Hreg].
  { unfold scale, eye. rewrite !nrows_tabulate. exact HKr. }
  { unfold scale, eye. rewrite !ncols_tabulate. exact HKc. }
  rewrite HKr, HKc in Hreg.
  exists X_all, K, L, (tabulate n n fr).
  split; [exact Hv|]. split; [exact HK|]. split; [exact HKr|].
  split; [exact HKc|]. split; [exact HL|]. split; [exact Hreg|].
  assert (Hinvarg : inv_argument E self (Arr2 Xs) (Arr2 Xt)
                    = Ok (tabulate n n fr)).
  { unfold inv_argument. rewrite Hv. cbn [rbind len].
    rewrite HK'. cbn [rbind]. rewrite HL. cbn [rbind]. exact Hreg. }
  split; [exact Hinvarg|].
  assert (Hinv : np_linalg_inv E (tabulate n n fr)
                 = match inv_entries E (tabulate n n fr) with
                   | Some inv => Ok (tabulate n n inv)
                   | None => Raise LinAlgError
                   end).
  { unfold np_linalg_inv.
    rewrite nrows_tabulate, ncols_tabulate, Nat.eqb_refl. reflexivity. }
  assert (Heigarg : eigh_argument E self (Arr2 Xs) (Arr2 Xt)
                    = (K_inv <- np_linalg_inv E (tabulate n n fr) ;;
                       Kc <- matmul K_inv K ;;
                       KcL <- matmul Kc L ;;
                       matmul KcL Kc)%result).
  { unfold eigh_argument. rewrite Hv. cbn [rbind len].
    rewrite HK'. cbn [rbind]. rewrite HL. cbn [rbind].
    fold n. rewrite Hreg. reflexivity. }
  assert (Hfit : fit_transform E self (Arr2 Xs) (Arr2 Xt)
                 = (K_inv <- np_linalg_inv E (tabulate n n fr) ;;
                    Kc <- matmul K_inv K ;;
                    KcL <- matmul Kc L ;;
                    KcLKc <- matmul KcL Kc ;;
                    '(eigvals, eigvecs) <- np_linalg_eigh E KcLKc ;;
                    let idx :=
                      firstn (dim self) (argsort (map Qopp eigvals)) in
                    W <- take_columns eigvecs idx ;;
                    Z <- matmul K W ;;
                    Ok (mkMatrix (ncols Z) (firstn (nrows Xs) (rows Z))))
                   %result).
  { unfold fit_transform. rewrite Hv. cbn [rbind len].
    rewrite HK'. cbn [rbind]. rewrite HL. cbn [rbind].
    fold n. rewrite Hreg. reflexivity. }
  rewrite Heigarg, Hfit, Hinv.
  destruct (inv_entries E (tabulate n n fr)) as [inv|]; [|auto].
  cbn [rbind].
  destruct (@matmul_Ok (tabulate n n inv) K) as [f1 H1];
    [rewrite HKr; reflexivity|].
  rewrite nrows_tabulate, HKc in H1.
  destruct (@matmul_Ok (tabulate n n f1) L) as [f2 H2];
    [rewrite HLr; reflexivity|].
  rewrite nrows_tabulate, HLc in H2.
  destruct (@matmul_Ok (tabulate n n f2) (tabulate n n f1)) as [f3 H3];
    [rewrite nrows_tabulate; reflexivity|].
  rewrite nrows_tabulate, ncols_tabulate in H3.
  exists (tabulate n n inv), (tabulate n n f1), (tabulate n n f2),
    (tabulate n n f3).
  split; [reflexivity|]. split; [reflexivity|]. split; [exact H1|].
  split; [exact H2|]. split; [exact H3|].
  rewrite H1. cbn [rbind]. rewrite H2. cbn [rbind]. rewrite H3.
  split; [reflexivity|]. cbn [rbind].
  assert (Heig : np_linalg_eigh E (tabulate n n f3)
                 = match eigh_entries E (tabulate n n f3) with
                   | Some (vals, vecs) =>
                       Ok (map vals (seq 0 n), tabulate n n vecs)
                   | None => Raise LinAlgError
                   end).
  { unfold np_linalg_eigh.
    rewrite nrows_tabulate, ncols_tabulate, Nat.eqb_refl.
    destruct (eigh_entries E (tabulate n n f3)) as [[vals vecs]|];
      reflexivity. }
  rewrite Heig.
  destruct (eigh_entries E (tabulate n n f3)) as [[vals vecs]|]; [|auto].
  cbn [rbind].
  set (eigvals := map vals (seq 0 n)).
  set (idx := firstn (dim self) (argsort (map Qopp eigvals))).
  assert (Hlv : length (map Qopp eigvals) = n)
    by (unfold eigvals; rewrite !length_map; apply length_seq).
  assert (Hidx : forall j, In j idx -> j < n).
  { intros j Hj. apply firstn_In in Hj. apply argsort_In in Hj. lia. }
  assert (Hli : length idx = Nat.min (dim self) n).
  { unfold idx. rewrite length_firstn, argsort_length, Hlv. reflexivity. }
  pose proof (@take_columns_Ok (tabulate n n vecs) idx Hidx) as HW.
  set (W := mkMatrix (length idx)
              (map (fun r => map (fun j => nth j r 0%Q) idx)
                   (rows (tabulate n n vecs)))) in *.
  assert (HWr : nrows W = n).
  { unfold W, nrows. simpl. rewrite !length_map. apply length_seq. }
  destruct (@matmul_Ok K W) as [f4 H4]; [rewrite HWr; exact HKc|].
  exists eigvals, (tabulate n n vecs), W, (tabulate (nrows K) (ncols W) f4).
  split; [reflexivity|]. split; [reflexivity|]. split; [reflexivity|].
  split; [exact HW|]. split; [exact H4|].
  split; [rewrite nrows_tabulate; exact HKr|].
  split; [rewrite ncols_tabulate; unfold W; simpl; exact Hli|].
  split; [apply wf_tabulate|].
  rewrite HW. cbn [rbind]. rewrite H4. reflexivity.
Qed.


(** With an inversion and an eigen-decomposition that succeed on what
    the call hands to them, [fit_transform] returns the first [ns] rows
    of the projection. *)
Lemma fit_transform_Ok (self : TCA) (Xs Xt : matrix) :
  kernel_type self = rbf ->
  0 < nrows Xs -> 0 < nrows Xt -> ncols Xt = ncols Xs -> 0 < ncols Xs ->
  inversion_succeeds E self (Arr2 Xs) (Arr2 Xt) ->
  decomposition_succeeds E self (Arr2 Xs) (Arr2 Xt) ->
  exists Z,
    nrows Z = nrows Xs + nrows Xt
    /\ ncols Z = Nat.min (dim self) (nrows Xs + nrows Xt)
    /\ wf Z
    /\ fit_transform E self (Arr2 Xs) (Arr2 Xt)
       = Ok (mkMatrix (ncols Z) (firstn (nrows Xs) (rows Z))).
Proof.
  intros Hk Hs Ht Hc Hw Hinv Heig.
  destruct (@fit_transform_stages self Xs Xt Hk Hs Ht Hc Hw)
    as [X_all [K [L [K_reg [_ [_ [_ [_ [_ [_ [Harg Hrest]]]]]]]]]]].
  specialize (Hinv K_reg Harg).
  destruct (inv_entries E K_reg) as [inv|]; [|congruence].
  destruct Hrest as [K_inv [Kc [KcL [M [_ [_ [_ [_ [_ [HM Hrest]]]]]]]]]].
  specialize (Heig M HM).
  destruct (eigh_entries E M) as [[vals vecs]|]; [|congruence].
  destruct Hrest
    as [eigvals [eigvecs [W [Z [_ [_ [_ [_ [_ [HZr [HZc [HZw Hrun]]]]]]]]]]]].
  exists Z. auto.
Qed.


(** The claim of C7 fails when the two sets have fewer than [target_dim]
    vectors together: one source and one target vector give two columns,
    not ten. *)
Lemma fit_transform_two_vectors :
  exists out,
    fit_transform (np := stable) toy_externals (mkTCA 10 rbf 1 (4 # 10))
                  (Arr2 one_source) (Arr2 one_target) = Ok out
    /\ nrows out = 1
    /\ ncols out = 2
    /\ ncols out <> dim (mkTCA 10 rbf 1 (4 # 10)).
Proof.
  eexists. split; [vm_compute; reflexivity|].
  split; [reflexivity|]. split; [reflexivity|]. vm_compute. discriminate.
Qed.

(** C7, amended.  With the radial-basis kernel, for a non-empty source set
    and a non-empty target set of vectors of one width, of at least one
    component, and when the inversion and the eigen-decomposition of the
    call succeed, [fit_transform] returns the first [ns] rows of the
    projection [Z = K @ W], where [K] is the kernel matrix of the stacked
    sets and the columns of [W] are the eigenvectors of [Kc @ L @ Kc],
    [Kc = inv(K + lamb * I) @ K], at the first [target_dim] places of the
    order of decreasing eigenvalues: [ns] rows, and as many columns as
    eigenvectors are selected, [min (target_dim, ns + nt)]; that is
    [target_dim] columns as soon as the two sets have [target_dim] vectors
    together. *)
Theorem fit_transform_shape (self : TCA) (Xs Xt : matrix) :
  kernel_type self = rbf ->
  0 < nrows Xs -> 0 < nrows Xt -> ncols Xt = ncols Xs -> 0 < ncols Xs ->
  inversion_succeeds E self (Arr2 Xs) (Arr2 Xt) ->
  decomposition_succeeds E self (Arr2 Xs) (Arr2 Xt) ->
  exists X_all K L K_reg K_inv Kc KcL M eigvals eigvecs W Z out,
    np_vstack [Arr2 Xs; Arr2 Xt] = Ok X_all
    /\ rbf_kernel E X_all X_all (gamma self) = Ok K
    /\ L_matrix (nrows Xs) (nrows Xt) = Ok L
    /\ madd K (scale (lamb self) (eye (nrows Xs + nrows Xt))) = Ok K_reg
    /\ np_linalg_inv E K_reg = Ok K_inv
    /\ matmul K_inv K = Ok Kc
    /\ matmul Kc L = Ok KcL
    /\ matmul KcL Kc = Ok M
    /\ np_linalg_eigh E M = Ok (eigvals, eigvecs)
    /\ take_columns eigvecs
         (firstn (dim self) (argsort (map Qopp eigvals))) = Ok W
    /\ matmul K W = Ok Z
    /\ fit_transform E self (Arr2 Xs) (Arr2 Xt) = Ok out
    /\ rows out = firstn (nrows Xs) (rows Z)
    /\ nrows out = nrows Xs
    /\ ncols out = Nat.min (dim self) (nrows Xs + nrows Xt)
    /\ wf out
    /\ (dim self <= nrows Xs + nrows Xt -> ncols out = dim self).
Proof.
  intros Hk Hs Ht Hc Hw Hinv Heig.
  destruct (@fit_transform_stages self Xs Xt Hk Hs Ht Hc Hw)
    as [X_all [K [L [K_reg [Hv [HK [_ [_ [HL [Hreg [Harg Hrest]]]]]]]]]]].
  specialize (Hinv K_reg Harg).
  destruct (inv_entries E K_reg) as [inv|]; [|congruence].
  destruct Hrest
    as [K_inv [Kc [KcL [M [HKi [_ [HKc [HKcL [HM [Hearg Hrest]]]]]]]]]].
  specialize (Heig M Hearg).
  destruct (eigh_entries E M) as [[vals vecs]|]; [|congruence].
  destruct Hrest
    as [eigvals [eigvecs [W [Z [He [_ [_ [HW [HZ [HZr [HZc [HZw Hrun]]]]]]]]]]]].
  exists X_all, K, L, K_reg, K_inv, Kc, KcL, M, eigvals, eigvecs, W, Z,
    (mkMatrix (ncols Z) (firstn (nrows Xs) (rows Z))).
  repeat (split; [assumption|]).
  split; [reflexivity|]. split; [|split; [|split]].
  - unfold nrows in *. simpl. rewrite length_firstn. lia.
  - simpl. exact HZc.
  - apply wf_firstn_rows, HZw.
  - intros Hd. simpl. rewrite HZc. lia.
Qed.

End TransferFacts.

(** Two source and nine target vectors of three components under the
    driver's configuration: two rows of ten columns. *)
Lemma fit_transform_shape_witness :
  exists out,
    fit_transform (np := stable) toy_externals (mkTCA 10 rbf 1 (4 # 10))
                  (Arr2 two_sources) (Arr2 nine_targets) = Ok out
    /\ nrows out = 2 /\ ncols out = 10.
Proof.
  destruct (@fit_transform_shape toy_externals stable stable_sorts
              (mkTCA 10 rbf 1 (4 # 10)) two_sources nine_targets)
    as [X_all [K [L [K_reg [K_inv [Kc [KcL [M [eigvals [eigvecs [W [Z [out
        [_ [_ [_ [_ [_ [_ [_ [_ [_ [_ [_ [Hrun [_ [Hr [Hc _]]]]]]]]]]]]]]]]]]]]]]]]]]]].
  - reflexivity.
  - vm_compute. lia.
  - vm_compute. lia.
  - reflexivity.
  - vm_compute. lia.
  - intros M _. discriminate.
  - intros M _. discriminate.
  - exists out. split; [exact Hrun|]. split; [exact Hr | exact Hc].
Defined.

(** ** The driver *)

Section DriverFacts.
Variable E : Externals.

Lemma bind_Ok {A B} (c : Run E A) (k : A -> Run E B) s a s' :
  c s = Ok (a, s') -> bind c k s = k a s'.
Proof. intros H. unfold bind. rewrite H. reflexivity. Qed.

Lemma bind_Raise {A B} (c : Run E A) (k : A -> Run E B) s e :
  c s = Raise e -> bind c k s = Raise e.
Proof. intros H. unfold bind. rewrite H. reflexivity. Qed.

Lemma bind_Ok_inv {A B} (c : Run E A) (k : A -> Run E B) s b s2 :
  bind c k s = Ok (b, s2) ->
  exists a s1, c s = Ok (a, s1) /\ k a s1 = Ok (b, s2).
Proof.
  unfold bind. destruct (c s) as [[a s1]|e]; [|discriminate].
  intros H. exists a, s1. split; [reflexivity | exact H].
Qed.

Lemma lift_Ok_inv {A} (c : result A) s a s' :
  lift E c s = Ok (a, s') -> c = Ok a /\ s' = s.
Proof.
  unfold lift. destruct c; [|discriminate].
  intros H. inversion H. split; reflexivity.
Qed.

Lemma sample_Ok {A} (d : dist A) s :
  d <> [] -> exists a s', sample E d s = Ok (a, s') /\ In a d.
Proof.
  intros Hd. unfold sample. destruct (rand_nat E s) as [k s'].
  assert (Hlt : k mod length d < length d).
  { apply Nat.mod_upper_bound. destruct d; [congruence | discriminate]. }
  destruct (nth_error d (k mod length d)) as [a|] eqn:En.
  - exists a, s'. split; [reflexivity|]. eapply nth_error_In. exact En.
  - apply nth_error_None in En. lia.
Qed.

Lemma np_random_uniform_Ok low high r c s :
  (0 <= r)%Z ->
  broadcastable (length low) c = true ->
  broadcastable (length high) c = true ->
  exists f s',
    np_random_uniform E low high r c s = Ok (tabulate (Z.to_nat r) c f, s').
Proof.
  intros Hr Hl Hh. unfold np_random_uniform.
  destruct (Z.ltb_spec r 0); [lia|]. rewrite Hl, Hh. simpl.
  destruct (rand_units E s) as [u s']. eexists. eexists. reflexivity.
Qed.

Lemma np_random_uniform_Broadcast low high r c s :
  (0 <= r)%Z ->
  broadcastable (length low) c && broadcastable (length high) c = false ->
  np_random_uniform E low high r c s = Raise (ValueError Broadcast).
Proof.
  intros Hr Hb. unfold np_random_uniform.
  destruct (Z.ltb_spec r 0); [lia|]. rewrite Hb. reflexivity.
Qed.

Lemma np_random_uniform_Ok_inv low high r c s M s' :
  np_random_uniform E low high r c s = Ok (M, s') ->
  (0 <= r)%Z /\ nrows M = Z.to_nat r /\ ncols M = c.
Proof.
  unfold np_random_uniform.
  destruct (Z.ltb_spec r 0); [discriminate|].
  destruct (broadcastable (length low) c && broadcastable (length high) c);
    [|discriminate].
  destruct (rand_units E s) as [u s1]. intros Heq. inversion Heq. subst.
  split; [assumption|]. split; [apply nrows_tabulate | reflexivity].
Qed.

End DriverFacts.

Lemma Qsum_cons x l : (Qsum (x :: l) == x + Qsum l)%Q.
Proof. unfold Qsum at 1. simpl. rewrite Qsum_from. ring. Qed.

Lemma Qlt_bool_iff a b : Qlt_bool a b = true <-> (a < b)%Q.
Proof.
  unfold Qlt_bool. rewrite negb_true_iff.
  split; intros H.
  - apply Qnot_le_lt. intros Hle. apply Qle_bool_iff in Hle. congruence.
  - destruct (Qle_bool b a) eqn:E; [|reflexivity].
    apply Qle_bool_iff in E. exfalso. exact (Qlt_not_le _ _ H E).
Qed.

Lemma all_le_sum : forall a b,
  length a = length b ->
  forallb (fun '(x, y) => Qle_bool x y) (combine a b) = true ->
  (Qsum a <= Qsum b)%Q.
Proof.
  induction a as [|x a IH]; intros [|y b] Hl H; simpl in Hl; try discriminate Hl.
  - apply Qle_refl.
  - simpl in H. apply andb_true_iff in H. destruct H as [Hxy H].
    apply Qle_bool_iff in Hxy. rewrite !Qsum_cons.
    apply Qplus_le_compat; [exact Hxy|]. apply IH; [lia | exact H].
Qed.

(** A vector that dominates another has a smaller sum of objectives. *)
Lemma dominates_sum : forall a b,
  length a = length b -> dominates a b = true -> (Qsum a < Qsum b)%Q.
Proof.
  unfold dominates.
  induction a as [|x a IH]; intros [|y b] Hl H; simpl in Hl; try discriminate Hl.
  - simpl in H. discriminate.
  - simpl in H. apply andb_true_iff in H. destruct H as [Hall Hex].
    apply andb_true_iff in Hall. destruct Hall as [Hxy Hall].
    apply Qle_bool_iff in Hxy. rewrite !Qsum_cons.
    apply orb_true_iff in Hex. destruct Hex as [Hlt|Hex].
    + apply Qlt_bool_iff in Hlt.
      apply Qplus_lt_le_compat; [exact Hlt|].
      apply all_le_sum; [lia | exact Hall].
    + rewrite (Qplus_comm x), (Qplus_comm y).
      apply Qplus_lt_le_compat; [|exact Hxy].
      apply IH; [lia|]. rewrite Hall, Hex. reflexivity.
Qed.

Lemma non_dominated_front_lt F i :
  In i (non_dominated_front F) -> i < nrows F.
Proof.
  unfold non_dominated_front. intros H. apply filter_In in H.
  destruct H as [H _]. apply in_seq in H. lia.
Qed.

(** A non-empty set of objective vectors has a non-dominated member: one
    of least sum. *)
Lemma non_dominated_front_nonempty F :
  wf F -> 0 < nrows F -> non_dominated_front F <> [].
Proof.
  intros Hwf Hn.
  set (sums := map Qsum (rows F)).
  assert (Hls : length sums = nrows F) by apply length_map.
  set (i0 := nth 0 (stable_argsort sums) 0).
  assert (Hi0 : i0 < nrows F).
  { unfold i0. rewrite <- Hls.
    apply (@argsort_nth_lt stable stable_sorts). lia. }
  assert (Hnth : forall j, nth j sums 0%Q = Qsum (nth j (rows F) [])).
  { intros j. unfold sums. apply (map_nth Qsum (rows F) []). }
  assert (Hin : In i0 (non_dominated_front F)).
  { unfold non_dominated_front. apply filter_In.
    split; [apply in_seq; lia|]. apply negb_true_iff.
    destruct (existsb _ _) eqn:Ex; [|reflexivity]. exfalso.
    apply existsb_exists in Ex. destruct Ex as [j [Hj Hd]].
    apply in_seq in Hj.
    apply dominates_sum in Hd.
    - rewrite <- !Hnth in Hd.
      destruct (@argsort_extremes stable stable_sorts sums j) as [Hmin _];
        [lia|].
      fold i0 in Hmin. exact (Qlt_not_le _ _ Hd Hmin).
    - unfold wf in Hwf. rewrite Forall_forall in Hwf.
      rewrite !Hwf by (apply nth_In; unfold nrows in *; lia). reflexivity. }
  intros E0. rewrite E0 in Hin. exact Hin.
Qed.

Section SubsetShape.
Context {np : Argsort} {np_sorts : ArgsortSorts np}.

Lemma select_subset_shape problem d saved max_elements :
  rectangular d saved -> saved <> [] -> evaluates problem saved ->
  exists M,
    select_subset saved problem max_elements = Ok (Arr2 M)
    /\ ncols M = d
    /\ nrows M = Nat.min (length saved) max_elements.
Proof.
  intros Hrect Hne Hev.
  assert (Hpos : 0 < length saved) by (destruct saved; [congruence | simpl; lia]).
  destruct (Nat.le_gt_cases (length saved) max_elements) as [Hle|Hgt].
  - exists (mkMatrix d saved). split; [|split].
    + apply select_subset_small; [exact Hrect | lia].
    + reflexivity.
    + unfold nrows. simpl. lia.
  - destruct (@select_subset_large _ _ problem max_elements d saved Hrect Hgt Hev)
      as [idx [Hrun [Hlen _]]].
    exists (mkMatrix d (map (fun i => nth i saved []) idx)).
    split; [exact Hrun|]. split; [reflexivity|].
    unfold nrows. simpl. rewrite length_map. lia.
Qed.

End SubsetShape.

Lemma np_vstack_three A B C :
  ncols B = ncols A -> ncols C = ncols A ->
  np_vstack [Arr2 A; Arr2 B; Arr2 C]
  = Ok (mkMatrix (ncols A) ((rows A ++ rows B) ++ rows C)).
Proof.
  intros H1 H2. unfold np_vstack. simpl.
  rewrite H1, Nat.eqb_refl. simpl. rewrite H2, Nat.eqb_refl. reflexivity.
Qed.

Lemma evaluates_wf problem saved :
  evaluates problem saved ->
  wf (mkMatrix (n_obj problem) (map (objective_values problem) saved)).
Proof.
  intros Hev. unfold wf. simpl. apply Forall_forall. intros r Hr.
  apply in_map_iff in Hr. destruct Hr as [x [<- Hx]].
  destruct (Hev x Hx) as [f [Hf Hl]].
  unfold objective_values. rewrite Hf. exact Hl.
Qed.

Lemma wf_take_rows M idx :
  wf M -> (forall i, In i idx -> i < nrows M) ->
  wf (mkMatrix (ncols M) (map (fun i => nth i (rows M) []) idx)).
Proof.
  intros Hwf Hidx. unfold wf in *. simpl. rewrite Forall_forall in *.
  intros r Hr. apply in_map_iff in Hr. destruct Hr as [i [<- Hi]].
  apply Hwf, nth_In, Hidx, Hi.
Qed.

Lemma NoDup_map_nth (l : list nat) (idx : list nat) :
  NoDup l -> NoDup idx -> (forall i, In i idx -> i < length l) ->
  NoDup (map (fun i => nth i l 0) idx).
Proof.
  intros Hl Hidx Hlt. induction Hidx as [|i idx Hi Hnd IH]; simpl.
  - constructor.
  - constructor.
    + intros Hin. apply in_map_iff in Hin. destruct Hin as [j [Hj Hin]].
      apply Hi.
      assert (E : j = i).
      { apply (proj1 (NoDup_nth l 0) Hl);
          [apply Hlt; right; exact Hin | apply Hlt; left; reflexivity
          | exact Hj]. }
      subst j. exact Hin.
    + apply IH. intros j Hj. apply Hlt. right. exact Hj.
Qed.

Lemma non_dominated_front_NoDup F : NoDup (non_dominated_front F).
Proof. unfold non_dominated_front. apply NoDup_filter, seq_NoDup. Qed.

Section SeedFacts.
Variable E : Externals.
Context {np : Argsort} {np_sorts : ArgsortSorts np}.

Lemma bind_lift_Ok {A B} (a : A) (k : A -> Run E B) s :
  bind (lift E (Ok a)) k s = k a s.
Proof. reflexivity. Qed.

(** The seed before the fill, for an archive and a problem of ten
    variables: the vectors at [k_t] drawn places of the transferred
    population, 20 random points, and the archive members at [k_e] places
    of its non-dominated front. *)
Lemma final_initial_population_Ok saved problem s :
  length (xl problem) = 10 -> length (xu problem) = 10 ->
  saved <> [] -> rectangular 10 saved -> evaluates problem saved ->
  transfer_succeeds E saved problem s ->
  exists target s1 subset transferred draw s2 random20 s3 F_nd_front cd
         elites,
    np_random_uniform E (xl problem) (xu problem) 50 10 s = Ok (target, s1)
    /\ select_subset saved problem 100 = Ok subset
    /\ transfer_solutions E subset (Arr2 target) = Ok transferred
    /\ nrows transferred = Nat.min (length saved) 100
    /\ ncols transferred = 10
    /\ NoDup draw
    /\ length draw = Nat.min 40 (nrows transferred)
    /\ (forall i, In i draw -> i < nrows transferred)
    /\ np_random_uniform E (xl problem) (xu problem) 20 10 s2
       = Ok (random20, s3)
    /\ nrows random20 = 20 /\ ncols random20 = 10
    /\ take_rows (objectives_of problem saved)
         (non_dominated_front (objectives_of problem saved)) = Ok F_nd_front
    /\ crowding_distance F_nd_front = Ok cd
    /\ elites
       = map (fun i => nth i (non_dominated_front
                                (objectives_of problem saved)) 0)
           (firstn 40 (argsort_ext (map ext_opp cd)))
    /\ NoDup elites
    /\ length elites
       = Nat.min 40 (length (non_dominated_front (objectives_of problem saved)))
    /\ (forall i, In i elites ->
          In i (non_dominated_front (objectives_of problem saved)))
    /\ 1 <= length elites <= 40
    /\ (forall i, In i elites -> i < length saved)
    /\ final_initial_population E saved problem s
       = Ok (mkMatrix 10
               (map (fun i => nth i (rows transferred) []) draw
                ++ rows random20
                ++ map (fun i => nth i saved []) elites), s3).
Proof.
  intros Hxl Hxu Hne Hrect Hev Htr.
  assert (Hpos : 0 < length saved)
    by (destruct saved; [congruence | simpl; lia]).
  unfold final_initial_population.
  (* the random target population *)
  destruct (@np_random_uniform_Ok E (xl problem) (xu problem) 50 10 s)
    as [f1 [s1 H1]]; [lia | rewrite Hxl; reflexivity
                      | rewrite Hxu; reflexivity |].
  rewrite (@bind_Ok E _ _ _ _ _ _ _ H1).
  set (target := tabulate (Z.to_nat 50) 10 f1) in *.
  (* the subset of the archive and its transfer *)
  destruct (@select_subset_shape _ _ problem 10 saved 100 Hrect Hne Hev)
    as [Msub [Hsub [Hsubc Hsubr]]].
  destruct (Htr target s1 (Arr2 Msub) H1 Hsub) as [Hinv Heig].
  rewrite Hsub, bind_lift_Ok.
  destruct (@fit_transform_Ok E _ _ transfer_tca Msub target)
    as [Z [HZr [HZc [_ Hfit]]]]; auto.
  { lia. }
  { unfold target. rewrite nrows_tabulate. lia. }
  { lia. }
  set (transferred := mkMatrix (ncols Z) (firstn (nrows Msub) (rows Z))).
  assert (Htrans : transfer_solutions E (Arr2 Msub) (Arr2 target)
                   = Ok transferred) by exact Hfit.
  rewrite Htrans, bind_lift_Ok.
  assert (Htrr : nrows transferred = nrows Msub).
  { unfold transferred, nrows in *. simpl. rewrite length_firstn. lia. }
  assert (Htc : ncols transferred = 10).
  { unfold transferred. simpl. rewrite HZc. unfold target.
    rewrite nrows_tabulate. simpl dim. lia. }
  (* the elites *)
  rewrite (evaluate_saved_Ok Hev), bind_lift_Ok.
  change (mkMatrix (n_obj problem) (map (objective_values problem) saved))
    with (objectives_of problem saved).
  set (F_saved := objectives_of problem saved).
  assert (HFwf : wf F_saved) by (apply evaluates_wf, Hev).
  assert (HFr : nrows F_saved = length saved)
    by (unfold nrows, F_saved, objectives_of; simpl; apply length_map).
  set (nds := non_dominated_front F_saved).
  assert (Hnds : forall i, In i nds -> i < length saved).
  { intros i Hi. rewrite <- HFr. apply non_dominated_front_lt, Hi. }
  assert (Hnds0 : 0 < length nds).
  { pose proof (@non_dominated_front_nonempty F_saved HFwf) as Hn.
    fold nds in Hn. destruct nds; [exfalso; apply Hn; [lia | reflexivity]|].
    simpl. lia. }
  assert (Hnp : np_array saved = Ok (Arr2 (mkMatrix 10 saved))).
  { destruct saved; [congruence|]. apply np_array_rectangular, Hrect. }
  rewrite Hnp, bind_lift_Ok. unfold fancy_index at 1.
  rewrite (@take_rows_Ok (mkMatrix 10 saved) nds)
    by (intros i Hi; unfold nrows; simpl; auto).
  cbn [rbind]. rewrite bind_lift_Ok.
  rewrite (@take_rows_Ok F_saved nds) by (intros i Hi; rewrite HFr; auto).
  rewrite bind_lift_Ok.
  set (F_nd_front := mkMatrix (ncols F_saved)
                       (map (fun i => nth i (rows F_saved) []) nds)).
  assert (HNwf : wf F_nd_front).
  { apply wf_take_rows; [exact HFwf|]. intros i Hi. rewrite HFr. auto. }
  assert (HNr : nrows F_nd_front = length nds)
    by (unfold nrows, F_nd_front; simpl; apply length_map).
  destruct (@crowding_distance_spec _ _ F_nd_front HNwf)
    as [cd [Hcd [Hcdl _]]]; [lia|].
  rewrite Hcd, bind_lift_Ok.
  set (sel := firstn 40 (argsort_ext (map ext_opp cd))).
  assert (Hsel : forall i, In i sel -> i < length nds).
  { intros i Hi. apply firstn_In in Hi. apply argsort_ext_In in Hi.
    rewrite length_map in Hi. lia. }
  assert (Hsell : length sel = Nat.min 40 (length nds)).
  { unfold sel. rewrite length_firstn, argsort_ext_length, length_map. lia. }
  assert (Hselnd : NoDup sel)
    by (apply NoDup_firstn, argsort_ext_NoDup).
  unfold fancy_index.
  rewrite take_rows_Ok
    by (intros i Hi; unfold nrows; simpl; rewrite length_map; auto).
  cbn [rbind]. rewrite bind_lift_Ok.
  (* the draw among the transferred vectors *)
  destruct (@sample_Ok E _
              (np_random_choice (nrows transferred)
                 (Nat.min 40 (nrows transferred))) s1)
    as [draw [s2 [Hdraw Hin]]].
  { apply arrangements_nonempty; [apply seq_NoDup | rewrite length_seq; lia]. }
  rewrite (@bind_Ok E _ _ _ _ _ _ _ Hdraw).
  apply arrangements_spec in Hin. destruct Hin as [Hdnd [Hdl Hdlt]].
  assert (Hdlt' : forall i, In i draw -> i < nrows transferred)
    by (intros i Hi; specialize (Hdlt i Hi); apply in_seq in Hdlt; lia).
  rewrite take_rows_Ok by exact Hdlt'.
  rewrite bind_lift_Ok.
  (* the random points and the stacking *)
  destruct (@np_random_uniform_Ok E (xl problem) (xu problem) 20 10 s2)
    as [f2 [s3 H2]]; [lia | rewrite Hxl; reflexivity
                      | rewrite Hxu; reflexivity |].
  rewrite (@bind_Ok E _ _ _ _ _ _ _ H2).
  rewrite np_vstack_three by (cbn [ncols tabulate]; rewrite Htc; reflexivity).
  exists target, s1, (Arr2 Msub), transferred, draw, s2,
    (tabulate (Z.to_nat 20) 10 f2), s3, F_nd_front, cd,
    (map (fun i => nth i nds 0) sel).
  split; [exact H1|]. split; [reflexivity|]. split; [exact Htrans|].
  split; [rewrite Htrr; exact Hsubr|]. split; [exact Htc|].
  split; [exact Hdnd|]. split; [exact Hdl|]. split; [exact Hdlt'|].
  split; [exact H2|].
  split; [apply nrows_tabulate|]. split; [reflexivity|].
  split; [reflexivity|].
  split; [exact Hcd|]. split; [reflexivity|].
  split; [apply NoDup_map_nth;
          [apply non_dominated_front_NoDup | exact Hselnd | exact Hsel]|].
  split; [rewrite length_map, Hsell; reflexivity|].
  split.
  { intros i Hi. apply in_map_iff in Hi. destruct Hi as [j [<- Hj]].
    apply nth_In, Hsel, Hj. }
  split; [rewrite length_map, Hsell; lia|].
  split.
  { intros i Hi. apply in_map_iff in Hi. destruct Hi as [j [<- Hj]].
    apply Hnds, nth_In, Hsel, Hj. }
  cbn [lift ncols rows]. rewrite Htc. do 3 f_equal.
  rewrite <- app_assoc. do 2 f_equal.
  rewrite map_map. apply map_ext_in. intros i Hi.
  rewrite (nth_indep _ [] (nth 0 saved [])).
  2:{ rewrite length_map. apply Hsel, Hi. }
  rewrite (map_nth (fun j => nth j saved []) nds 0 i). reflexivity.
Qed.


(** With a non-empty archive and a problem of ten variables the seed is
    built. *)
Lemma seed_population_Ok saved problem s :
  n_var problem = 10 ->
  length (xl problem) = 10 -> length (xu problem) = 10 ->
  saved <> [] -> rectangular 10 saved -> evaluates problem saved ->
  transfer_succeeds E saved problem s ->
  exists full_sampling s',
    seed_population E saved problem s = Ok (full_sampling, s').
Proof.
  intros Hn Hxl Hxu Hne Hrect Hev Htr.
  destruct (@final_initial_population_Ok saved problem s
              Hxl Hxu Hne Hrect Hev Htr)
    as (target & s1 & subset & transferred & draw & s2 & random20 & s3
        & F_nd_front & cd & elites
        & _ & _ & _ & _ & _ & _ & Hdl & _ & _ & H2r & _ & _ & _ & _ & _ & _
        & _ & Heb & _ & Hfin).
  unfold seed_population. rewrite (@bind_Ok E _ _ _ _ _ _ _ Hfin).
  cbv zeta.
  match goal with
  | |- context [nrows ?final] =>
      assert (Hfr : nrows final = length draw + 20 + length elites)
  end.
  { unfold nrows at 1. cbn [rows].
    rewrite !length_app, !length_map. fold (nrows random20). lia. }
  rewrite Hfr.
  match goal with
  | |- context [np_random_uniform E _ _ ?n _] =>
      destruct (@np_random_uniform_Ok E (xl problem) (xu problem) n
                  (n_var problem) s3) as [f [s4 Hfill]]
  end.
  { unfold population_size. lia. }
  { rewrite Hxl, Hn. reflexivity. }
  { rewrite Hxu, Hn. reflexivity. }
  rewrite (@bind_Ok E _ _ _ _ _ _ _ Hfill).
  rewrite np_vstack_two by (cbn [ncols tabulate]; congruence).
  eexists. eexists. reflexivity.
Qed.

(** C2, amended.  On a non-initial step, for a non-empty archive of any
    size of vectors of ten variables and a problem of ten variables that
    evaluates them, and when numpy raises on neither the inversion nor the
    eigen-decomposition of this call of [transfer_solutions], the seed
    handed to the optimiser has exactly [population_size] rows of ten
    columns.  These rows are, in this order: the vectors at [k_t] distinct
    drawn places of the population transferred from the subset of the
    archive ([k_t] is 40, or the size of the archive when it is smaller),
    the 20 rows of a random population, the archive members at [k_e]
    distinct places of the non-dominated front of the archive, the first
    in the order of decreasing crowding distance ([k_e] is 40, or the size
    of that front when it is smaller, and at least 1), and the
    [population_size - k_t - 20 - k_e] rows of a second random population
    drawn for that number of rows. *)
Theorem seed_population_size saved problem s :
  n_var problem = 10 ->
  length (xl problem) = 10 -> length (xu problem) = 10 ->
  saved <> [] -> rectangular 10 saved -> evaluates problem saved ->
  transfer_succeeds E saved problem s ->
  exists target s1 subset transferred draw s2 random20 s3 F_nd_front cd
         elites random_fill s' full_sampling,
    np_random_uniform E (xl problem) (xu problem) 50 10 s = Ok (target, s1)
    /\ select_subset saved problem 100 = Ok subset
    /\ transfer_solutions E subset (Arr2 target) = Ok transferred
    /\ nrows transferred = Nat.min (length saved) 100
    /\ NoDup draw
    /\ length draw = Nat.min 40 (Nat.min (length saved) 100)
    /\ (forall i, In i draw -> i < nrows transferred)
    /\ np_random_uniform E (xl problem) (xu problem) 20 10 s2
       = Ok (random20, s3)
    /\ nrows random20 = 20
    /\ take_rows (objectives_of problem saved)
         (non_dominated_front (objectives_of problem saved)) = Ok F_nd_front
    /\ crowding_distance F_nd_front = Ok cd
    /\ elites
       = map (fun i => nth i (non_dominated_front
                                (objectives_of problem saved)) 0)
           (firstn 40 (argsort_ext (map ext_opp cd)))
    /\ NoDup elites
    /\ length elites
       = Nat.min 40 (length (non_dominated_front (objectives_of problem saved)))
    /\ (forall i, In i elites ->
          In i (non_dominated_front (objectives_of problem saved)))
    /\ 1 <= length elites <= 40
    /\ np_random_uniform E (xl problem) (xu problem)
         (Z.of_nat population_size
          - Z.of_nat (length draw + 20 + length elites))
         (n_var problem) s3
       = Ok (random_fill, s')
    /\ nrows random_fill
       = population_size - (length draw + 20 + length elites)
    /\ seed_population E saved problem s = Ok (full_sampling, s')
    /\ rows full_sampling
       = map (fun i => nth i (rows transferred) []) draw
         ++ rows random20
         ++ map (fun i => nth i saved []) elites
         ++ rows random_fill
    /\ nrows full_sampling = population_size
    /\ ncols full_sampling = 10.
Proof.
  intros Hn Hxl Hxu Hne Hrect Hev Htr.
  destruct (@final_initial_population_Ok saved problem s
              Hxl Hxu Hne Hrect Hev Htr)
    as (target & s1 & subset & transferred & draw & s2 & random20 & s3
        & F_nd_front & cd & elites
        & H1 & Hsub & Htrans & Htrr & Htc & Hdnd & Hdl & Hdlt
        & H2 & H2r & H2c & Hnd & Hcd & Hsel & Hend & Hel & Hein & Heb & Helt
        & Hfin).
  unfold seed_population. rewrite (@bind_Ok E _ _ _ _ _ _ _ Hfin).
  cbv zeta.
  set (final := mkMatrix 10
                  (map (fun i => nth i (rows transferred) []) draw
                   ++ rows random20 ++ map (fun i => nth i saved []) elites)).
  assert (Hfr : nrows final = length draw + 20 + length elites).
  { unfold nrows at 1, final. cbn [rows].
    rewrite !length_app, !length_map. fold (nrows random20). lia. }
  rewrite Hfr.
  set (n_needed := (Z.of_nat population_size
                    - Z.of_nat (length draw + 20 + length elites))%Z).
  assert (Hnn : (0 <= n_needed)%Z)
    by (unfold n_needed, population_size; lia).
  destruct (@np_random_uniform_Ok E (xl problem) (xu problem) n_needed
              (n_var problem) s3 Hnn)
    as [f [s4 Hfill]].
  { rewrite Hxl, Hn. reflexivity. }
  { rewrite Hxu, Hn. reflexivity. }
  rewrite (@bind_Ok E _ _ _ _ _ _ _ Hfill).
  rewrite np_vstack_two by (cbn [ncols tabulate final]; congruence).
  set (random_fill := tabulate (Z.to_nat n_needed) (n_var problem) f) in *.
  assert (Hfillr : nrows random_fill
                   = population_size - (length draw + 20 + length elites)).
  { unfold random_fill. rewrite nrows_tabulate.
    unfold n_needed, population_size. lia. }
  exists target, s1, subset, transferred, draw, s2, random20, s3,
    F_nd_front, cd, elites, random_fill, s4,
    (mkMatrix (ncols final) (rows final ++ rows random_fill)).
  split; [exact H1|]. split; [exact Hsub|]. split; [exact Htrans|].
  split; [exact Htrr|]. split; [exact Hdnd|].
  split; [rewrite Hdl, Htrr; reflexivity|]. split; [exact Hdlt|].
  split; [exact H2|]. split; [exact H2r|].
  split; [exact Hnd|]. split; [exact Hcd|]. split; [exact Hsel|].
  split; [exact Hend|].
  split; [exact Hel|]. split; [exact Hein|]. split; [exact Heb|].
  split; [exact Hfill|]. split; [exact Hfillr|].
  split; [reflexivity|]. split.
  { cbn [rows final]. rewrite <- !app_assoc. reflexivity. }
  split; [|reflexivity].
  unfold nrows at 1. cbn [rows]. rewrite length_app.
  fold (nrows final). fold (nrows random_fill).
  rewrite Hfr, Hfillr. unfold population_size. lia.
Qed.

End SeedFacts.

(** The claim of C2 fails for the empty archive, which is within its range
    of sizes: the subset is then the one-dimensional empty array, and the
    transfer step cannot stack it on the ten-column target population. *)
Lemma seed_population_empty_archive :
  length (@nil (list Q)) <= max_save
  /\ n_var (toy_problem 0) = length (xl (toy_problem 0))
  /\ seed_population (np := stable) toy_externals [] (toy_problem 0) 0%nat
     = Raise (ValueError Concatenate).
Proof.
  split; [vm_compute; lia|]. split; [reflexivity|].
  vm_compute. reflexivity.
Qed.

(** The seed for an archive of two vectors. *)
Lemma seed_population_size_witness :
  exists full_sampling s',
    seed_population (np := stable) toy_externals two_vectors (toy_problem 0)
      0%nat
    = Ok (full_sampling, s')
    /\ nrows full_sampling = population_size.
Proof.
  destruct (@seed_population_size toy_externals stable stable_sorts
              two_vectors (toy_problem 0) 0%nat)
    as (target & s1 & subset & transferred & draw & s2 & random20 & s3
        & F_nd_front & cd & elites & fill & s' & full
        & _ & _ & _ & _ & _ & _ & _ & _ & _ & _ & _ & _ & _ & _ & _ & _ & _
        & _ & Hrun & _ & Hr & _).
  - reflexivity.
  - reflexivity.
  - reflexivity.
  - discriminate.
  - repeat constructor.
  - intros x _. eexists. split; reflexivity.
  - intros target s1 subset _ _. split; intros M _; discriminate.
  - exists full, s'. split; [exact Hrun | exact Hr].
Defined.

Lemma vstack_from_ncols : forall l M R,
  vstack_from M l = Ok R ->
  ncols R = ncols M /\ Forall (fun N => ncols N = ncols M) l.
Proof.
  induction l as [|N l IH]; intros M R H; simpl in H.
  - inversion H. subst. split; [reflexivity | constructor].
  - destruct (Nat.eqb_spec (ncols N) (ncols M)) as [En|En]; [|discriminate].
    apply IH in H. simpl in H. destruct H as [H1 H2].
    split; [exact H1|]. constructor; assumption.
Qed.

Lemma np_vstack_two_inv A B R :
  np_vstack [Arr2 A; Arr2 B] = Ok R -> ncols B = ncols A.
Proof.
  unfold np_vstack. simpl map. intros H. apply vstack_from_ncols in H.
  destruct H as [_ H]. inversion H. assumption.
Qed.

Lemma np_vstack_three_inv A B C R :
  np_vstack [Arr2 A; Arr2 B; C] = Ok R -> ncols R = ncols B.
Proof.
  unfold np_vstack. simpl map. intros H. apply vstack_from_ncols in H.
  destruct H as [H1 H]. inversion H. congruence.
Qed.

Section SeedShapeFacts.
Variable E : Externals.
Context {np : Argsort}.

Ltac run_inv H :=
  let a := fresh "a" in
  let s := fresh "s" in
  let Ha := fresh "Ha" in
  apply bind_Ok_inv in H; destruct H as [a [s [Ha H]]].

(** When the seed is built at all before the fill, it has the ten columns
    of its random points. *)
Lemma final_initial_population_ncols saved problem s final s' :
  final_initial_population E saved problem s = Ok (final, s') ->
  ncols final = 10.
Proof.
  intros H. unfold final_initial_population in H.
  do 11 run_inv H.
  run_inv H. rename Ha10 into Hu.
  apply lift_Ok_inv in H. destruct H as [H _].
  apply np_vstack_three_inv in H. rewrite H.
  apply np_random_uniform_Ok_inv in Hu. tauto.
Qed.

(** With a problem that has not ten variables no seed is built. *)
Lemma seed_population_not_Ok saved problem s full s' :
  n_var problem <> 10 ->
  seed_population E saved problem s <> Ok (full, s').
Proof.
  intros Hn H. unfold seed_population in H.
  run_inv H. run_inv H. apply lift_Ok_inv in H. destruct H as [H _].
  apply np_vstack_two_inv in H.
  apply final_initial_population_ncols in Ha.
  apply np_random_uniform_Ok_inv in Ha0. destruct Ha0 as [_ [_ Hc]].
  congruence.
Qed.

End SeedShapeFacts.

Lemma broadcastable_ten k :
  k <> 10 -> k <> 1 -> broadcastable k 10 = false.
Proof.
  intros H10 H1. unfold broadcastable.
  destruct (Nat.eqb_spec k 10); [contradiction|].
  destruct (Nat.eqb_spec k 1); [contradiction|]. reflexivity.
Qed.

(** The transfer of a subset whose vectors have not ten components fails
    when it stacks source and target. *)
Lemma transfer_solutions_width {np : Argsort} (E : Externals) subset target :
  ncols (atleast_2d subset) <> ncols target ->
  transfer_solutions E subset (Arr2 target) = Raise (ValueError Concatenate).
Proof.
  intros H. unfold transfer_solutions, fit_transform, np_vstack. simpl.
  destruct (Nat.eqb_spec (ncols target) (ncols (atleast_2d subset)));
    [congruence|]. reflexivity.
Qed.

(** For a problem of three variables the construction of the seed stops
    at its first statement, the sampling of the target population: the
    three bounds cannot be broadcast to ten columns, and nothing is
    stacked. *)
Lemma seed_population_three_variables :
  n_var three_variables <> 10
  /\ np_random_uniform toy_externals (xl three_variables)
       (xu three_variables) 50 10 0%nat
     = Raise (ValueError Broadcast)
  /\ seed_population (np := stable) toy_externals two_vectors
       three_variables 0%nat
     = Raise (ValueError Broadcast)
  /\ seed_population (np := stable) toy_externals two_vectors
       three_variables 0%nat
     <> Raise (ValueError Concatenate).
Proof.
  split; [vm_compute; discriminate|]. split; [reflexivity|].
  split; [reflexivity|]. vm_compute. discriminate.
Qed.

(** C10, amended.  The seed of a non-initial step is built only for a
    problem of ten variables.  With bounds of [n_var] values, [n_var]
    different from 10, the construction never returns a seed: when
    [n_var] is not 1 it raises the shape error of the first sampling
    (the bounds cannot be broadcast to the ten columns asked for), before
    anything is stacked; when [n_var] is 1, with an archive of vectors
    of one variable that the problem evaluates, it raises the shape error
    of a stacking, that of the source on the ten-column target in the
    transfer. *)
Theorem seed_population_needs_ten_variables
    {np : Argsort} {np_sorts : ArgsortSorts np}
    (E : Externals) saved problem (s : rng E) :
  n_var problem <> 10 ->
  length (xl problem) = n_var problem ->
  length (xu problem) = n_var problem ->
  (forall full_sampling s',
     seed_population E saved problem s <> Ok (full_sampling, s'))
  /\ (n_var problem <> 1 ->
      seed_population E saved problem s = Raise (ValueError Broadcast))
  /\ (n_var problem = 1 ->
      rectangular 1 saved -> evaluates problem saved ->
      seed_population E saved problem s = Raise (ValueError Concatenate)).
Proof.
  intros Hn Hxl Hxu. split; [|split].
  - intros full s'. apply seed_population_not_Ok, Hn.
  - intros H1. unfold seed_population, final_initial_population.
    rewrite (@bind_Raise E _ _ _ _ _ (ValueError Broadcast));
      [reflexivity|].
    rewrite (@bind_Raise E _ _ _ _ _ (ValueError Broadcast));
      [reflexivity|].
    apply np_random_uniform_Broadcast; [lia|].
    rewrite Hxl, (broadcastable_ten Hn H1). reflexivity.
  - intros H1 Hrect Hev. unfold seed_population.
    rewrite (@bind_Raise E _ _ _ _ _ (ValueError Concatenate));
      [reflexivity|].
    unfold final_initial_population.
    destruct (@np_random_uniform_Ok E (xl problem) (xu problem) 50 10 s)
      as [f1 [s1 Hu]]; [lia | rewrite Hxl, H1; reflexivity
                        | rewrite Hxu, H1; reflexivity |].
    rewrite (@bind_Ok E _ _ _ _ _ _ _ Hu).
    destruct saved as [|r saved'].
    + reflexivity.
    + destruct (@select_subset_shape _ _ problem 1 (r :: saved') 100 Hrect)
        as [Msub [Hsub [Hc _]]]; [discriminate | exact Hev |].
      rewrite Hsub, bind_lift_Ok.
      rewrite transfer_solutions_width; [reflexivity|].
      simpl. rewrite Hc. discriminate.
Qed.

(** A problem of one variable and an archive of its vectors. *)
Lemma seed_population_one_variable :
  seed_population (np := stable) toy_externals [[1 # 2]; [1 # 3]]%Q
    one_variable 0%nat
  = Raise (ValueError Concatenate).
Proof.
  apply (@seed_population_needs_ten_variables stable stable_sorts
           toy_externals [[1 # 2]; [1 # 3]]%Q one_variable 0%nat).
  - vm_compute. discriminate.
  - reflexivity.
  - reflexivity.
  - reflexivity.
  - repeat constructor.
  - intros x _. eexists. split; reflexivity.
Defined.

(** ** A failing inversion *)

Section FailureFacts.
Variable E : Externals.
Context {np : Argsort}.



End FailureFacts.




(** ** The metrics of a turn *)

Lemma length_zip_with {A B C} (f : A -> B -> C) l1 l2 :
  length (zip_with f l1 l2) = Nat.min (length l1) (length l2).
Proof.
  revert l2. induction l1 as [|a l1 IH]; intros [|b l2]; simpl; auto.
Qed.

Lemma nth_zip_with (f : Q -> Q -> Q) l1 l2 k :
  k < length l1 -> k < length l2 ->
  nth k (zip_with f l1 l2) 0%Q = f (nth k l1 0%Q) (nth k l2 0%Q).
Proof.
  revert l2 k. induction l1 as [|a l1 IH]; intros [|b l2] [|k] H1 H2;
    simpl in *; try lia; try reflexivity.
  apply IH; lia.
Qed.

(** The reduction of the rows of an array by [f], column by column. *)
Lemma fold_zip_with_length (f : Q -> Q -> Q) c : forall rs r,
  Forall (fun x => length x = c) rs -> length r = c ->
  length (fold_left (zip_with f) rs r) = c.
Proof.
  induction rs as [|x rs IH]; intros r Hrs Hr; simpl; [exact Hr|].
  inversion Hrs; subst. apply IH; [assumption|].
  rewrite length_zip_with. lia.
Qed.

Lemma np_min_axis0_length M mins :
  wf M -> np_min_axis0 M = Ok mins -> length mins = ncols M.
Proof.
  unfold wf, np_min_axis0. destruct (rows M) as [|r rs]; [discriminate|].
  intros Hwf H. inversion H. inversion Hwf; subst.
  apply fold_zip_with_length; assumption.
Qed.

Lemma np_max_axis0_length M maxs :
  wf M -> np_max_axis0 M = Ok maxs -> length maxs = ncols M.
Proof.
  unfold wf, np_max_axis0. destruct (rows M) as [|r rs]; [discriminate|].
  intros Hwf H. inversion H. inversion Hwf; subst.
  apply fold_zip_with_length; assumption.
Qed.

Lemma ms_components_Ok F F_min F_max true_min true_max :
  length F_min = ncols F -> length F_max = ncols F ->
  length true_min = ncols F -> length true_max = ncols F ->
  ms_components F F_min F_max true_min true_max
  = Ok (map (fun k => ms_component (nth k true_max 0%Q) (nth k F_max 0%Q)
                                   (nth k true_min 0%Q) (nth k F_min 0%Q))
            (seq 0 (ncols F))).
Proof.
  intros H1 H2 H3 H4. unfold ms_components.
  assert (G : forall l acc,
             (forall k, In k l -> k < ncols F) ->
             foldM (fun acc k =>
                      tmax <- getitem true_max k ;;
                      fmax <- getitem F_max k ;;
                      tmin <- getitem true_min k ;;
                      fmin <- getitem F_min k ;;
                      let numerator := (Qmin tmax fmax - Qmax tmin fmin)%Q in
                      let denominator := (tmax - tmin)%Q in
                      if Qlt_bool (Qabs denominator) (1 # 1000000)
                      then Ok (acc ++ [0%Q])
                      else Ok (acc ++ [((numerator / denominator) ^ 2)%Q]))
                   acc l
             = Ok (acc ++ map (fun k => ms_component
                                 (nth k true_max 0%Q) (nth k F_max 0%Q)
                                 (nth k true_min 0%Q) (nth k F_min 0%Q)) l)).
  { match goal with |- forall l acc, _ -> foldM ?b _ _ = _ => set (body := b) end.
    induction l as [|k l IH]; intros acc Hl; cbn [foldM map].
    - rewrite app_nil_r. reflexivity.
    - unfold body at 1.
      assert (Hk : k < ncols F) by (apply Hl; left; reflexivity).
      rewrite (getitem_nth true_max 0%Q) by lia. cbn [rbind].
      rewrite (getitem_nth F_max 0%Q) by lia. cbn [rbind].
      rewrite (getitem_nth true_min 0%Q) by lia. cbn [rbind].
      rewrite (getitem_nth F_min 0%Q) by lia. cbn [rbind].
      cbv zeta.
      destruct (Qlt_bool (Qabs (nth k true_max 0%Q - nth k true_min 0%Q))
                         (1 # 1000000)) eqn:E; cbn [rbind];
        unfold ms_component at 1; rewrite E;
        (rewrite IH by (intros j Hj; apply Hl; right; exact Hj));
        rewrite <- app_assoc; reflexivity. }
  rewrite G by (intros k Hk; apply in_seq in Hk; lia). reflexivity.
Qed.

(** [compute_ms] returns on two non-empty arrays of one same width. *)
Lemma compute_ms_Ok F true_pf :
  wf F -> 0 < nrows F -> wf true_pf -> 0 < nrows true_pf ->
  ncols true_pf = ncols F ->
  exists ms, compute_ms F true_pf = Ok ms.
Proof.
  intros HF HFr HT HTr Hc. unfold compute_ms.
  assert (Hmin : forall M, 0 < nrows M -> exists v, np_min_axis0 M = Ok v).
  { intros M HM. unfold np_min_axis0, nrows in *.
    destruct (rows M); [simpl in HM; lia|]. eexists. reflexivity. }
  assert (Hmax : forall M, 0 < nrows M -> exists v, np_max_axis0 M = Ok v).
  { intros M HM. unfold np_max_axis0, nrows in *.
    destruct (rows M); [simpl in HM; lia|]. eexists. reflexivity. }
  destruct (Hmin F HFr) as [F_min H1]. destruct (Hmax F HFr) as [F_max H2].
  destruct (Hmin true_pf HTr) as [true_min H3].
  destruct (Hmax true_pf HTr) as [true_max H4].
  rewrite H1, H2, H3, H4. cbn [rbind].
  rewrite ms_components_Ok.
  - cbn [rbind]. destruct (ncols F =? 0); eexists; reflexivity.
  - apply (np_min_axis0_length HF H1).
  - apply (np_max_axis0_length HF H2).
  - rewrite <- Hc. apply (np_min_axis0_length HT H3).
  - rewrite <- Hc. apply (np_max_axis0_length HT H4).
Qed.

(** ** The loop over the environments *)

Section LoopFacts.
Variable E : Externals.
Context {np : Argsort}.

(** A run that ends has appended one front per time step. *)
Lemma environment_loop_fronts : forall steps saved fronts s saved' fronts' s',
  environment_loop E steps saved fronts s = Ok ((saved', fronts'), s') ->
  length fronts' = length fronts + length steps.
Proof.
  induction steps as [|[idx t] steps IH];
    intros saved fronts s saved' fronts' s' H; simpl in H.
  - inversion H. subst. simpl. lia.
  - apply bind_Ok_inv in H. destruct H as [out [s1 [_ H]]].
    apply IH in H. rewrite H, length_app. simpl. lia.
Qed.

Hypothesis HE : well_behaved E np.

(** With well-behaved externals the metrics of a turn are computed. *)
Lemma metrics_Ok t sampling s res s1 :
  minimize E (DF14 E t) sampling termination s = Ok (res, s1) ->
  exists report, metrics E (DF14 E t) t res s1 = Ok (report, s1).
Proof.
  intros Hmin.
  destruct (wb_minimize HE t sampling s)
    as (res' & s' & Hmin' & _ & _ & HFwf & HFr & HFc).
  rewrite Hmin in Hmin'. inversion Hmin'. subst res' s'.
  destruct (wb_front HE t) as (HTwf & HTr & HTc).
  unfold metrics, get_true_pf.
  destruct (wb_IGD HE (pareto_front (DF14 E t)) (res_F res)) as [migd Higd].
  rewrite Higd, bind_lift_Ok.
  destruct (@compute_ms_Ok (res_F res) (pareto_front (DF14 E t)))
    as [ms Hms]; try assumption; [congruence|].
  rewrite Hms, bind_lift_Ok. eexists. reflexivity.
Qed.

(** With well-behaved externals a step returns, and leaves a non-empty
    archive of vectors of ten variables. *)
Lemma environment_step_Ok idx t saved s :
  rectangular 10 saved -> (idx = 0 \/ saved <> []) ->
  exists saved' F s',
    environment_step E idx t saved s = Ok ((saved', F), s')
    /\ saved' <> [] /\ rectangular 10 saved'.
Proof.
  intros Hrect Hcase.
  pose proof (wb_argsort HE) as np_sorts.
  destruct (wb_bounds HE t) as [Hn [Hxl Hxu]].
  assert (Hsave : forall res s1,
            0 < nrows (res_X res) -> rectangular 10 (rows (res_X res)) ->
            exists saved' s',
              sample E (save_elite_solutions (DF14 E t) (res_X res) (res_F res)
                          max_save saved save_each_prob) s1
              = Ok (saved', s')
              /\ saved' <> [] /\ rectangular 10 saved').
  { intros res s1 Hpos HX.
    destruct (@sample_Ok E _
                (save_elite_solutions (DF14 E t) (res_X res) (res_F res)
                   max_save saved save_each_prob) s1)
      as [saved' [s' [Hs Hin]]]; [apply save_elite_solutions_nonempty|].
    exists saved', s'. split; [exact Hs|]. split.
    - apply save_elite_solutions_In in Hin. destruct Hin as [ce [H1 H2]].
      apply subsample_length_exact in H1, H2.
      rewrite length_app in H2. unfold nrows in Hpos.
      unfold max_save, save_each_prob in *.
      intros E0. rewrite E0 in H2. cbn [length] in H2. lia.
    - apply save_elite_solutions_outcome in Hin. destruct Hin as [_ Hin].
      unfold rectangular in *. rewrite Forall_forall in *.
      intros x Hx. destruct (Hin x Hx); auto. }
  unfold environment_step. destruct (Nat.eqb_spec idx 0) as [E0|E0].
  - destruct (wb_minimize HE t LHS s)
      as (res & s1 & Hmin & Hpos & HX & _).
    rewrite (@bind_Ok E _ _ _ _ _ _ _ Hmin).
    destruct (@metrics_Ok _ _ _ _ _ Hmin) as [report Hrep].
    rewrite (@bind_Ok E _ _ _ _ _ _ _ Hrep).
    destruct (Hsave res s1 Hpos HX) as [saved' [s' [Hs [Hne Hr]]]].
    rewrite (@bind_Ok E _ _ _ _ _ _ _ Hs).
    exists saved', (res_F res), s'. split; [reflexivity|]. split; assumption.
  - destruct Hcase as [?|Hne]; [contradiction|].
    destruct (@seed_population_Ok E np np_sorts saved (DF14 E t) s
                Hn Hxl Hxu Hne Hrect)
      as [full [s2 Hseed]].
    { intros x _. apply (wb_evaluate HE). }
    { intros target s1 subset _ _. split; [apply (wb_inv HE)|apply (wb_eigh HE)]. }
    rewrite (@bind_Ok E _ _ _ _ _ _ _ Hseed).
    destruct (wb_minimize HE t (InitialPopulation full) s2)
      as (res & s3 & Hmin & Hpos & HX & _).
    rewrite (@bind_Ok E _ _ _ _ _ _ _ Hmin).
    destruct (@metrics_Ok _ _ _ _ _ Hmin) as [report Hrep].
    rewrite (@bind_Ok E _ _ _ _ _ _ _ Hrep).
    destruct (Hsave res s3 Hpos HX) as [saved' [s' [Hs [Hne' Hr]]]].
    rewrite (@bind_Ok E _ _ _ _ _ _ _ Hs).
    exists saved', (res_F res), s'. split; [reflexivity|]. split; assumption.
Qed.

Lemma environment_loop_Ok : forall steps saved fronts s,
  rectangular 10 saved ->
  (saved <> [] \/ exists t steps', steps = (0, t) :: steps'
                                  /\ Forall (fun p => fst p <> 0) steps') ->
  (saved <> [] -> Forall (fun p => fst p <> 0) steps) ->
  exists saved' fronts' s',
    environment_loop E steps saved fronts s = Ok ((saved', fronts'), s').
Proof.
  induction steps as [|[idx t] steps IH]; intros saved fronts s Hrect H1 H2.
  - simpl. eexists. eexists. eexists. reflexivity.
  - assert (Hcase : idx = 0 \/ saved <> []).
    { destruct H1 as [Hne|[t0 [st [Heq _]]]]; [right; exact Hne|].
      inversion Heq. left. reflexivity. }
    assert (Hrest : Forall (fun p => fst p <> 0) steps).
    { destruct H1 as [Hne|[t0 [st [Heq Hall]]]].
      - specialize (H2 Hne). inversion H2. assumption.
      - inversion Heq. subst. exact Hall. }
    destruct (@environment_step_Ok idx t saved s Hrect Hcase)
      as [saved1 [F [s1 [Hstep [Hne1 Hr1]]]]].
    simpl. rewrite (@bind_Ok E _ _ _ _ _ _ _ Hstep). simpl fst. simpl snd.
    apply IH; auto.
Qed.

End LoopFacts.

Lemma toy_externals_well_behaved : well_behaved toy_externals stable.
Proof.
  constructor.
  - exact stable_sorts.
  - intros t. repeat split.
  - intros t x. eexists. split; reflexivity.
  - intros t. split; [repeat constructor|]. split; [vm_compute; lia|reflexivity].
  - intros t sampling s. eexists. eexists.
    split; [reflexivity|]. split; [vm_compute; lia|].
    split; [repeat constructor|]. split; [repeat constructor|].
    split; [vm_compute; lia | reflexivity].
  - intros true_pf F. eexists. reflexivity.
  - intros Xs Xt M _. discriminate.
  - intros Xs Xt M _. discriminate.
Qed.

(** C4.  The loop of a run goes through the 21 entries of [time_steps],
    which come from [range(0, 201, 10)]: a run that ends has appended 21
    fronts.  With well-behaved externals every run ends: the optimiser
    returns a non-empty population of vectors of ten variables and a
    non-empty front, the true front and the metrics are computed, and the
    inversion and the eigen-decomposition of each transfer succeed.  The
    configured [num_changes] is 9, so [num_changes + 1] is 10; the loop
    does not read it. *)
Theorem environment_loop_runs_21_times {np : Argsort} (E : Externals) :
  length time_steps = 21
  /\ num_changes + 1 = 10
  /\ length time_steps <> num_changes + 1
  /\ (forall s saved fronts s',
        run E s = Ok ((saved, fronts), s') ->
        length fronts = length time_steps)
  /\ (well_behaved E np ->
      forall s, exists saved fronts s',
        run E s = Ok ((saved, fronts), s') /\ length fronts = 21).
Proof.
  split; [reflexivity|]. split; [reflexivity|].
  split; [vm_compute; discriminate|].
  assert (Hcount : forall s saved fronts s',
            run E s = Ok ((saved, fronts), s') ->
            length fronts = length time_steps).
  { intros s saved fronts s' H. unfold run in H.
    apply environment_loop_fronts in H. rewrite H.
    rewrite length_combine, length_seq. simpl. lia. }
  split; [exact Hcount|].
  intros HE s.
  destruct (@environment_loop_Ok E np HE
              (combine (seq 0 (length time_steps)) time_steps) [] [] s)
    as [saved [fronts [s' Hrun]]].
  - constructor.
  - right. eexists. eexists. split; [vm_compute; reflexivity|].
    repeat (constructor; [discriminate|]). constructor.
  - intros H. congruence.
  - exists saved, fronts, s'. split; [exact Hrun|].
    apply (Hcount s saved fronts s' Hrun).
Qed.

(** A run with the sample externals ends after 21 steps. *)
Lemma toy_run_21_fronts :
  exists saved fronts s',
    run (np := stable) toy_externals 0%nat = Ok ((saved, fronts), s')
    /\ length fronts = 21.
Proof.
  destruct (@environment_loop_runs_21_times stable toy_externals)
    as [_ [_ [_ [_ H]]]].
  apply (H toy_externals_well_behaved 0%nat).
Defined.

(** ** Instances of the general statements *)

(** The front of the example, through the general statement: three
    distances, the middle one the sum of its two contributions. *)
Lemma crowding_distance_front3_instance :
  exists distance q,
    crowding_distance (np := stable) front3 = Ok distance
    /\ length distance = 3
    /\ nth 1 distance (Fin 0) = Fin q
    /\ (q == Qsum (map (fun m => contribution (np := stable) front3 m 1)
                       [0%nat; 1%nat]))%Q.
Proof.
  destruct (@crowding_distance_extremes_and_interior stable stable_sorts)
    as [H _].
  destruct (H front3) as [distance [Hrun [Hlen [_ [Hint _]]]]].
  - repeat constructor.
  - vm_compute. lia.
  - destruct (Hint 1) as [q [Hq Hsum]].
    + vm_compute. lia.
    + intros m Hm. change (ncols front3) with 2 in Hm.
      destruct m as [|[|m]]; [reflexivity | reflexivity | lia].
    + exists distance, q. repeat split; assumption.
Defined.

(** Three vectors, two places: the members of the two least sums. *)
Lemma select_subset_instance :
  exists best_indices,
    select_subset (np := stable) [[3; 0]; [1; 0]; [2; 0]]%Q first_variable 2
    = Ok (Arr2 (mkMatrix 2
                  (map (fun i => nth i [[3; 0]; [1; 0]; [2; 0]]%Q [])
                       best_indices)))
    /\ length best_indices = 2.
Proof.
  destruct (@select_subset_correct stable stable_sorts first_variable 2)
    as [_ [_ H]].
  destruct (H 2 [[3; 0]; [1; 0]; [2; 0]]%Q) as [idx [Hrun [Hlen _]]].
  - repeat constructor.
  - simpl. lia.
  - intros x Hx. simpl in Hx.
    destruct Hx as [<-|[<-|[<-|[]]]]; eexists; split; reflexivity.
  - exists idx. split; assumption.
Defined.

(** An archive of one place after an update with three new vectors. *)
Lemma archive_instance :
  reachable 1 1 [[1%Q]] /\ length [[1%Q]] <= 1.
Proof.
  assert (Hr : reachable 1 1 [[1%Q]]).
  { apply (@reachable_update 1 1 identity_problem
             (mkMatrix 1 [[1]; [2]; [3]]%Q) (mkMatrix 1 []) [] [[1%Q]]).
    - constructor.
    - vm_compute. left. reflexivity. }
  split; [exact Hr|].
  destruct (archive_never_exceeds_cap 1 1) as [H _].
  apply (H _ Hr).
Defined.

(** * Further properties of the code *)

(** ** ClipRepair *)

Lemma broadcast_get_nth v j :
  j < length v -> broadcast_get v j = nth j v 0%Q.
Proof.
  intros H. unfold broadcast_get.
  destruct (Nat.eqb_spec (length v) 1) as [E|E]; [|reflexivity].
  destruct v as [|x [|y v]]; simpl in E; try discriminate.
  simpl in H. replace j with 0 by lia. reflexivity.
Qed.

Lemma broadcast_widths_same c : broadcast_widths [c; c; c] = Ok c.
Proof.
  unfold broadcast_widths. simpl.
  destruct (Nat.eqb_spec c 1) as [->|E]; [reflexivity|].
  simpl. destruct (Nat.eqb_spec c 1); [contradiction|].
  rewrite Nat.eqb_refl. simpl.
  destruct (Nat.eqb_spec c 1); [contradiction|].
  rewrite Nat.eqb_refl. reflexivity.
Qed.

Lemma nth_map_seq {A} (g : nat -> A) c j d :
  j < c -> nth j (map g (seq 0 c)) d = g j.
Proof.
  intros H. rewrite (nth_indep _ d (g 0)) by (rewrite length_map, length_seq; lia).
  rewrite (map_nth g (seq 0 c) 0 j), seq_nth by lia. reflexivity.
Qed.

(** The repaired population, entry by entry. *)
Lemma ClipRepair_do_Ok problem X :
  wf X -> ncols X = n_var problem ->
  length (xl problem) = n_var problem ->
  length (xu problem) = n_var problem ->
  exists R,
    ClipRepair_do problem X = Ok R
    /\ nrows R = nrows X /\ ncols R = n_var problem /\ wf R
    /\ forall i j, i < nrows X -> j < n_var problem ->
         get R i j = clip_value (get X i j) (nth j (xl problem) 0%Q)
                                (nth j (xu problem) 0%Q).
Proof.
  intros Hwf Hc Hl Hu. unfold ClipRepair_do.
  rewrite Hc, Hl, Hu, broadcast_widths_same. cbn [rbind].
  eexists. split; [reflexivity|].
  split; [unfold nrows; simpl; apply length_map|].
  split; [reflexivity|]. split.
  - unfold wf. simpl. apply Forall_forall. intros r Hr.
    apply in_map_iff in Hr. destruct Hr as [r0 [<- _]].
    rewrite length_map. apply length_seq.
  - intros i j Hi Hj. unfold get. cbn [rows].
    set (f := fun r => map (fun j0 => clip_value (broadcast_get r j0)
                                    (broadcast_get (xl problem) j0)
                                    (broadcast_get (xu problem) j0))
                           (seq 0 (n_var problem))).
    rewrite (nth_indep _ [] (f [])) by (rewrite length_map; exact Hi).
    rewrite (map_nth f (rows X) [] i). unfold f.
    rewrite nth_map_seq by exact Hj.
    assert (Hr : length (nth i (rows X) []) = n_var problem).
    { unfold wf in Hwf. rewrite Forall_forall in Hwf.
      rewrite Hwf by (apply nth_In; exact Hi). exact Hc. }
    rewrite !broadcast_get_nth by lia. reflexivity.
Qed.

Lemma clip_value_bounds x lo hi :
  (lo <= hi)%Q -> (lo <= clip_value x lo hi <= hi)%Q.
Proof.
  intros H. unfold clip_value. split.
  - apply Q.min_glb; [exact H | apply Q.le_max_r].
  - apply Q.le_min_l.
Qed.

(** X1.  [ClipRepair._do] on a population of [n_var] columns, with bounds
    of [n_var] values, lower below upper: a population of the same shape,
    every entry of which lies within the bounds of its column. *)
Theorem ClipRepair_feasible problem X :
  wf X -> ncols X = n_var problem ->
  length (xl problem) = n_var problem ->
  length (xu problem) = n_var problem ->
  (forall j, j < n_var problem ->
     (nth j (xl problem) 0 <= nth j (xu problem) 0)%Q) ->
  exists R,
    ClipRepair_do problem X = Ok R
    /\ nrows R = nrows X /\ ncols R = ncols X /\ wf R
    /\ forall i j, i < nrows X -> j < n_var problem ->
         (nth j (xl problem) 0 <= get R i j <= nth j (xu problem) 0)%Q.
Proof.
  intros Hwf Hc Hl Hu Hb.
  destruct (ClipRepair_do_Ok problem Hwf Hc Hl Hu)
    as [R [Hrun [Hr [Hcol [HRwf Hget]]]]].
  exists R. split; [exact Hrun|]. split; [exact Hr|].
  split; [congruence|]. split; [exact HRwf|].
  intros i j Hi Hj. rewrite (Hget i j Hi Hj).
  apply clip_value_bounds, Hb, Hj.
Qed.

(** X2.  What the repair does to an entry: a value within the bounds of
    its column is kept, a value below the lower bound becomes the lower
    bound, a value above the upper bound becomes the upper bound. *)
Theorem ClipRepair_projects problem X :
  wf X -> ncols X = n_var problem ->
  length (xl problem) = n_var problem ->
  length (xu problem) = n_var problem ->
  (forall j, j < n_var problem ->
     (nth j (xl problem) 0 <= nth j (xu problem) 0)%Q) ->
  exists R,
    ClipRepair_do problem X = Ok R
    /\ forall i j, i < nrows X -> j < n_var problem ->
         let x := get X i j in
         let lo := nth j (xl problem) 0%Q in
         let hi := nth j (xu problem) 0%Q in
         ((lo <= x <= hi)%Q -> (get R i j == x)%Q)
         /\ ((x < lo)%Q -> (get R i j == lo)%Q)
         /\ ((hi < x)%Q -> (get R i j == hi)%Q).
Proof.
  intros Hwf Hc Hl Hu Hb.
  destruct (ClipRepair_do_Ok problem Hwf Hc Hl Hu)
    as [R [Hrun [_ [_ [_ Hget]]]]].
  exists R. split; [exact Hrun|].
  intros i j Hi Hj x lo hi. rewrite (Hget i j Hi Hj).
  fold x lo hi. specialize (Hb j Hj). fold lo hi in Hb.
  unfold clip_value. split; [|split].
  - intros [H1 H2]. rewrite (Q.max_l _ _ H1). apply Q.min_r, H2.
  - intros H. rewrite (Q.max_r x lo) by (apply Qlt_le_weak, H).
    apply Q.min_r, Hb.
  - intros H. apply Q.min_l.
    apply Qle_trans with x; [apply Qlt_le_weak, H | apply Q.le_max_l].
Qed.

(** A population of two vectors of two variables, one of them out of the
    bounds [0, 5]. *)
Lemma ClipRepair_instance :
  exists R,
    ClipRepair_do first_variable (mkMatrix 2 [[7; 1]; [2; -3]]%Q) = Ok R
    /\ nrows R = 2 /\ ncols R = 2.
Proof.
  destruct (@ClipRepair_feasible first_variable
              (mkMatrix 2 [[7; 1]; [2; -3]]%Q))
    as [R [Hrun [Hr [Hc _]]]].
  - repeat constructor.
  - reflexivity.
  - reflexivity.
  - reflexivity.
  - intros j Hj. change (n_var first_variable) with 2 in Hj.
    destruct j as [|[|j]]; [discriminate | discriminate | lia].
  - exists R. split; [exact Hrun|]. split; assumption.
Defined.

Lemma ClipRepair_projects_instance :
  exists R,
    ClipRepair_do first_variable (mkMatrix 2 [[7; 1]; [2; -3]]%Q) = Ok R.
Proof.
  destruct (@ClipRepair_projects first_variable
              (mkMatrix 2 [[7; 1]; [2; -3]]%Q))
    as [R [Hrun _]].
  - repeat constructor.
  - reflexivity.
  - reflexivity.
  - reflexivity.
  - intros j Hj. change (n_var first_variable) with 2 in Hj.
    destruct j as [|[|j]]; [discriminate | discriminate | lia].
  - exists R. exact Hrun.
Defined.

(** ** compute_sp *)

Lemma Rsum_repeat d n : Rsum (repeat d n) = (INR n * d)%R.
Proof.
  induction n as [|n IH].
  - simpl. lra.
  - change (repeat d (S n)) with (d :: repeat d n).
    cbn [Rsum fold_right]. fold (Rsum (repeat d n)).
    rewrite IH, S_INR. lra.
Qed.

Lemma Rsum_nonneg l : Forall (fun x => (0 <= x)%R) l -> (0 <= Rsum l)%R.
Proof.
  induction 1 as [|x l Hx _ IH]; simpl; lra.
Qed.

Lemma zip_with_comm {A B} (f : A -> A -> B) :
  (forall a b, f a b = f b a) ->
  forall x y, zip_with f x y = zip_with f y x.
Proof.
  intros Hf. induction x as [|a x IH]; intros [|b y]; simpl; try reflexivity.
  rewrite Hf, IH. reflexivity.
Qed.

Lemma Qsum_Qeq l l' : Forall2 Qeq l l' -> (Qsum l == Qsum l')%Q.
Proof.
  induction 1 as [|x y l l' Hxy _ IH].
  - reflexivity.
  - rewrite !Qsum_cons, Hxy, IH. reflexivity.
Qed.

(** The distance of two vectors does not depend on their order. *)
Lemma sqdist_sym x y : (sqdist x y == sqdist y x)%Q.
Proof.
  unfold sqdist. apply Qsum_Qeq.
  revert y. induction x as [|a x IH]; intros [|b y]; simpl; constructor.
  - ring.
  - apply IH.
Qed.

(** When every point is at the same distance [d] of its nearest
    neighbour, the spacing is zero. *)
Lemma compute_sp_equal_distances F d :
  2 <= nrows F ->
  (forall x, In x (nearest_distances F) -> x = XFin d) ->
  compute_sp F = 0%R.
Proof.
  intros Hn Hd. unfold compute_sp.
  destruct (Nat.ltb_spec (nrows F) 2); [reflexivity|].
  destruct (existsb is_inf (nearest_distances F)); [reflexivity|].
  assert (Hmap : map xvalue (nearest_distances F)
                 = repeat d (length (nearest_distances F))).
  { induction (nearest_distances F) as [|x l IH]; [reflexivity|].
    simpl. rewrite (Hd x) by (left; reflexivity). simpl. f_equal.
    apply IH. intros y Hy. apply Hd. right. exact Hy. }
  cbv zeta. rewrite Hmap. set (n := length (nearest_distances F)).
  rewrite repeat_length, Rsum_repeat.
  assert (Hlen : n = nrows F).
  { unfold n, nearest_distances, fill_diagonal, cdist, nrows.
    rewrite !length_map, length_combine, length_seq, !length_map. lia. }
  assert (Hpos : (0 < INR n)%R) by (apply lt_0_INR; lia).
  replace (INR n * d / INR n)%R with d by (field; lra).
  rewrite map_repeat.
  replace ((d - d) * (d - d))%R with 0%R by ring.
  rewrite Rsum_repeat.
  replace (INR n * 0 / INR (n - 1))%R with 0%R
    by (unfold Rdiv; ring).
  apply sqrt_0.
Qed.

(** X3.  [compute_sp] is never negative; it is zero for fewer than two
    points, and for every front of two points, whatever they are. *)
Theorem compute_sp_two_points :
  (forall F, (0 <= compute_sp F)%R)
  /\ (forall F, nrows F < 2 -> compute_sp F = 0%R)
  /\ (forall c p q, compute_sp (mkMatrix c [p; q]) = 0%R).
Proof.
  split; [|split].
  - intros F. unfold compute_sp.
    destruct (nrows F <? 2); [lra|].
    destruct (existsb is_inf (nearest_distances F)); [lra|].
    apply sqrt_pos.
  - intros F H. unfold compute_sp.
    destruct (Nat.ltb_spec (nrows F) 2); [reflexivity | lia].
  - intros c p q.
    apply (@compute_sp_equal_distances _ (sqrt (Q2R (sqdist p q)))).
    + unfold nrows. simpl. lia.
    + intros x Hx.
      unfold nearest_distances, fill_diagonal, cdist in Hx.
      cbn [rows map length seq combine replace_nth fold_right xmin] in Hx.
      destruct Hx as [<-|[<-|[]]]; [reflexivity|].
      rewrite (Qeq_eqR _ _ (sqdist_sym q p)). reflexivity.
Qed.

(** ** compute_ms *)

Lemma Qsum_ones l :
  Forall (fun x => (x == 1)%Q) l -> (Qsum l == inject_Z (Z.of_nat (length l)))%Q.
Proof.
  induction 1 as [|x l Hx _ IH].
  - reflexivity.
  - change (x == 1)%Q in Hx. cbn [length].
    rewrite Qsum_cons, Hx, IH.
    rewrite Nat2Z.inj_succ. unfold Z.succ. rewrite inject_Z_plus. ring.
Qed.

(** X4.  For an achieved set equal to the true front, no objective of
    which has a range below [1e-6], [compute_ms] is exactly 1. *)
Theorem compute_ms_identical F mins maxs :
  wf F -> 0 < ncols F ->
  np_min_axis0 F = Ok mins -> np_max_axis0 F = Ok maxs ->
  (forall k, k < ncols F ->
     ((1 # 1000000) <= nth k maxs 0 - nth k mins 0)%Q) ->
  compute_ms F F = Ok (Num 1%R).
Proof.
  intros Hwf Hc Hmin Hmax Hrange. unfold compute_ms.
  rewrite Hmin, Hmax. cbn [rbind].
  pose proof (np_min_axis0_length Hwf Hmin) as Hlmin.
  pose proof (np_max_axis0_length Hwf Hmax) as Hlmax.
  rewrite ms_components_Ok by assumption. cbn [rbind].
  destruct (Nat.eqb_spec (ncols F) 0); [lia|].
  do 2 f_equal.
  assert (Hsum : (Qsum (map (fun k => ms_component
                              (nth k maxs 0) (nth k maxs 0)
                              (nth k mins 0) (nth k mins 0))
                            (seq 0 (ncols F)))
                  == inject_Z (Z.of_nat (ncols F)))%Q).
  { rewrite Qsum_ones.
    - rewrite length_map, length_seq. reflexivity.
    - apply Forall_forall. intros x Hx. apply in_map_iff in Hx.
      destruct Hx as [k [<- Hk]]. apply in_seq in Hk.
      specialize (Hrange k ltac:(lia)).
      set (hi := nth k maxs 0%Q) in *. set (lo := nth k mins 0%Q) in *.
      unfold ms_component.
      assert (Hpos : (0 < hi - lo)%Q)
        by (eapply Qlt_le_trans; [|exact Hrange]; reflexivity).
      assert (Hnot : Qlt_bool (Qabs (hi - lo)) (1 # 1000000) = false).
      { destruct (Qlt_bool _ _) eqn:E; [|reflexivity].
        apply Qlt_bool_iff in E. exfalso.
        apply (Qlt_not_le _ _ E).
        apply Qle_trans with (hi - lo)%Q; [exact Hrange | apply Qle_Qabs]. }
      rewrite Hnot.
      rewrite (Q.min_id hi), (Q.max_id lo).
      assert (Hne : ~ (hi - lo == 0)%Q)
        by (intros E; rewrite E in Hpos; discriminate).
      simpl. field. exact Hne. }
  assert (Hq : (Qsum (map (fun k => ms_component
                            (nth k maxs 0) (nth k maxs 0)
                            (nth k mins 0) (nth k mins 0))
                          (seq 0 (ncols F)))
                / inject_Z (Z.of_nat (ncols F)) == 1)%Q).
  { rewrite Hsum. field.
    intros E. unfold Qeq in E. simpl in E. lia. }
  rewrite (Qeq_eqR _ _ Hq).
  replace (Q2R 1) with 1%R by (unfold Q2R; simpl; lra).
  apply sqrt_1.
Qed.

(** The front that spans [0, 1] in both objectives, against itself. *)
Lemma compute_ms_identical_instance :
  compute_ms unit_front unit_front = Ok (Num 1%R).
Proof.
  apply (@compute_ms_identical unit_front [0; 0]%Q [1; 1]%Q).
  - repeat constructor.
  - vm_compute. lia.
  - reflexivity.
  - reflexivity.
  - intros k Hk. change (ncols unit_front) with 2 in Hk.
    destruct k as [|[|k]]; [discriminate | discriminate | lia].
Defined.

(** In every column, the smallest entry is at most the largest. *)
Lemma fold_min_le_max c : forall rs a b,
  Forall (fun x => length x = c) rs -> length a = c -> length b = c ->
  (forall k, k < c -> (nth k a 0 <= nth k b 0)%Q) ->
  forall k, k < c ->
    (nth k (fold_left (zip_with Qmin) rs a) 0
     <= nth k (fold_left (zip_with Qmax) rs b) 0)%Q.
Proof.
  induction rs as [|x rs IH]; intros a b Hrs Ha Hb Hab k Hk; simpl.
  - apply Hab, Hk.
  - inversion Hrs; subst.
    apply IH; try assumption.
    + rewrite length_zip_with. lia.
    + rewrite length_zip_with. lia.
    + intros j Hj. rewrite !nth_zip_with by lia.
      apply Qle_trans with (nth j x 0%Q); [apply Q.le_min_r | apply Q.le_max_r].
Qed.

Lemma np_min_le_max M mins maxs k :
  wf M -> np_min_axis0 M = Ok mins -> np_max_axis0 M = Ok maxs ->
  k < ncols M -> (nth k mins 0 <= nth k maxs 0)%Q.
Proof.
  unfold wf, np_min_axis0, np_max_axis0.
  destruct (rows M) as [|r rs]; [discriminate|].
  intros Hwf Hmin Hmax Hk. inversion Hmin; inversion Hmax; subst.
  inversion Hwf; subst.
  apply fold_min_le_max with (c := ncols M); auto.
  intros; apply Qle_refl.
Qed.

Lemma Qsum_bounds l :
  Forall (fun x => (0 <= x /\ x <= 1)%Q) l ->
  (0 <= Qsum l /\ Qsum l <= inject_Z (Z.of_nat (length l)))%Q.
Proof.
  induction 1 as [|x l Hx _ IH].
  - split; [apply Qle_refl | apply Qle_refl].
  - cbn [length]. rewrite Qsum_cons.
    rewrite Nat2Z.inj_succ. unfold Z.succ. rewrite inject_Z_plus.
    change (inject_Z 1) with 1%Q.
    cbv beta in Hx. destruct Hx as [Hx0 Hx1]. destruct IH as [IH0 IH1].
    generalize dependent (inject_Z (Z.of_nat (length l))).
    generalize dependent (Qsum l). intros s Hs0 n Hs1.
    split; lra.
Qed.

Lemma ms_component_contained tmax fmax tmin fmin :
  (tmin <= fmin)%Q -> (fmin <= fmax)%Q -> (fmax <= tmax)%Q ->
  (0 <= ms_component tmax fmax tmin fmin
   /\ ms_component tmax fmax tmin fmin <= 1)%Q.
Proof.
  intros H1 H2 H3. unfold ms_component.
  destruct (Qlt_bool (Qabs (tmax - tmin)) (1 # 1000000)) eqn:E.
  - split; [apply Qle_refl | discriminate].
  - assert (Hd : (0 < tmax - tmin)%Q).
    { destruct (Qlt_le_dec 0 (tmax - tmin)) as [Hlt|Hle]; [exact Hlt|].
      assert (Hz : (tmax - tmin == 0)%Q) by lra.
      assert (Hb : Qlt_bool (Qabs (tmax - tmin)) (1 # 1000000) = true).
      { apply Qlt_bool_iff. rewrite Hz. reflexivity. }
      congruence. }
    rewrite (Q.min_r tmax fmax H3), (Q.max_r tmin fmin H1).
    set (r := ((fmax - fmin) / (tmax - tmin))%Q).
    assert (Hr0 : (0 <= r)%Q).
    { unfold r. apply Qle_shift_div_l; [exact Hd | lra]. }
    assert (Hr1 : (r <= 1)%Q).
    { unfold r. apply Qle_shift_div_r; [exact Hd | lra]. }
    change (r ^ 2)%Q with (r * r)%Q.
    split.
    + apply Qmult_le_0_compat; assumption.
    + apply Qle_trans with (1 * r)%Q.
      * apply Qmult_le_compat_r; assumption.
      * lra.
Qed.

(** X5.  For an achieved set whose range lies within the range of the
    true front in every objective, [compute_ms] is a number between 0
    and 1. *)
Theorem compute_ms_contained F true_pf F_min F_max true_min true_max :
  wf F -> wf true_pf -> ncols true_pf = ncols F -> 0 < ncols F ->
  np_min_axis0 F = Ok F_min -> np_max_axis0 F = Ok F_max ->
  np_min_axis0 true_pf = Ok true_min -> np_max_axis0 true_pf = Ok true_max ->
  (forall k, k < ncols F ->
     (nth k true_min 0 <= nth k F_min 0 /\ nth k F_max 0 <= nth k true_max 0)%Q) ->
  exists MS, compute_ms F true_pf = Ok (Num MS) /\ (0 <= MS <= 1)%R.
Proof.
  intros HwF HwT Hc Hpos HFmin HFmax HTmin HTmax Hin. unfold compute_ms.
  rewrite HFmin, HFmax, HTmin, HTmax. cbn [rbind].
  pose proof (np_min_axis0_length HwF HFmin) as L1.
  pose proof (np_max_axis0_length HwF HFmax) as L2.
  pose proof (np_min_axis0_length HwT HTmin) as L3.
  pose proof (np_max_axis0_length HwT HTmax) as L4.
  rewrite ms_components_Ok by congruence. cbn [rbind].
  destruct (Nat.eqb_spec (ncols F) 0); [lia|].
  eexists. split; [reflexivity|].
  set (comps := map _ (seq 0 (ncols F))).
  assert (Hb : (0 <= Qsum comps
                /\ Qsum comps <= inject_Z (Z.of_nat (ncols F)))%Q).
  { assert (Hlen : length comps = ncols F)
      by (unfold comps; rewrite length_map, length_seq; reflexivity).
    rewrite <- Hlen.
    apply Qsum_bounds. apply Forall_forall. intros x Hx.
    apply in_map_iff in Hx. destruct Hx as [k [<- Hk]]. apply in_seq in Hk.
    destruct (Hin k ltac:(lia)) as [Hlo Hhi].
    apply ms_component_contained; try assumption.
    apply (np_min_le_max HwF HFmin HFmax). lia. }
  assert (Hn : (0 < inject_Z (Z.of_nat (ncols F)))%Q).
  { unfold Qlt. simpl. lia. }
  destruct Hb as [Hb0 Hb1].
  assert (Hq0 : (0 <= Qsum comps / inject_Z (Z.of_nat (ncols F)))%Q).
  { apply Qle_shift_div_l; [exact Hn | lra]. }
  assert (Hq1 : (Qsum comps / inject_Z (Z.of_nat (ncols F)) <= 1)%Q).
  { apply Qle_shift_div_r; [exact Hn | lra]. }
  apply Qle_Rle in Hq0, Hq1.
  replace (Q2R 0) with 0%R in Hq0 by (unfold Q2R; simpl; lra).
  replace (Q2R 1) with 1%R in Hq1 by (unfold Q2R; simpl; lra).
  split.
  - apply sqrt_pos.
  - rewrite <- sqrt_1. apply sqrt_le_1; lra.
Qed.

(** An achieved set spanning part of the unit square, against the front
    that spans all of it. *)
Lemma compute_ms_contained_instance :
  exists MS,
    compute_ms (mkMatrix 2 [[1 # 4; 1 # 2]; [1 # 2; 1 # 4]]%Q) unit_front
    = Ok (Num MS) /\ (0 <= MS <= 1)%R.
Proof.
  apply (@compute_ms_contained _ unit_front
           [1 # 4; 1 # 4]%Q [1 # 2; 1 # 2]%Q [0; 0]%Q [1; 1]%Q).
  - repeat constructor.
  - repeat constructor.
  - reflexivity.
  - vm_compute. lia.
  - reflexivity.
  - reflexivity.
  - reflexivity.
  - reflexivity.
  - intros k Hk. change (k < 2) in Hk.
    destruct k as [|[|k]]; [split; discriminate | split; discriminate | lia].
Defined.

(** ** crowding_distance *)

Lemma existsb_false_In {A} (f : A -> bool) l x :
  existsb f l = false -> In x l -> f x = false.
Proof.
  intros H Hx. destruct (f x) eqn:E; [|reflexivity].
  assert (existsb f l = true) by (apply existsb_exists; exists x; auto).
  congruence.
Qed.

Lemma nth_all_repeat {A} (l : list A) (x d : A) :
  (forall p, p < length l -> nth p l d = x) -> l = repeat x (length l).
Proof.
  intros H. apply nth_ext with (d := d) (d' := d).
  - rewrite repeat_length. reflexivity.
  - intros p Hp. rewrite (H p Hp). rewrite nth_repeat_lt by exact Hp.
    reflexivity.
Qed.

Section CrowdingRangeFacts.
Context {np : Argsort} {np_sorts : ArgsortSorts np}.

(** Along a sort order the values of the objective do not decrease. *)
Lemma argsort_monotone v a b :
  a <= b -> b < length v ->
  (nth (nth a (argsort v) 0%nat) v 0 <= nth (nth b (argsort v) 0%nat) v 0)%Q.
Proof.
  rewrite <- (argsort_length v).
  pose proof (argsort_sorted v) as Hs. revert a b.
  induction Hs as [|x l Hs IH Hall]; intros a b Hab Hb.
  - simpl in Hb. lia.
  - destruct a as [|a], b as [|b]; simpl in *.
    + apply Qle_refl.
    + rewrite Forall_forall in Hall. apply Hall, nth_In. lia.
    + lia.
    + apply IH; lia.
Qed.

(** The place of an interior point in a sort order. *)
Lemma interior_index F m p :
  p < nrows F -> is_extreme F m p = false ->
  1 <= index_of p (argsort (column F m))
  /\ index_of p (argsort (column F m)) + 2 <= nrows F.
Proof.
  intros Hp He. unfold is_extreme in He. cbv zeta in He.
  apply orb_false_iff in He. destruct He as [H0 H1].
  apply Nat.eqb_neq in H0, H1.
  rewrite argsort_length, length_column in H1.
  assert (Hin : In p (argsort (column F m)))
    by (apply argsort_In; rewrite length_column; exact Hp).
  destruct (index_of_In _ _ Hin) as [Hi _].
  rewrite argsort_length, length_column in Hi. lia.
Qed.

(** What one objective adds to the distance of an interior point lies
    between 0 and 1. *)
Lemma contribution_bounds F m p :
  p < nrows F -> is_extreme F m p = false ->
  (0 <= contribution F m p /\ contribution F m p <= 1)%Q.
Proof.
  intros Hp He. destruct (interior_index _ _ Hp He) as [Hi1 Hi2].
  unfold contribution, obj_range, neighbour_gap. cbv zeta.
  rewrite argsort_length, length_column.
  set (c := column F m) in *. set (s := argsort c) in *.
  set (i := index_of p s) in *.
  assert (Hc : length c = nrows F) by apply length_column.
  pose proof (@argsort_monotone c 0 (i - 1) ltac:(lia) ltac:(lia)) as M1.
  pose proof (@argsort_monotone c (i - 1) (i + 1) ltac:(lia) ltac:(lia)) as M2.
  pose proof (@argsort_monotone c (i + 1) (nrows F - 1) ltac:(lia) ltac:(lia))
    as M3.
  fold s in M1, M2, M3.
  set (lo := nth (nth 0 s 0%nat) c 0%Q) in *.
  set (hi := nth (nth (nrows F - 1) s 0%nat) c 0%Q) in *.
  set (prev := nth (nth (i - 1) s 0%nat) c 0%Q) in *.
  set (next := nth (nth (i + 1) s 0%nat) c 0%Q) in *.
  destruct (Qeq_bool (hi - lo) 0) eqn:E.
  - split; [apply Qle_refl | discriminate].
  - apply Qeq_bool_neq in E.
    assert (Hd : (0 < hi - lo)%Q).
    { destruct (Qlt_le_dec 0 (hi - lo)) as [Hlt|Hle]; [exact Hlt|].
      exfalso. apply E. lra. }
    split.
    + apply Qle_shift_div_l; [exact Hd | lra].
    + apply Qle_shift_div_r; [exact Hd | lra].
Qed.

(** X6.  [crowding_distance] on a front with at least one point returns,
    for every point, either infinity or a number between 0 and the number
    of objectives. *)
Theorem crowding_distance_range F :
  wf F -> 0 < nrows F ->
  exists distance,
    crowding_distance F = Ok distance
    /\ forall p, p < nrows F ->
         nth p distance (Fin 0) = PInf
         \/ exists q, nth p distance (Fin 0) = Fin q
                      /\ (0 <= q /\ q <= inject_Z (Z.of_nat (ncols F)))%Q.
Proof.
  intros Hwf Hn.
  destruct (crowding_distance_spec Hwf Hn) as [d [Hrun [Hlen Hval]]].
  exists d. split; [exact Hrun|]. intros p Hp.
  specialize (Hval p Hp). unfold crowding_spec in Hval.
  destruct (existsb _ (seq 0 (ncols F))) eqn:E.
  - left. destruct (nth p d (Fin 0)); simpl in Hval; try contradiction.
    reflexivity.
  - right. destruct (nth p d (Fin 0)) as [|q|]; simpl in Hval;
      try contradiction.
    exists q. split; [reflexivity|]. rewrite Hval.
    set (l := map (fun m => contribution F m p) (seq 0 (ncols F))).
    assert (Hl : length l = ncols F)
      by (unfold l; rewrite length_map, length_seq; reflexivity).
    rewrite <- Hl. apply Qsum_bounds.
    apply Forall_forall. intros x Hx. apply in_map_iff in Hx.
    destruct Hx as [m [<- Hm]].
    apply contribution_bounds; [exact Hp|].
    exact (existsb_false_In _ _ m E Hm).
Qed.

(** X7.  On a front of one or two points, with at least one objective,
    [crowding_distance] gives every point an infinite distance. *)
Theorem crowding_distance_small_front F :
  wf F -> 0 < nrows F -> nrows F <= 2 -> 0 < ncols F ->
  crowding_distance F = Ok (repeat PInf (nrows F)).
Proof.
  intros Hwf Hn H2 Hc.
  destruct (crowding_distance_spec Hwf Hn) as [d [Hrun [Hlen Hval]]].
  rewrite Hrun. f_equal. rewrite <- Hlen.
  apply nth_all_repeat with (d := Fin 0).
  intros p Hp. rewrite Hlen in Hp. specialize (Hval p Hp).
  unfold crowding_spec in Hval.
  assert (He : existsb (fun m => is_extreme F m p) (seq 0 (ncols F)) = true).
  { apply existsb_exists. exists 0. split; [apply in_seq; lia|].
    destruct (is_extreme F 0 p) eqn:E; [reflexivity|].
    destruct (interior_index _ _ Hp E). lia. }
  rewrite He in Hval.
  destruct (nth p d (Fin 0)); simpl in Hval; try contradiction. reflexivity.
Qed.

(** X8.  On an array with objectives but no points, [crowding_distance]
    raises [IndexError]: the sort order of the first objective has no
    first element. *)
Theorem crowding_distance_no_points F :
  nrows F = 0 -> 0 < ncols F -> crowding_distance F = Raise IndexError.
Proof.
  intros Hn Hc. unfold crowding_distance.
  destruct (ncols F) as [|c]; [lia|].
  cbn [seq foldM]. unfold crowding_outer. cbv zeta.
  assert (Hcol : column F 0 = []).
  { unfold column. unfold nrows in Hn.
    destruct (rows F); [reflexivity | discriminate]. }
  assert (Hs : argsort (@nil Q) = [])
    by (apply length_zero_iff_nil; rewrite argsort_length; reflexivity).
  rewrite Hcol, Hs. reflexivity.
Qed.

End CrowdingRangeFacts.

Lemma crowding_distance_range_instance :
  exists distance,
    crowding_distance (np := stable) front3 = Ok distance
    /\ forall p, p < nrows front3 ->
         nth p distance (Fin 0) = PInf
         \/ exists q, nth p distance (Fin 0) = Fin q
                      /\ (0 <= q /\ q <= inject_Z (Z.of_nat (ncols front3)))%Q.
Proof.
  apply (@crowding_distance_range stable stable_sorts front3).
  - repeat constructor.
  - vm_compute. lia.
Defined.

Lemma crowding_distance_two_points :
  crowding_distance (np := stable) (mkMatrix 2 [[0; 1]; [1; 0]]%Q)
  = Ok [PInf; PInf].
Proof.
  apply (@crowding_distance_small_front stable stable_sorts
           (mkMatrix 2 [[0; 1]; [1; 0]]%Q)).
  - repeat constructor.
  - vm_compute. lia.
  - vm_compute. lia.
  - vm_compute. lia.
Defined.

Lemma crowding_distance_no_points_instance :
  crowding_distance (np := stable) (mkMatrix 2 []) = Raise IndexError.
Proof.
  apply (@crowding_distance_no_points stable stable_sorts (mkMatrix 2 [])).
  - reflexivity.
  - vm_compute. lia.
Defined.

(** ** save_elite_solutions *)

(** The elements at different positions of a list, with the elements at
    the other positions, are the list in another order. *)
Lemma pick_sub_permutation {A} (d : A) l idx :
  NoDup idx -> (forall i, In i idx -> i < length l) ->
  exists rest, Permutation (pick d l idx ++ rest) l.
Proof.
  intros Hnd Hlt.
  set (others := filter (fun i => negb (existsb (Nat.eqb i) idx))
                        (seq 0 (length l))).
  exists (pick d l others).
  assert (P : Permutation (idx ++ others) (seq 0 (length l))).
  2:{ apply (Permutation_map (fun i => nth i l d)) in P.
      change (map (fun i => nth i l d) (seq 0 (length l)))
        with (pick d l (seq 0 (length l))) in P.
      rewrite pick_seq, map_app in P. exact P. }
  apply NoDup_Permutation.
  - apply NoDup_app; [exact Hnd | apply NoDup_filter, seq_NoDup |].
    intros a Ha Hb. unfold others in Hb. apply filter_In in Hb.
    destruct Hb as [_ Hb]. apply negb_true_iff in Hb.
    apply existsb_eqb_In in Ha. congruence.
  - apply seq_NoDup.
  - intros x. rewrite in_app_iff, in_seq. unfold others.
    rewrite filter_In, in_seq, negb_true_iff. split.
    + intros [H|[H _]]; [specialize (Hlt x H)|]; lia.
    + intros H. destruct (existsb (Nat.eqb x) idx) eqn:E.
      * left. apply existsb_eqb_In, E.
      * right. split; [lia | reflexivity].
Qed.

Lemma subsample_sub_permutation cap l r :
  In r (subsample cap l) -> exists rest, Permutation (r ++ rest) l.
Proof.
  unfold subsample. destruct (Nat.ltb_spec cap (length l)) as [H|H].
  - intros Hr. apply in_map_iff in Hr. destruct Hr as [a [<- Ha]].
    apply arrangements_spec in Ha. destruct Ha as [Hnd [_ Hin]].
    apply pick_sub_permutation; [exact Hnd|].
    intros i Hi. specialize (Hin i Hi). apply in_seq in Hin. lia.
  - intros [<-|[]]. exists []. rewrite app_nil_r. apply Permutation_refl.
Qed.


(** X9.  Every outcome of a call of [save_elite_solutions] has exactly
    [min(max_save, len(solutions) + min(max_per_problem, len(var)))]
    vectors. *)
Theorem save_elite_solutions_length problem var obj max_save solutions
      max_per_problem solutions' :
  In solutions'
     (save_elite_solutions problem var obj max_save solutions
                           max_per_problem) ->
  length solutions'
  = Nat.min max_save
            (length solutions + Nat.min max_per_problem (nrows var)).
Proof.
  intros H. apply save_elite_solutions_In in H. destruct H as [ce [H1 H2]].
  apply subsample_length_exact in H1, H2.
  rewrite H2, length_app, H1. reflexivity.
Qed.

Lemma save_elite_solutions_length_instance :
  length [[1]; [2]; [3]]%Q
  = Nat.min 3 (length two_saved + Nat.min 2 (nrows three_new)).
Proof.
  apply (@save_elite_solutions_length identity_problem three_new three_new
           3 two_saved 2 [[1]; [2]; [3]]%Q).
  vm_compute. left. reflexivity.
Defined.

(** X10.  A call of [save_elite_solutions] neither invents nor repeats a
    vector: every outcome, with the vectors it leaves out, is the old
    archive followed by the new population, in another order. *)
Theorem save_elite_solutions_sub_permutation problem var obj max_save
      solutions max_per_problem solutions' :
  In solutions'
     (save_elite_solutions problem var obj max_save solutions
                           max_per_problem) ->
  exists left_out,
    Permutation (solutions' ++ left_out) (solutions ++ rows var).
Proof.
  intros H. apply save_elite_solutions_In in H. destruct H as [ce [H1 H2]].
  apply subsample_sub_permutation in H1, H2.
  destruct H1 as [r1 P1]. destruct H2 as [r2 P2].
  exists (r2 ++ r1). rewrite app_assoc.
  eapply Permutation_trans.
  - apply Permutation_app_tail. exact P2.
  - rewrite <- app_assoc. apply Permutation_app_head. exact P1.
Qed.

Lemma save_elite_solutions_sub_permutation_instance :
  exists left_out,
    Permutation ([[1]; [2]; [3]]%Q ++ left_out)
                (two_saved ++ rows three_new).
Proof.
  apply (@save_elite_solutions_sub_permutation identity_problem three_new
           three_new 3 two_saved 2 [[1]; [2]; [3]]%Q).
  vm_compute. left. reflexivity.
Defined.

(** X11.  While the archive has room for the vectors kept of the new
    population, a call of [save_elite_solutions] leaves the old archive in
    place and in order, and appends
    [min(max_per_problem, len(var))] vectors of the population. *)
Theorem save_elite_solutions_appends problem var obj max_save solutions
      max_per_problem solutions' :
  length solutions + Nat.min max_per_problem (nrows var) <= max_save ->
  In solutions'
     (save_elite_solutions problem var obj max_save solutions
                           max_per_problem) ->
  exists current_elites,
    solutions' = solutions ++ current_elites
    /\ length current_elites = Nat.min max_per_problem (nrows var)
    /\ forall x, In x current_elites -> In x (rows var).
Proof.
  intros Hroom H.
  apply save_elite_solutions_In in H. destruct H as [ce [H1 H2]].
  pose proof (subsample_length_exact _ _ _ H1) as Hlen.
  exists ce. split; [|split].
  - unfold subsample in H2.
    destruct (Nat.ltb_spec max_save (length (solutions ++ ce))) as [Hlt|Hle].
    + rewrite length_app in Hlt. unfold nrows in Hroom. lia.
    + destruct H2 as [<-|[]]. reflexivity.
  - exact Hlen.
  - exact (subsample_members _ _ _ H1).
Qed.

Lemma save_elite_solutions_appends_instance :
  exists current_elites,
    [[1]; [2]; [3]; [4]]%Q = two_saved ++ current_elites
    /\ length current_elites = Nat.min 2 (nrows three_new)
    /\ forall x, In x current_elites -> In x (rows three_new).
Proof.
  apply (@save_elite_solutions_appends identity_problem three_new three_new
           1000 two_saved 2 [[1]; [2]; [3]; [4]]%Q).
  - vm_compute. lia.
  - vm_compute. left. reflexivity.
Defined.

(** ** TCA *)

Lemma get_tabulate r c f i j :
  i < r -> j < c -> get (tabulate r c f) i j = f i j.
Proof.
  intros Hi Hj. unfold get, tabulate. cbn [rows].
  rewrite (nth_map_seq (fun i => map (f i) (seq 0 c)) [] Hi).
  apply nth_map_seq, Hj.
Qed.

Lemma Qsum_app l1 l2 : (Qsum (l1 ++ l2) == Qsum l1 + Qsum l2)%Q.
Proof.
  induction l1 as [|x l1 IH]; cbn [app].
  - change (Qsum []) with 0%Q. ring.
  - rewrite !Qsum_cons, IH. ring.
Qed.

Lemma Qsum_map_const {A} (l : list A) (g : A -> Q) (c : Q) :
  (forall x, In x l -> g x = c) ->
  (Qsum (map g l) == inject_Z (Z.of_nat (length l)) * c)%Q.
Proof.
  induction l as [|x l IH]; intros H.
  - change (Qsum (map g [])) with 0%Q. cbn [length]. simpl. ring.
  - cbn [map length]. rewrite Qsum_cons, IH, (H x)
      by (try (intros y Hy; apply H; right; exact Hy); left; reflexivity).
    rewrite Nat2Z.inj_succ. unfold Z.succ. rewrite inject_Z_plus.
    change (inject_Z 1) with 1%Q. ring.
Qed.

(** X12.  The matrix [L] that [fit_transform] builds for [ns] source and
    [nt] target vectors is symmetric, and the entries of each of its rows
    add up to zero. *)
Theorem L_matrix_balanced ns nt :
  0 < ns -> 0 < nt ->
  exists L,
    L_matrix ns nt = Ok L
    /\ nrows L = ns + nt /\ ncols L = ns + nt
    /\ (forall i j, i < ns + nt -> j < ns + nt -> get L i j = get L j i)
    /\ (forall i, i < ns + nt -> (Qsum (nth i (rows L) []) == 0)%Q).
Proof.
  intros Hs Ht. unfold L_matrix.
  destruct (Nat.eqb_spec ns 0); [lia|]. destruct (Nat.eqb_spec nt 0); [lia|].
  eexists. split; [reflexivity|].
  split; [apply nrows_tabulate|]. split; [reflexivity|]. split.
  - intros i j Hi Hj. rewrite !get_tabulate by assumption.
    destruct (i <? ns), (j <? ns); reflexivity.
  - intros i Hi. unfold tabulate. cbn [rows].
    rewrite (nth_map_seq _ [] Hi).
    rewrite seq_app, map_app, Qsum_app. cbn [Nat.add].
    set (qs := inject_Z (Z.of_nat ns)). set (qt := inject_Z (Z.of_nat nt)).
    assert (Hqs : ~ (qs == 0)%Q)
      by (unfold qs, Qeq; simpl; lia).
    assert (Hqt : ~ (qt == 0)%Q)
      by (unfold qt, Qeq; simpl; lia).
    destruct (i <? ns).
    + rewrite (@Qsum_map_const _ (seq 0 ns) _ (1 / (qs * qs))%Q),
              (@Qsum_map_const _ (seq ns nt) _ (- (1) / (qs * qt))%Q).
      * rewrite !length_seq. fold qs qt. field. split; assumption.
      * intros j Hj. apply in_seq in Hj.
        destruct (Nat.ltb_spec j ns); [lia | reflexivity].
      * intros j Hj. apply in_seq in Hj.
        destruct (Nat.ltb_spec j ns); [reflexivity | lia].
    + rewrite (@Qsum_map_const _ (seq 0 ns) _ (- (1) / (qs * qt))%Q),
              (@Qsum_map_const _ (seq ns nt) _ (1 / (qt * qt))%Q).
      * rewrite !length_seq. fold qs qt. field. split; assumption.
      * intros j Hj. apply in_seq in Hj.
        destruct (Nat.ltb_spec j ns); [lia | reflexivity].
      * intros j Hj. apply in_seq in Hj.
        destruct (Nat.ltb_spec j ns); [reflexivity | lia].
Qed.

Lemma L_matrix_balanced_instance :
  exists L,
    L_matrix 2 3 = Ok L
    /\ nrows L = 2 + 3 /\ ncols L = 2 + 3
    /\ (forall i j, i < 2 + 3 -> j < 2 + 3 -> get L i j = get L j i)
    /\ (forall i, i < 2 + 3 -> (Qsum (nth i (rows L) []) == 0)%Q).
Proof.
  apply (@L_matrix_balanced 2 3); lia.
Defined.

(** X13.  With [kernel_type='linear'], [fit_transform] never returns: once
    the two sets are stacked, [_kernel] is called without its second
    argument and [X2.T] raises [AttributeError]; sets of different widths
    fail in the stacking before that. *)
Theorem fit_transform_linear_kernel {np : Argsort} (E : Externals) self Xs Xt :
  kernel_type self = linear ->
  fit_transform E self Xs Xt
  = if ncols (atleast_2d Xt) =? ncols (atleast_2d Xs)
    then Raise AttributeError
    else Raise (ValueError Concatenate).
Proof.
  intros Hk. unfold fit_transform, np_vstack. cbn [map vstack_from].
  destruct (ncols (atleast_2d Xt) =? ncols (atleast_2d Xs)).
  - cbn [rbind]. unfold _kernel. rewrite Hk. reflexivity.
  - reflexivity.
Qed.

Lemma fit_transform_linear_kernel_instance :
  fit_transform (np := stable) toy_externals (mkTCA 2 linear 1 1)
                (Arr2 one_source) (Arr2 one_target)
  = Raise AttributeError.
Proof.
  apply (@fit_transform_linear_kernel stable toy_externals
           (mkTCA 2 linear 1 1)
           (Arr2 one_source) (Arr2 one_target)).
  reflexivity.
Defined.

(** X14.  With the radial-basis kernel, [fit_transform] on sets of one
    width of which one has no vector and the other has some raises
    [ZeroDivisionError], in [1.0 / (ns**2)] or [1.0 / (nt**2)].  (The
    stacked array must have a row and a column: [rbf_kernel] refuses an
    array without samples or features.) *)
Theorem fit_transform_empty_side {np : Argsort} (E : Externals) self Xs Xt :
  kernel_type self = rbf ->
  ncols Xt = ncols Xs -> 0 < ncols Xs ->
  nrows Xs = 0 \/ nrows Xt = 0 -> 0 < nrows Xs + nrows Xt ->
  fit_transform E self (Arr2 Xs) (Arr2 Xt) = Raise ZeroDivisionError.
Proof.
  intros Hk Hc Hw He Hn.
  unfold fit_transform. rewrite (np_vstack_two _ _ Hc). cbn [rbind len].
  unfold _kernel. rewrite Hk. unfold rbf_kernel.
  assert (Hr : (nrows (mkMatrix (ncols Xs) (rows Xs ++ rows Xt)) =? 0)
               = false).
  { apply Nat.eqb_neq. unfold nrows in *. cbn [rows].
    rewrite length_app. lia. }
  assert (Hz : (ncols Xs =? 0) = false) by (apply Nat.eqb_neq; lia).
  rewrite Hr. cbn [ncols orb]. rewrite Hz, Nat.eqb_refl.
  cbn [rbind]. unfold L_matrix.
  destruct He as [He|He]; rewrite He; cbn [Nat.eqb].
  - reflexivity.
  - destruct (nrows Xs =? 0); reflexivity.
Qed.

Lemma fit_transform_empty_side_instance :
  fit_transform (np := stable) toy_externals (mkTCA 10 rbf 1 (4 # 10))
                (Arr2 (mkMatrix 3 [])) (Arr2 one_target)
  = Raise ZeroDivisionError.
Proof.
  apply (@fit_transform_empty_side stable toy_externals
           (mkTCA 10 rbf 1 (4 # 10)) (mkMatrix 3 []) one_target).
  - reflexivity.
  - reflexivity.
  - vm_compute. lia.
  - left. reflexivity.
  - vm_compute. lia.
Defined.

(** X15.  When [np.linalg.eigh] raises [LinAlgError] on the matrix
    [Kc @ L @ Kc] that a call of [fit_transform] hands to it (radial
    kernel, non-empty sets of vectors of one same positive width), the
    call raises [LinAlgError], after an inversion that has returned. *)
Theorem fit_transform_eigh_fails {np : Argsort} {np_sorts : ArgsortSorts np}
    (E : Externals) (self : TCA) (Xs Xt M : matrix) :
  kernel_type self = rbf ->
  0 < nrows Xs -> 0 < nrows Xt -> ncols Xt = ncols Xs -> 0 < ncols Xs ->
  eigh_argument E self (Arr2 Xs) (Arr2 Xt) = Ok M ->
  eigh_entries E M = None ->
  (exists K_reg, inv_argument E self (Arr2 Xs) (Arr2 Xt) = Ok K_reg
                 /\ inv_entries E K_reg <> None)
  /\ np_linalg_eigh E M = Raise LinAlgError
  /\ fit_transform E self (Arr2 Xs) (Arr2 Xt) = Raise LinAlgError.
Proof.
  intros Hk Hs Ht Hc Hw HM Hnone.
  destruct (@fit_transform_stages E np np_sorts self Xs Xt Hk Hs Ht Hc Hw)
    as (X_all & K & L & K_reg & _ & _ & _ & _ & _ & _ & Harg & Hrest).
  destruct (inv_entries E K_reg) as [inv|] eqn:Einv.
  - destruct Hrest as (K_inv & Kc & KcL & M' & _ & _ & _ & _ & _ & HM' & Heig).
    rewrite HM in HM'. inversion HM'. subst M'.
    rewrite Hnone in Heig. destruct Heig as [He Hf].
    split; [|split; assumption].
    exists K_reg. split; [exact Harg | congruence].
  - destruct Hrest as (_ & HM' & _). congruence.
Qed.

Lemma fit_transform_eigh_fails_instance :
  fit_transform (np := stable) no_eigen_externals (mkTCA 10 rbf 1 (4 # 10))
                (Arr2 one_source) (Arr2 one_target)
  = Raise LinAlgError.
Proof.
  eapply (@fit_transform_eigh_fails stable stable_sorts no_eigen_externals
            (mkTCA 10 rbf 1 (4 # 10)) one_source one_target).
  - reflexivity.
  - vm_compute. lia.
  - vm_compute. lia.
  - reflexivity.
  - vm_compute. lia.
  - vm_compute. reflexivity.
  - reflexivity.
Defined.

(** ** The driver *)

Lemma sample_Ok_inv (E : Externals) {A} (d : dist A) s a s' :
  sample E d s = Ok (a, s') -> In a d.
Proof.
  unfold sample. destruct (rand_nat E s) as [k s1].
  destruct (nth_error d (k mod length d)) as [x|] eqn:En; [|discriminate].
  intros H. inversion H. subst. eapply nth_error_In. exact En.
Qed.

(** A step that returns has optimised a problem and saved its result. *)
Lemma environment_step_inv {np : Argsort} (E : Externals)
    idx t saved s saved' F s' :
  environment_step E idx t saved s = Ok ((saved', F), s') ->
  exists res,
    F = res_F res
    /\ In saved' (save_elite_solutions (DF14 E t) (res_X res) (res_F res)
                    max_save saved save_each_prob).
Proof.
  intros H. unfold environment_step in H.
  destruct (idx =? 0).
  - apply bind_Ok_inv in H. destruct H as [res [s1 [_ H]]].
    apply bind_Ok_inv in H. destruct H as [report [sr [_ H]]].
    apply bind_Ok_inv in H. destruct H as [sv [s2 [Hs H]]].
    inversion H. subst. exists res. split; [reflexivity|].
    eapply sample_Ok_inv. exact Hs.
  - apply bind_Ok_inv in H. destruct H as [full [s0 [_ H]]].
    apply bind_Ok_inv in H. destruct H as [res [s1 [_ H]]].
    apply bind_Ok_inv in H. destruct H as [report [sr [_ H]]].
    apply bind_Ok_inv in H. destruct H as [sv [s2 [Hs H]]].
    inversion H. subst. exists res. split; [reflexivity|].
    eapply sample_Ok_inv. exact Hs.
Qed.

(** What a call does to the size and to the content of the archive. *)
Lemma save_elite_solutions_growth problem var obj max_save solutions
      max_per_problem solutions' :
  In solutions'
     (save_elite_solutions problem var obj max_save solutions
                           max_per_problem) ->
  length solutions' <= max_save
  /\ (length solutions + max_per_problem <= max_save ->
      exists added,
        solutions' = solutions ++ added /\ length added <= max_per_problem).
Proof.
  intros H. apply save_elite_solutions_In in H. destruct H as [ce [H1 H2]].
  split; [eapply subsample_length; exact H2|].
  intros Hroom. pose proof (subsample_length _ _ _ H1) as Hce.
  exists ce. split; [|exact Hce].
  unfold subsample in H2.
  destruct (Nat.ltb_spec max_save (length (solutions ++ ce))) as [Hlt|Hle].
  - rewrite length_app in Hlt. lia.
  - destruct H2 as [<-|[]]. reflexivity.
Qed.

(** X17.  The archive of the loop never exceeds [max_save]: from an
    archive within the cap, a loop over any steps that returns, returns
    an archive within the cap; so does a run. *)
Theorem environment_loop_archive_bounded {np : Argsort} (E : Externals) :
  forall steps saved fronts s saved' fronts' s',
    length saved <= max_save ->
    environment_loop E steps saved fronts s = Ok ((saved', fronts'), s') ->
    length saved' <= max_save.
Proof.
  induction steps as [|[idx t] steps IH];
    intros saved fronts s saved' fronts' s' Hcap H; cbn [environment_loop] in H.
  - inversion H. subst. exact Hcap.
  - apply bind_Ok_inv in H. destruct H as [[sv F] [s1 [Hstep H]]].
    cbn [fst snd] in H. apply IH in H; [exact H|].
    apply environment_step_inv in Hstep. destruct Hstep as [res [_ Hin]].
    apply save_elite_solutions_growth in Hin. tauto.
Qed.

Lemma run_archive_bounded :
  exists saved fronts s',
    run (np := stable) toy_externals 0 = Ok ((saved, fronts), s')
    /\ length saved <= max_save.
Proof.
  destruct (@environment_loop_Ok toy_externals stable
              toy_externals_well_behaved
              (combine (seq 0 (length time_steps)) time_steps) [] [] 0)
    as [saved [fronts [s' Hrun]]].
  - constructor.
  - right. eexists. eexists. split; [vm_compute; reflexivity|].
    repeat (constructor; [discriminate|]). constructor.
  - intros H. congruence.
  - exists saved, fronts, s'. split; [exact Hrun|].
    apply (@environment_loop_archive_bounded stable toy_externals
             (combine (seq 0 (length time_steps)) time_steps)
             [] [] 0 saved fronts s').
    + vm_compute. lia.
    + exact Hrun.
Defined.

(** X18.  While the archive has room for [save_each_prob] vectors per
    step, the loop only appends to it: the archive at the start is kept,
    in place and in order, and at most [save_each_prob] vectors are added
    per step.  With the configured caps nothing is evicted in the first
    20 environments of a run. *)
Theorem environment_loop_archive_grows {np : Argsort} (E : Externals) :
  forall steps saved fronts s saved' fronts' s',
    length saved + save_each_prob * length steps <= max_save ->
    environment_loop E steps saved fronts s = Ok ((saved', fronts'), s') ->
    exists added,
      saved' = saved ++ added
      /\ length added <= save_each_prob * length steps.
Proof.
  induction steps as [|[idx t] steps IH];
    intros saved fronts s saved' fronts' s' Hroom H;
    cbn [environment_loop] in H.
  - inversion H. subst. exists []. rewrite app_nil_r.
    split; [reflexivity | simpl; lia].
  - cbn [length] in Hroom.
    apply bind_Ok_inv in H. destruct H as [[sv F] [s1 [Hstep H]]].
    cbn [fst snd] in H.
    apply environment_step_inv in Hstep. destruct Hstep as [res [_ Hin]].
    apply save_elite_solutions_growth in Hin. destruct Hin as [_ Hin].
    destruct Hin as [a1 [-> Ha1]]; [lia|].
    apply IH in H; [|rewrite length_app; lia].
    destruct H as [a2 [-> Ha2]].
    exists (a1 ++ a2). rewrite app_assoc. split; [reflexivity|].
    rewrite length_app. cbn [length]. lia.
Qed.

Lemma run_first_20_steps_append :
  exists saved fronts s' added,
    environment_loop (np := stable) toy_externals
      (firstn 20 (combine (seq 0 (length time_steps)) time_steps)) [] [] 0
    = Ok ((saved, fronts), s')
    /\ saved = [] ++ added
    /\ length added
       <= save_each_prob
          * length (firstn 20 (combine (seq 0 (length time_steps))
                                 time_steps)).
Proof.
  destruct (@environment_loop_Ok toy_externals stable
              toy_externals_well_behaved
              (firstn 20 (combine (seq 0 (length time_steps)) time_steps))
              [] [] 0)
    as [saved [fronts [s' Hrun]]].
  - constructor.
  - right. eexists. eexists. split; [vm_compute; reflexivity|].
    repeat (constructor; [discriminate|]). constructor.
  - intros H. congruence.
  - destruct (@environment_loop_archive_grows stable toy_externals
                (firstn 20 (combine (seq 0 (length time_steps)) time_steps))
                [] [] 0 saved fronts s')
      as [added [Heq Hlen]].
    + vm_compute. lia.
    + exact Hrun.
    + exists saved, fronts, s', added.
      split; [exact Hrun|]. split; [exact Heq | exact Hlen].
Defined.

(** X19.  Whatever the archive, the problem and the libraries do, a seed
    that [seed_population] returns has exactly [population_size] rows and
    ten columns: the part before the fill never has more than
    [population_size] rows, or the sampling of the fill would have
    raised. *)
Theorem seed_population_Ok_shape {np : Argsort} (E : Externals) saved problem
    (s : rng E) full_sampling s' :
  seed_population E saved problem s = Ok (full_sampling, s') ->
  nrows full_sampling = population_size /\ ncols full_sampling = 10.
Proof.
  intros H. unfold seed_population in H.
  apply bind_Ok_inv in H. destruct H as [final [s1 [Hfin H]]].
  apply bind_Ok_inv in H. destruct H as [fill [s2 [Hu H]]].
  apply lift_Ok_inv in H. destruct H as [H _].
  pose proof (np_vstack_two_inv _ _ H) as Hc.
  rewrite (np_vstack_two _ _ Hc) in H. inversion H. subst full_sampling.
  apply np_random_uniform_Ok_inv in Hu. destruct Hu as [Hr [Hfr _]].
  apply final_initial_population_ncols in Hfin.
  split; [|exact Hfin].
  unfold nrows in *. cbn [rows]. rewrite length_app, Hfr. lia.
Qed.

Lemma seed_population_Ok_shape_instance :
  exists full_sampling s',
    seed_population (np := stable) toy_externals two_vectors (toy_problem 0) 0
    = Ok (full_sampling, s')
    /\ nrows full_sampling = population_size /\ ncols full_sampling = 10.
Proof.
  destruct (@seed_population_Ok toy_externals stable stable_sorts
              two_vectors (toy_problem 0) 0)
    as [full [s' Hrun]].
  - reflexivity.
  - reflexivity.
  - reflexivity.
  - discriminate.
  - repeat constructor.
  - intros x _. eexists. split; reflexivity.
  - intros target s1 subset _ _. split; intros M _; discriminate.
  - exists full, s'. split; [exact Hrun|].
    apply (@seed_population_Ok_shape stable toy_externals two_vectors
             (toy_problem 0) 0 full s' Hrun).
Defined.

(** ** compute_sp on equally spaced points *)

Lemma Qsum_nonneg l : Forall (fun x => (0 <= x)%Q) l -> (0 <= Qsum l)%Q.
Proof.
  induction 1 as [|x l Hx _ IH].
  - apply Qle_refl.
  - rewrite Qsum_cons. cbv beta in Hx.
    generalize dependent (Qsum l). intros s Hs. lra.
Qed.

Lemma sqdist_nonneg x y : (0 <= sqdist x y)%Q.
Proof.
  unfold sqdist. apply Qsum_nonneg.
  revert y. induction x as [|a x IH]; intros [|b y]; cbn [zip_with];
    constructor.
  - generalize (a - b)%Q. intros q. nra.
  - apply IH.
Qed.

(** The squared distance of two points of a line, from that of the first
    two. *)
Lemma sqdist_line origin direction i j :
  let p k := zip_with (fun a v => a + Qnat k * v)%Q origin direction in
  (sqdist (p i) (p j)
   == (Qnat i - Qnat j) * (Qnat i - Qnat j) * sqdist (p 0%nat) (p 1%nat))%Q.
Proof.
  cbv zeta. unfold sqdist. revert direction.
  induction origin as [|a origin IH]; intros [|v direction]; simpl;
    try (change (Qsum []) with 0%Q; ring).
  rewrite !Qsum_cons, IH. unfold Qnat. simpl inject_Z. ring.
Qed.

Lemma Qnat_apart i j :
  i <> j -> (1 <= (Qnat i - Qnat j) * (Qnat i - Qnat j))%Q.
Proof.
  intros H. unfold Qnat.
  unfold Qminus. rewrite <- inject_Z_opp, <- inject_Z_plus, <- inject_Z_mult.
  change 1%Q with (inject_Z 1). rewrite <- Zle_Qle. nia.
Qed.

(** The least of a list of distances. *)
Lemma fold_xmin_lower l m :
  (forall x, In (XFin x) l -> (m <= x)%R) ->
  fold_right xmin XInf l = XInf
  \/ exists z, fold_right xmin XInf l = XFin z /\ (m <= z)%R.
Proof.
  induction l as [|y l IH]; intros H; [left; reflexivity|].
  cbn [fold_right].
  destruct IH as [E|[z [E Hz]]];
    [intros x Hx; apply H; right; exact Hx | |]; rewrite E.
  - destruct y as [x|]; [|left; reflexivity].
    right. exists x. split; [reflexivity|]. apply H. left. reflexivity.
  - right. destruct y as [x|].
    + exists (Rmin x z). split; [reflexivity|].
      apply Rmin_glb; [apply H; left; reflexivity | exact Hz].
    + exists z. split; [reflexivity | exact Hz].
Qed.

Lemma fold_xmin_attained l m :
  In (XFin m) l -> (forall x, In (XFin x) l -> (m <= x)%R) ->
  fold_right xmin XInf l = XFin m.
Proof.
  induction l as [|y l IH]; intros Hin H; [contradiction|].
  cbn [fold_right].
  assert (Hl : forall x, In (XFin x) l -> (m <= x)%R)
    by (intros x Hx; apply H; right; exact Hx).
  destruct Hin as [->|Hin].
  - destruct (fold_xmin_lower l Hl) as [E|[z [E Hz]]]; rewrite E.
    + reflexivity.
    + simpl. rewrite Rmin_left by exact Hz. reflexivity.
  - rewrite (IH Hin Hl). destruct y as [x|]; [|reflexivity].
    simpl. rewrite Rmin_right by (apply H; left; reflexivity). reflexivity.
Qed.

Lemma In_combine_seq {A} (l : list A) (d : A) : forall a i x,
  In (i, x) (combine (seq a (length l)) l) ->
  a <= i < a + length l /\ nth (i - a) l d = x.
Proof.
  induction l as [|y l IH]; intros a i x H; simpl in H; [contradiction|].
  destruct H as [H|H].
  - inversion H. subst. rewrite Nat.sub_diag. simpl. split; [lia | reflexivity].
  - apply IH in H. destruct H as [Hi Hx]. simpl length. split; [lia|].
    replace (i - a) with (S (i - S a)) by lia. exact Hx.
Qed.

(** X20.  For two or more points at equal steps along a line, in any
    number of objectives, [compute_sp] is zero: every point is at the
    same distance of its nearest neighbour. *)
Theorem compute_sp_equally_spaced origin direction n :
  2 <= n -> compute_sp (line_points origin direction n) = 0%R.
Proof.
  intros Hn.
  set (p := fun k => zip_with (fun a v => a + Qnat k * v)%Q origin direction).
  set (s := sqdist (p 0) (p 1)).
  assert (Hs : (0 <= s)%Q) by apply sqdist_nonneg.
  assert (Hrows : rows (line_points origin direction n) = map p (seq 0 n))
    by reflexivity.
  apply (@compute_sp_equal_distances _ (sqrt (Q2R s))).
  { unfold nrows. rewrite Hrows, length_map, length_seq. exact Hn. }
  intros x Hx. unfold nearest_distances in Hx.
  apply in_map_iff in Hx. destruct Hx as [row [<- Hrow]].
  unfold fill_diagonal in Hrow. apply in_map_iff in Hrow.
  destruct Hrow as [[i r] [<- Hir]].
  apply (In_combine_seq _ []) in Hir. destruct Hir as [Hi Hr].
  rewrite Nat.sub_0_r in Hr. cbn [Nat.add] in Hi.
  assert (Hlen : length (cdist (line_points origin direction n)
                               (line_points origin direction n)) = n).
  { unfold cdist. rewrite Hrows, !length_map. apply length_seq. }
  rewrite Hlen in Hi. destruct Hi as [_ Hi].
  set (dist := fun j => XFin (sqrt (Q2R (sqdist (p i) (p j))))).
  assert (Er : r = map dist (seq 0 n)).
  { rewrite <- Hr. unfold cdist. rewrite Hrows.
    rewrite (nth_indep _ [] ((fun r0 => map (fun r' => XFin (sqrt (Q2R (sqdist r0 r'))))
                                          (map p (seq 0 n))) (p 0)))
      by (rewrite !length_map, length_seq; exact Hi).
    rewrite (map_nth (fun r0 => map (fun r' => XFin (sqrt (Q2R (sqdist r0 r'))))
                                    (map p (seq 0 n)))
                     (map p (seq 0 n)) (p 0) i).
    rewrite (nth_map_seq p (p 0) Hi), map_map. reflexivity. }
  subst r. rewrite Er. clear Er.
  assert (Hlr : length (map dist (seq 0 n)) = n)
    by (rewrite length_map; apply length_seq).
  assert (Hnth : forall j, j < n -> j <> i ->
            nth j (replace_nth (map dist (seq 0 n)) i XInf) XInf = dist j).
  { intros j Hj Hji. rewrite nth_replace_nth.
    destruct (Nat.eqb_spec j i); [contradiction|]. cbn [andb].
    apply nth_map_seq, Hj. }
  assert (Hline : forall j,
            (sqdist (p i) (p j)
             == (Qnat i - Qnat j) * (Qnat i - Qnat j) * s)%Q)
    by (intros j; exact (sqdist_line origin direction i j)).
  apply fold_xmin_attained.
  - set (j := if S i <? n then S i else i - 1).
    assert (Hj : j < n /\ j <> i
                 /\ ((Qnat i - Qnat j) * (Qnat i - Qnat j) == 1)%Q).
    { unfold j. destruct (Nat.ltb_spec (S i) n).
      - split; [lia|]. split; [lia|]. unfold Qnat.
        rewrite Nat2Z.inj_succ. unfold Z.succ. rewrite inject_Z_plus.
        change (inject_Z 1) with 1%Q. ring.
      - split; [lia|]. split; [lia|]. unfold Qnat.
        replace (Z.of_nat i) with (Z.of_nat (i - 1) + 1)%Z by lia.
        rewrite inject_Z_plus. change (inject_Z 1) with 1%Q. ring. }
    destruct Hj as [Hj [Hji Hone]].
    assert (E : XFin (sqrt (Q2R s)) = dist j).
    { unfold dist. do 2 f_equal. apply Qeq_eqR.
      rewrite (Hline j), Hone. ring. }
    rewrite E, <- (Hnth j Hj Hji). apply nth_In.
    rewrite length_replace_nth, Hlr. exact Hj.
  - intros x Hx. apply (In_nth _ _ XInf) in Hx.
    destruct Hx as [j [Hj Hx]]. rewrite length_replace_nth, Hlr in Hj.
    destruct (Nat.eq_dec j i) as [->|Hji].
    + rewrite nth_replace_nth, Nat.eqb_refl, Hlr in Hx.
      destruct (Nat.ltb_spec i n); [discriminate | lia].
    + rewrite (Hnth j Hj Hji) in Hx. unfold dist in Hx. inversion Hx.
      apply sqrt_le_1_alt, Qle_Rle.
      rewrite (Hline j).
      pose proof (Qnat_apart (not_eq_sym Hji)) as H1.
      generalize dependent ((Qnat i - Qnat j) * (Qnat i - Qnat j))%Q.
      intros q Hq.
      rewrite <- (Qmult_1_l s) at 1.
      apply Qmult_le_compat_r; assumption.
Qed.

(** Three points of the plane, one unit apart on a diagonal. *)
Lemma compute_sp_three_points :
  compute_sp (line_points [0; 2]%Q [1; -1]%Q 3) = 0%R.
Proof.
  apply (@compute_sp_equally_spaced [0; 2]%Q [1; -1]%Q 3). lia.
Defined.

(** ** Problem1 *)

Lemma Problem1_a_bounds t : (-1 <= Problem1.a t <= 1)%R.
Proof. unfold Problem1.a. apply SIN_bound. Qed.

Lemma Problem1_b_bounds t : (1 <= Problem1.b t <= 2)%R.
Proof.
  unfold Problem1.b.
  pose proof (Rabs_pos (cos (1 / 2 * PI * t))) as H0.
  pose proof (COS_bound (1 / 2 * PI * t)) as Hc.
  assert (H1 : (Rabs (cos (1 / 2 * PI * t)) <= 1)%R) by (apply Rabs_le; lra).
  lra.
Qed.

(** X21.  The parameters of [Problem1], at every time: the exponent [H]
    of the objectives lies between 0.5 and 2.5, [b] between 1 and 2, and
    [c], by the square of which [_evaluate] divides, is at least 0.8. *)
Theorem Problem1_parameters t :
  (1 / 2 <= Problem1.H t <= 5 / 2)%R
  /\ (1 <= Problem1.b t <= 2)%R
  /\ (4 / 5 <= Problem1.c t)%R.
Proof.
  pose proof (Problem1_a_bounds t) as Ha.
  pose proof (Problem1_b_bounds t) as Hb.
  split; [unfold Problem1.H; lra|]. split; [exact Hb|].
  unfold Problem1.c.
  destruct (Rle_lt_dec 0 (Problem1.a t)) as [Hpos|Hneg].
  - eapply Rle_trans; [|apply Rmax_r]. lra.
  - destruct (Rle_lt_dec (4 / 5) (- Problem1.a t)) as [Hbig|Hsmall].
    + eapply Rle_trans; [|apply Rmax_l]. rewrite Rabs_left by exact Hneg.
      exact Hbig.
    + eapply Rle_trans; [|apply Rmax_r].
      unfold Problem1.b, Problem1.a in *.
      pose proof (sin2_cos2 (1 / 2 * PI * t)) as Hsc. unfold Rsqr in Hsc.
      set (s := sin (1 / 2 * PI * t)) in *.
      set (w := cos (1 / 2 * PI * t)) in *.
      assert (Hw : (3 / 5 <= Rabs w)%R).
      { unfold Rabs. destruct (Rcase_abs w); nra. }
      lra.
Qed.

Lemma Problem1_power_nonneg x y : (0 <= Problem1.power x y)%R.
Proof.
  unfold Problem1.power. destruct (Req_dec_T x 0); [lra|].
  unfold Rpower. apply Rlt_le, exp_pos.
Qed.

Lemma Problem1_power_zero x y : Problem1.power x y = 0%R <-> x = 0%R.
Proof.
  unfold Problem1.power. destruct (Req_dec_T x 0) as [E|E].
  - tauto.
  - split; [|contradiction]. intros H0.
    pose proof (exp_pos (y * ln x)) as Hp. unfold Rpower in H0. lra.
Qed.

Lemma Problem1_g_ge_1 t x : (1 <= Problem1.g t x)%R.
Proof.
  unfold Problem1.g. cbv zeta.
  match goal with |- (1 <= 1 + Rsum ?l)%R =>
    assert (Hs : (0 <= Rsum l)%R) end.
  { apply Rsum_nonneg. apply Forall_forall. intros y Hy.
    apply in_map_iff in Hy. destruct Hy as [[k xk] [<- _]].
    match goal with |- (0 <= ?e * ?e)%R => generalize e end.
    intros q. nra. }
  lra.
Qed.

(** X22.  The objectives of [Problem1] on a row [x]: [g] is at least 1
    and neither objective is negative; the first objective is zero exactly
    when the first variable is [a], the second exactly when it is
    [a + b]; the two are never zero together. *)
Theorem Problem1_objectives t x :
  (1 <= Problem1.g t x)%R
  /\ (0 <= Problem1.f1 t x)%R /\ (0 <= Problem1.f2 t x)%R
  /\ (Problem1.f1 t x = 0%R <-> hd 0%R x = Problem1.a t)
  /\ (Problem1.f2 t x = 0%R <-> hd 0%R x = (Problem1.a t + Problem1.b t)%R)
  /\ (0 < Problem1.f1 t x + Problem1.f2 t x)%R.
Proof.
  pose proof (Problem1_g_ge_1 t x) as Hg.
  pose proof (Problem1_b_bounds t) as Hb.
  unfold Problem1.f1, Problem1.f2.
  set (p1 := Problem1.power (Rabs (hd 0%R x - Problem1.a t)) (Problem1.H t)).
  set (p2 := Problem1.power
               (Rabs (hd 0%R x - Problem1.a t - Problem1.b t))
               (Problem1.H t)).
  assert (H1 : (0 <= p1)%R) by apply Problem1_power_nonneg.
  assert (H2 : (0 <= p2)%R) by apply Problem1_power_nonneg.
  assert (Z1 : p1 = 0%R <-> hd 0%R x = Problem1.a t).
  { unfold p1. rewrite Problem1_power_zero. split.
    - intros E. destruct (Req_dec (hd 0%R x - Problem1.a t) 0) as [E0|E0];
        [lra | exfalso; exact (Rabs_no_R0 _ E0 E)].
    - intros ->. rewrite Rminus_diag. apply Rabs_R0. }
  assert (Z2 : p2 = 0%R <-> hd 0%R x = (Problem1.a t + Problem1.b t)%R).
  { unfold p2. rewrite Problem1_power_zero. split.
    - intros E.
      destruct (Req_dec (hd 0%R x - Problem1.a t - Problem1.b t) 0)
        as [E0|E0]; [lra | exfalso; exact (Rabs_no_R0 _ E0 E)].
    - intros ->.
      replace (Problem1.a t + Problem1.b t - Problem1.a t - Problem1.b t)%R
        with 0%R by ring.
      apply Rabs_R0. }
  assert (M : forall p, (0 <= p)%R ->
            ((Problem1.g t x * p)%R = 0%R <-> p = 0%R)).
  { intros p Hp. split; [|intros ->; ring]. intros E.
    destruct (Rmult_integral _ _ E); [lra | assumption]. }
  split; [exact Hg|]. split; [nra|]. split; [nra|].
  split; [rewrite (M p1 H1); exact Z1|].
  split; [rewrite (M p2 H2); exact Z2|].
  destruct (Req_dec p1 0) as [E1|E1].
  - assert (E2 : p2 <> 0%R).
    { intros E2. apply Z1 in E1. apply Z2 in E2. lra. }
    nra.
  - nra.
Qed.

(** ** compute_ms on arrays that do not fit *)

(** X23.  [compute_ms] on an achieved set or a true front without points
    raises [ValueError]: a minimum over no rows. *)
Theorem compute_ms_no_points F true_pf :
  nrows F = 0 \/ nrows true_pf = 0 ->
  compute_ms F true_pf = Raise (ValueError EmptyReduce).
Proof.
  unfold compute_ms, np_min_axis0, np_max_axis0, nrows.
  destruct (rows F) as [|r rs].
  - intros _. reflexivity.
  - intros [H|H]; [discriminate|]. cbn [rbind].
    destruct (rows true_pf); [reflexivity | discriminate].
Qed.

Lemma compute_ms_no_points_instance :
  compute_ms unit_front (mkMatrix 2 []) = Raise (ValueError EmptyReduce).
Proof.
  apply (@compute_ms_no_points unit_front (mkMatrix 2 [])).
  right. reflexivity.
Defined.

(** The loop of [compute_ms] stops with [IndexError] at an objective that
    the true front does not have. *)
Lemma ms_components_IndexError F F_min F_max true_min true_max :
  length true_max < ncols F ->
  ms_components F F_min F_max true_min true_max = Raise IndexError.
Proof.
  intros Hlt. unfold ms_components.
  assert (Hin : exists k, In k (seq 0 (ncols F)) /\ length true_max <= k).
  { exists (length true_max). split; [apply in_seq; lia | lia]. }
  match goal with |- foldM ?b _ _ = _ => set (body := b) end.
  revert Hin. generalize (@nil Q) as acc. generalize (seq 0 (ncols F)) as l.
  induction l as [|k0 l IH]; intros acc [k [Hk Hbad]]; [contradiction|].
  cbn [foldM]. unfold body at 1.
  destruct (le_lt_dec (length true_max) k0) as [Hk0|Hk0].
  - unfold getitem at 1.
    apply nth_error_None in Hk0. rewrite Hk0. reflexivity.
  - destruct Hk as [->|Hk]; [lia|].
    unfold getitem.
    destruct (nth_error true_max k0); [|reflexivity]. cbn [rbind].
    destruct (nth_error F_max k0); [|reflexivity]. cbn [rbind].
    destruct (nth_error true_min k0); [|reflexivity]. cbn [rbind].
    destruct (nth_error F_min k0); [|reflexivity]. cbn [rbind].
    cbv zeta.
    destruct (Qlt_bool _ _); cbn [rbind]; apply IH; exists k; auto.
Qed.

(** X24.  [compute_ms] with a true front of fewer objectives than the
    achieved set raises [IndexError], at the first objective that the
    true front does not have. *)
Theorem compute_ms_fewer_objectives F true_pf :
  wf true_pf -> 0 < nrows F -> 0 < nrows true_pf ->
  ncols true_pf < ncols F ->
  compute_ms F true_pf = Raise IndexError.
Proof.
  intros Hwf HF HT Hc. unfold compute_ms.
  destruct (np_min_axis0 F) as [F_min|] eqn:E1.
  2:{ unfold np_min_axis0, nrows in *. destruct (rows F);
        [simpl in HF; lia | discriminate]. }
  destruct (np_max_axis0 F) as [F_max|] eqn:E2.
  2:{ unfold np_max_axis0, nrows in *. destruct (rows F);
        [simpl in HF; lia | discriminate]. }
  destruct (np_min_axis0 true_pf) as [true_min|] eqn:E3.
  2:{ unfold np_min_axis0, nrows in *. destruct (rows true_pf);
        [simpl in HT; lia | discriminate]. }
  destruct (np_max_axis0 true_pf) as [true_max|] eqn:E4.
  2:{ unfold np_max_axis0, nrows in *. destruct (rows true_pf);
        [simpl in HT; lia | discriminate]. }
  cbn [rbind].
  rewrite ms_components_IndexError; [reflexivity|].
  rewrite (np_max_axis0_length Hwf E4). exact Hc.
Qed.

Lemma compute_ms_fewer_objectives_instance :
  compute_ms unit_front (mkMatrix 1 [[0]; [1]]%Q) = Raise IndexError.
Proof.
  apply (@compute_ms_fewer_objectives unit_front (mkMatrix 1 [[0]; [1]]%Q)).
  - repeat constructor.
  - vm_compute. lia.
  - vm_compute. lia.
  - vm_compute. lia.
Defined.
